(** * A shallow embedding of the change log, the query builder and the
      preload helpers of the repository

    Source files: [changes.go] (package rel), [query.go] and
    [primary_key.go] (package grimoire).

    Conventions of the embedding.
    - A Go function that can stop with a run-time panic (index out of range,
      nil dereference, an explicit [panic]) returns an [option]: [None] is the
      panic, [Some r] the normal return.
    - A Go [map] is a reference.  Where a map is owned by one value that is
      passed by pointer (the change log) it is a [gmap] threaded through the
      calls; where copies of a struct share it (the query descriptor) it lives
      in an explicit store and the struct holds its address.
    - A Go slice of the query descriptor is a window (address, length,
      capacity) on a backing array of the store, and [append] is the
      language's: it writes in place while the capacity lasts.
    - [interface{}] values are the small universe [any]. *)

From Stdlib Require Import ZArith.
From stdpp Require Import gmap strings list fin_maps.

Set Warnings "-register-all".

(** ** Dynamic values *)

(** The values an [interface{}] holds in this code base: nil, booleans,
    integers, strings, column identifiers (the type [c.I], a named string) and
    argument lists ([[]interface{}]). *)
Inductive any : Type :=
| VNil
| VBool (b : bool)
| VInt (n : Z)
| VStr (s : string)
| VIdent (name : string)
| VArgs (args : list any).

(** * Part I. The change log ([changes.go]) *)

Inductive ChangeOp : Type :=
| ChangeSetOp
| ChangeIncOp
| ChangeDecOp
| ChangeFragmentOp.

(** [type Change struct { Type ChangeOp; Field string; Value interface{} }] *)
Record Change : Type := mkChange {
  Change_Type : ChangeOp;
  Change_Field : string;
  Change_Value : any
}.

(** The zero [Change{}]. *)
Definition Change_zero : Change := mkChange ChangeSetOp "" VNil.

(** [func Set(field string, value interface{}) Change] *)
Definition Set' (field : string) (value : any) : Change :=
  mkChange ChangeSetOp field value.

(** [func IncBy(field string, n int) Change] *)
Definition IncBy (field : string) (n : Z) : Change :=
  mkChange ChangeIncOp field (VInt n).

(** [func Inc(field string) Change] *)
Definition Inc (field : string) : Change := IncBy field 1.

(** [func DecBy(field string, n int) Change] *)
Definition DecBy (field : string) (n : Z) : Change :=
  mkChange ChangeDecOp field (VInt n).

(** [func Dec(field string) Change] *)
Definition Dec (field : string) : Change := DecBy field 1.

(** [func ChangeFragment(raw string, args ...interface{}) Change] *)
Definition ChangeFragment (raw : string) (args : list any) : Change :=
  mkChange ChangeFragmentOp raw (VArgs args).

(** [len(s)], an [int]. *)
Definition len {A} (s : list A) : Z := Z.of_nat (length s).

(** [s[i]] for an [int] index: out of range, a negative index included, the
    access panics. *)
Definition index {A} (s : list A) (i : Z) : option A :=
  if decide (0 ≤ i)%Z then s !! Z.to_nat i else None.

(** The elements of a sequence in the order of their first occurrence. *)
Fixpoint first_occurrences {A} `{!EqDecision A} (l : list A) : list A :=
  match l with
  | [] => []
  | x :: l' => x :: filter (λ y, y ≠ x) (first_occurrences l')
  end.

Section ChangeLog.

(** The registry type [constraints] is declared elsewhere in the package; the
    change log only carries a value of it.  It is a parameter here, and its
    zero value is [inhabitant]. *)
Context {constraints : Type} `{!Inhabited constraints}.

(** [type Changes struct] and [type AssocChanges struct].  The two maps are
    owned by the log and follow it through the operations applied to it (a
    copy of the struct that shares them is not followed).  They are maps as
    [BuildChanges] makes them: the zero value [Changes{}], whose maps are
    nil and on which [Set] and [appendAssoc] panic, is not a value of this
    type, and the properties below are stated of the logs [BuildChanges]
    and the operations make.  [StaleIDs] distinguishes the nil slice
    ([None]) from an empty one ([Some []]). *)
Inductive Changes : Type := mkChanges {
  Changes_Fields : gmap string Z;
  Changes_Changes : list Change;
  Changes_Assoc : gmap string Z;
  Changes_AssocChanges : list AssocChanges;
  Changes_constraints : constraints
}
with AssocChanges : Type := mkAssocChanges {
  AssocChanges_Changes : list Changes;
  AssocChanges_StaleIDs : option (list any)
}.

(** The zero [AssocChanges{}]. *)
Definition AssocChanges_zero : AssocChanges := mkAssocChanges [] None.

(** [func (c Changes) Empty() bool] *)
Definition Changes_Empty (c : Changes) : bool :=
  Z.eqb (len (Changes_Changes c)) 0.

(** [func (c Changes) Get(field string) (Change, bool)]: indexing the
    sequence out of range panics. *)
Definition Changes_Get (c : Changes) (field : string) : option (Change * bool) :=
  match Changes_Fields c !! field with
  | Some i =>
      match index (Changes_Changes c) i with
      | Some ch => Some (ch, true)
      | None => None
      end
  | None => Some (Change_zero, false)
  end.

(** [func (c *Changes) Set(ch Change)] *)
Definition Changes_Set (c : Changes) (ch : Change) : option Changes :=
  match Changes_Fields c !! Change_Field ch with
  | Some i =>
      match index (Changes_Changes c) i with
      | Some _ =>
          Some (mkChanges (Changes_Fields c)
                          (<[Z.to_nat i := ch]> (Changes_Changes c))
                          (Changes_Assoc c) (Changes_AssocChanges c)
                          (Changes_constraints c))
      | None => None
      end
  | None =>
      Some (mkChanges (<[Change_Field ch := len (Changes_Changes c)]> (Changes_Fields c))
                      (Changes_Changes c ++ [ch])
                      (Changes_Assoc c) (Changes_AssocChanges c)
                      (Changes_constraints c))
  end.

(** [func (c Changes) GetValue(field string) (interface{}, bool)] *)
Definition Changes_GetValue (c : Changes) (field : string) : option (any * bool) :=
  match Changes_Get c field with
  | Some (ch, ok) => Some (Change_Value ch, ok)
  | None => None
  end.

(** [func (c *Changes) SetValue(field string, value interface{})] *)
Definition Changes_SetValue (c : Changes) (field : string) (value : any) : option Changes :=
  Changes_Set c (Set' field value).

(** [func (c Changes) GetAssoc(field string) (AssocChanges, bool)] *)
Definition Changes_GetAssoc (c : Changes) (field : string) : option (AssocChanges * bool) :=
  match Changes_Assoc c !! field with
  | Some i =>
      match index (Changes_AssocChanges c) i with
      | Some ac => Some (ac, true)
      | None => None
      end
  | None => Some (AssocChanges_zero, false)
  end.

(** [func (c *Changes) appendAssoc(field string, ac AssocChanges)] *)
Definition Changes_appendAssoc (c : Changes) (field : string) (ac : AssocChanges) : Changes :=
  mkChanges (Changes_Fields c) (Changes_Changes c)
            (<[field := len (Changes_AssocChanges c)]> (Changes_Assoc c))
            (Changes_AssocChanges c ++ [ac])
            (Changes_constraints c).

(** [func (c *Changes) SetAssoc(field string, chs ...Changes)] *)
Definition Changes_SetAssoc (c : Changes) (field : string) (chs : list Changes) : option Changes :=
  match Changes_Assoc c !! field with
  | Some i =>
      match index (Changes_AssocChanges c) i with
      | Some ac =>
          Some (mkChanges (Changes_Fields c) (Changes_Changes c) (Changes_Assoc c)
                          (<[Z.to_nat i := mkAssocChanges chs (AssocChanges_StaleIDs ac)]>
                             (Changes_AssocChanges c))
                          (Changes_constraints c))
      | None => None
      end
  | None => Some (Changes_appendAssoc c field (mkAssocChanges chs None))
  end.

(** [func (c *Changes) SetStaleAssoc(field string, ids []interface{})] *)
Definition Changes_SetStaleAssoc (c : Changes) (field : string) (ids : option (list any))
  : option Changes :=
  match Changes_Assoc c !! field with
  | Some i =>
      match index (Changes_AssocChanges c) i with
      | Some ac =>
          Some (mkChanges (Changes_Fields c) (Changes_Changes c) (Changes_Assoc c)
                          (<[Z.to_nat i := mkAssocChanges (AssocChanges_Changes ac) ids]>
                             (Changes_AssocChanges c))
                          (Changes_constraints c))
      | None => None
      end
  | None => Some (Changes_appendAssoc c field (mkAssocChanges [] ids))
  end.

(** [type Changer interface { Build(changes *Changes) }] *)
Record Changer : Type := mkChanger {
  Build : Changes -> option Changes
}.

(** [func (c Change) Build(changes *Changes)]: a [Change] is a [Changer]. *)
Definition Change_Build (c : Change) : Changer :=
  mkChanger (fun changes => Changes_Set changes c).

(** The loop [for i := range changers { changers[i].Build(&changes) }]. *)
Fixpoint build_all (changers : list Changer) (changes : Changes) : option Changes :=
  match changers with
  | [] => Some changes
  | ch :: rest =>
      match Build ch changes with
      | Some changes' => build_all rest changes'
      | None => None
      end
  end.

(** [func BuildChanges(changers ...Changer) Changes] *)
Definition BuildChanges (changers : list Changer) : option Changes :=
  build_all changers (mkChanges ∅ [] ∅ [] inhabitant).

(** *** Notions used to state the properties of the change log *)

(** Every key of [Fields] is a valid index of [Changes], where a change of
    that field stands. *)
Definition fields_in_sync (c : Changes) : Prop :=
  ∀ f i, Changes_Fields c !! f = Some i →
         ∃ ch, index (Changes_Changes c) i = Some ch ∧ Change_Field ch = f.

(** Every position of [Changes] is the one [Fields] keeps for its field. *)
Definition changes_indexed (c : Changes) : Prop :=
  ∀ (n : nat) ch, Changes_Changes c !! n = Some ch →
                  Changes_Fields c !! Change_Field ch = Some (Z.of_nat n).

(** Every key of [Assoc] is a valid index of [AssocChanges]. *)
Definition assoc_in_sync (c : Changes) : Prop :=
  ∀ f i, Changes_Assoc c !! f = Some i →
         (0 ≤ i < len (Changes_AssocChanges c))%Z.

(** The three mutating operations of a log, as data. *)
Inductive op : Type :=
| OpSet (ch : Change)
| OpSetAssoc (field : string) (chs : list Changes)
| OpSetStaleAssoc (field : string) (ids : option (list any)).

Definition apply_op (c : Changes) (o : op) : option Changes :=
  match o with
  | OpSet ch => Changes_Set c ch
  | OpSetAssoc field chs => Changes_SetAssoc c field chs
  | OpSetStaleAssoc field ids => Changes_SetStaleAssoc c field ids
  end.

(** The logs a program obtains from a freshly built one by the three
    operations, in any order. *)
Inductive reachable : Changes → Prop :=
| reachable_fresh c : BuildChanges [] = Some c → reachable c
| reachable_step c o c' : reachable c → apply_op c o = Some c' → reachable c'.

(** The last change of a sequence that is about [field]. *)
Definition latest (field : string) (l : list Change) : option Change :=
  last (filter (λ ch, Change_Field ch = field) l).

(** What [Get] answers when the latest change of a field is [o]. *)
Definition found (o : option Change) : Change * bool :=
  match o with
  | Some ch => (ch, true)
  | None => (Change_zero, false)
  end.

End ChangeLog.

Arguments Changes : clear implicits.
Arguments AssocChanges : clear implicits.
Arguments Changer : clear implicits.

(** The log [BuildChanges()] returns, over a registry type with one value. *)
Definition empty_log : Changes unit := mkChanges ∅ [] ∅ [] ().

(** * Part I (continued). The query descriptor ([query.go]) *)

(** ** What the descriptor imports *)

(** [strings.HasSuffix] of the Go library:
    [len(s) >= len(suffix) && s[len(s)-len(suffix):] == suffix]. *)
Definition HasSuffix (s suffix : string) : bool :=
  (String.length suffix <=? String.length s)
  && String.eqb (String.substring (String.length s - String.length suffix)
                           (String.length suffix) s) suffix.

(** [strings.TrimSuffix] of the Go library: [s] without the given trailing
    suffix, [s] itself when it does not end in it. *)
Definition TrimSuffix (s suffix : string) : string :=
  if HasSuffix s suffix
  then String.substring 0 (String.length s - String.length suffix) s
  else s.

(** Modelled from the spec: the condition tree of package [c], which
    [query.go] imports.  The spec names its shapes
    ([Eq], [And], [Or], an empty tree) and how they read: an [And] holds when
    all its parts hold, an [Or] when one of them does, the empty tree filters
    nothing. *)
Inductive Condition : Type :=
| CondNone
| CondEq (left right : any)
| CondAnd (inner : list Condition)
| CondOr (inner : list Condition).

(** Modelled from the spec: [c.I], the column identifier. *)
Definition c_I (name : string) : any := VIdent name.

(** Modelled from the spec: [c.Eq], the equality of two operands. *)
Definition c_Eq (left right : any) : Condition := CondEq left right.

(** Modelled from the spec: [c.And], "combined with logical AND". *)
Definition c_And (condition : list Condition) : Condition := CondAnd condition.

(** Modelled from the spec: [c.Or]. *)
Definition c_Or (condition : list Condition) : Condition := CondOr condition.

(** Modelled from the spec: the method [Condition.And] of package [c], by
    which "[Where] conjoins" the accumulated tree and the new conditions. *)
Definition Condition_And (cond : Condition) (condition : list Condition) : Condition :=
  CondAnd (cond :: condition).

(** Modelled from the spec: the method [Condition.Or] of package [c], by
    which [OrWhere] "disjoins ... with the existing condition tree as a
    whole". *)
Definition Condition_Or (cond : Condition) (condition : list Condition) : Condition :=
  CondOr (cond :: condition).

(** Modelled from the spec: the logical reading of a condition tree on a row,
    [row l r] telling whether the comparison of [l] and [r] holds there. *)
Fixpoint holds (row : any → any → bool) (cond : Condition) : bool :=
  match cond with
  | CondNone => true
  | CondEq l r => row l r
  | CondAnd inner => forallb (holds row) inner
  | CondOr inner => existsb (holds row) inner
  end.

(** [c.Join], as [JoinWith] fills it. *)
Record Join : Type := mkJoin {
  Join_Mode : string;
  Join_Collection : string;
  Join_Condition : Condition
}.

(** The part of [Repo] the descriptor reads. *)
Record Repo : Type := mkRepo {
  inTransaction : bool
}.

(** ** Slices and maps in a store *)

Abbreviation loc := nat (only parsing).

(** A slice: the address of its backing array (none for the nil slice), its
    length and its capacity. *)
Record slice : Type := mkSlice {
  slice_ptr : option loc;
  slice_len : nat;
  slice_cap : nat
}.

(** The nil slice. *)
Definition slice_nil : slice := mkSlice None 0 0.

(** The elements a slice shows: the first [slice_len] of its array. *)
Definition slice_read {A} (arrays : gmap loc (list A)) (s : slice) : list A :=
  match slice_ptr s with
  | Some p => take (slice_len s) (default [] (arrays !! p))
  | None => []
  end.

(** The built-in [append(s, xs...)]: while the capacity lasts the elements
    are written into the backing array after the length, otherwise a new
    array receives the old elements and the new ones (with the least capacity
    the language allows). *)
Definition append {A} (arrays : gmap loc (list A)) (s : slice) (xs : list A)
  : slice * gmap loc (list A) :=
  if decide (slice_len s + length xs ≤ slice_cap s) then
    match slice_ptr s with
    | Some p =>
        (mkSlice (Some p) (slice_len s + length xs) (slice_cap s),
         alter (λ arr, take (slice_len s) arr ++ xs
                       ++ drop (slice_len s + length xs) arr) p arrays)
    | None => (s, arrays)
    end
  else
    let p := fresh (dom arrays) in
    (mkSlice (Some p) (slice_len s + length xs) (slice_len s + length xs),
     <[p := slice_read arrays s ++ xs]> arrays).

Section QueryBuilder.

(** [c.Order] is only stored and passed on: a parameter. *)
Context {Order : Type}.

(** The memory the descriptors point into: the backing arrays of their join
    and order slices, and their maps of pending changes. *)
Record store : Type := mkStore {
  store_joins : gmap loc (list Join);
  store_orders : gmap loc (list Order);
  store_maps : gmap loc (gmap string any)
}.

(** [type Query struct].  [Fields] and [GroupFields] are only ever assigned
    as a whole, so they are kept as the sequences they show; [JoinClause] and
    [OrderClause] are appended to, and [Changes] is written through: these
    three point into the store.  [repo] is a pointer, [None] when nil. *)
Record Query : Type := mkQuery {
  Query_repo : option Repo;
  Query_Collection : string;
  Query_Fields : list string;
  Query_AggregateField : string;
  Query_AggregateMode : string;
  Query_AsDistinct : bool;
  Query_JoinClause : slice;
  Query_Condition : Condition;
  Query_GroupFields : list string;
  Query_HavingCondition : Condition;
  Query_OrderClause : slice;
  Query_OffsetResult : Z;
  Query_LimitResult : Z;
  Query_LockClause : string;
  Query_Changes : option loc
}.

(** Assignments to one field of the method's own copy of the receiver. *)
Definition with_Fields (q : Query) (v : list string) : Query :=
  mkQuery (Query_repo q) (Query_Collection q) v (Query_AggregateField q)
    (Query_AggregateMode q) (Query_AsDistinct q) (Query_JoinClause q)
    (Query_Condition q) (Query_GroupFields q) (Query_HavingCondition q)
    (Query_OrderClause q) (Query_OffsetResult q) (Query_LimitResult q)
    (Query_LockClause q) (Query_Changes q).

Definition with_AsDistinct (q : Query) (v : bool) : Query :=
  mkQuery (Query_repo q) (Query_Collection q) (Query_Fields q) (Query_AggregateField q)
    (Query_AggregateMode q) v (Query_JoinClause q)
    (Query_Condition q) (Query_GroupFields q) (Query_HavingCondition q)
    (Query_OrderClause q) (Query_OffsetResult q) (Query_LimitResult q)
    (Query_LockClause q) (Query_Changes q).

Definition with_JoinClause (q : Query) (v : slice) : Query :=
  mkQuery (Query_repo q) (Query_Collection q) (Query_Fields q) (Query_AggregateField q)
    (Query_AggregateMode q) (Query_AsDistinct q) v
    (Query_Condition q) (Query_GroupFields q) (Query_HavingCondition q)
    (Query_OrderClause q) (Query_OffsetResult q) (Query_LimitResult q)
    (Query_LockClause q) (Query_Changes q).

Definition with_Condition (q : Query) (v : Condition) : Query :=
  mkQuery (Query_repo q) (Query_Collection q) (Query_Fields q) (Query_AggregateField q)
    (Query_AggregateMode q) (Query_AsDistinct q) (Query_JoinClause q)
    v (Query_GroupFields q) (Query_HavingCondition q)
    (Query_OrderClause q) (Query_OffsetResult q) (Query_LimitResult q)
    (Query_LockClause q) (Query_Changes q).

Definition with_GroupFields (q : Query) (v : list string) : Query :=
  mkQuery (Query_repo q) (Query_Collection q) (Query_Fields q) (Query_AggregateField q)
    (Query_AggregateMode q) (Query_AsDistinct q) (Query_JoinClause q)
    (Query_Condition q) v (Query_HavingCondition q)
    (Query_OrderClause q) (Query_OffsetResult q) (Query_LimitResult q)
    (Query_LockClause q) (Query_Changes q).

Definition with_HavingCondition (q : Query) (v : Condition) : Query :=
  mkQuery (Query_repo q) (Query_Collection q) (Query_Fields q) (Query_AggregateField q)
    (Query_AggregateMode q) (Query_AsDistinct q) (Query_JoinClause q)
    (Query_Condition q) (Query_GroupFields q) v
    (Query_OrderClause q) (Query_OffsetResult q) (Query_LimitResult q)
    (Query_LockClause q) (Query_Changes q).

Definition with_OrderClause (q : Query) (v : slice) : Query :=
  mkQuery (Query_repo q) (Query_Collection q) (Query_Fields q) (Query_AggregateField q)
    (Query_AggregateMode q) (Query_AsDistinct q) (Query_JoinClause q)
    (Query_Condition q) (Query_GroupFields q) (Query_HavingCondition q)
    v (Query_OffsetResult q) (Query_LimitResult q)
    (Query_LockClause q) (Query_Changes q).

Definition with_OffsetResult (q : Query) (v : Z) : Query :=
  mkQuery (Query_repo q) (Query_Collection q) (Query_Fields q) (Query_AggregateField q)
    (Query_AggregateMode q) (Query_AsDistinct q) (Query_JoinClause q)
    (Query_Condition q) (Query_GroupFields q) (Query_HavingCondition q)
    (Query_OrderClause q) v (Query_LimitResult q)
    (Query_LockClause q) (Query_Changes q).

Definition with_LimitResult (q : Query) (v : Z) : Query :=
  mkQuery (Query_repo q) (Query_Collection q) (Query_Fields q) (Query_AggregateField q)
    (Query_AggregateMode q) (Query_AsDistinct q) (Query_JoinClause q)
    (Query_Condition q) (Query_GroupFields q) (Query_HavingCondition q)
    (Query_OrderClause q) (Query_OffsetResult q) v
    (Query_LockClause q) (Query_Changes q).

Definition with_LockClause (q : Query) (v : string) : Query :=
  mkQuery (Query_repo q) (Query_Collection q) (Query_Fields q) (Query_AggregateField q)
    (Query_AggregateMode q) (Query_AsDistinct q) (Query_JoinClause q)
    (Query_Condition q) (Query_GroupFields q) (Query_HavingCondition q)
    (Query_OrderClause q) (Query_OffsetResult q) (Query_LimitResult q)
    v (Query_Changes q).

Definition with_Changes (q : Query) (v : option loc) : Query :=
  mkQuery (Query_repo q) (Query_Collection q) (Query_Fields q) (Query_AggregateField q)
    (Query_AggregateMode q) (Query_AsDistinct q) (Query_JoinClause q)
    (Query_Condition q) (Query_GroupFields q) (Query_HavingCondition q)
    (Query_OrderClause q) (Query_OffsetResult q) (Query_LimitResult q)
    (Query_LockClause q) v.

Definition with_joins (σ : store) (m : gmap loc (list Join)) : store :=
  mkStore m (store_orders σ) (store_maps σ).

Definition with_orders (σ : store) (m : gmap loc (list Order)) : store :=
  mkStore (store_joins σ) m (store_maps σ).

Definition with_maps (σ : store) (m : gmap loc (gmap string any)) : store :=
  mkStore (store_joins σ) (store_orders σ) m.

(** The zero [Query{}]. *)
Definition Query_zero : Query :=
  mkQuery None "" [] "" "" false slice_nil CondNone [] CondNone slice_nil 0 0 "" None.

(** ** The builder methods *)

(** [func (query Query) Select(fields ...string) Query] *)
Definition Select (query : Query) (fields : list string) : Query :=
  with_Fields query fields.

(** [func (query Query) Distinct() Query] *)
Definition Distinct (query : Query) : Query :=
  with_AsDistinct query true.

(** [func (query Query) JoinWith(mode string, collection string,
    condition ...c.Condition) Query] *)
Definition JoinWith (σ : store) (query : Query) (mode collection : string)
    (condition : list Condition) : Query * store :=
  if decide (length condition = 0) then
    let '(s, arrays) :=
      append (store_joins σ) (Query_JoinClause query)
        [mkJoin mode collection
           (c_And [c_Eq
                     (c_I (Query_Collection query +:+ "." +:+ TrimSuffix collection "s" +:+ "_id"))
                     (c_I (collection +:+ ".id"))])] in
    (with_JoinClause query s, with_joins σ arrays)
  else
    let '(s, arrays) :=
      append (store_joins σ) (Query_JoinClause query)
        [mkJoin mode collection (c_And condition)] in
    (with_JoinClause query s, with_joins σ arrays).

(** [func (query Query) Join(collection string, condition ...c.Condition) Query] *)
Definition Query_Join (σ : store) (query : Query) (collection : string)
    (condition : list Condition) : Query * store :=
  JoinWith σ query "JOIN" collection condition.

(** [func (query Query) Where(condition ...c.Condition) Query] *)
Definition Where (query : Query) (condition : list Condition) : Query :=
  with_Condition query (Condition_And (Query_Condition query) condition).

(** [func (query Query) OrWhere(condition ...c.Condition) Query] *)
Definition OrWhere (query : Query) (condition : list Condition) : Query :=
  with_Condition query (Condition_Or (Query_Condition query) [c_And condition]).

(** [func (query Query) Group(fields ...string) Query] *)
Definition Group (query : Query) (fields : list string) : Query :=
  with_GroupFields query fields.

(** [func (query Query) Having(condition ...c.Condition) Query] *)
Definition Having (query : Query) (condition : list Condition) : Query :=
  with_HavingCondition query (Condition_And (Query_HavingCondition query) condition).

(** [func (query Query) OrHaving(condition ...c.Condition) Query] *)
Definition OrHaving (query : Query) (condition : list Condition) : Query :=
  with_HavingCondition query (Condition_Or (Query_HavingCondition query) [c_And condition]).

(** [func (query Query) Order(order ...c.Order) Query] *)
Definition Query_Order (σ : store) (query : Query) (order : list Order) : Query * store :=
  let '(s, arrays) := append (store_orders σ) (Query_OrderClause query) order in
  (with_OrderClause query s, with_orders σ arrays).

(** [func (query Query) Offset(offset int) Query] *)
Definition Offset (query : Query) (offset : Z) : Query :=
  with_OffsetResult query offset.

(** [func (query Query) Limit(limit int) Query] *)
Definition Limit (query : Query) (limit : Z) : Query :=
  with_LimitResult query limit.

(** [func (query Query) Lock(lock ...string) Query]: reading
    [query.repo.inTransaction] through a nil [repo] panics. *)
Definition Lock (query : Query) (lock : list string) : option Query :=
  match Query_repo query with
  | None => None
  | Some repo =>
      if negb (inTransaction repo) then Some query
      else
        match lock with
        | l0 :: _ => Some (with_LockClause query l0)
        | [] => Some (with_LockClause query "FOR UPDATE")
        end
  end.

(** [func (query Query) FindBy(col string, val interface{}) Query] *)
Definition FindBy (query : Query) (col : string) (val : any) : Query :=
  Where query [c_Eq (c_I (Query_Collection query +:+ "." +:+ col)) val].

(** [func (query Query) Find(id interface{}) Query] *)
Definition Find (query : Query) (id : any) : Query :=
  FindBy query "id" id.

(** [func (query Query) Set(field string, value interface{}) Query]: a nil
    map is replaced by a new one in the method's copy; the assignment
    [query.Changes[field] = value] then goes through the map the copy points
    to. *)
Definition Query_Set (σ : store) (query : Query) (field : string) (value : any)
  : Query * store :=
  match Query_Changes query with
  | None =>
      let p := fresh (dom (store_maps σ)) in
      (with_Changes query (Some p),
       with_maps σ (<[p := <[field := value]> ∅]> (store_maps σ)))
  | Some p =>
      (query,
       with_maps σ (alter (λ m, <[field := value]> m) p (store_maps σ)))
  end.

(** *** Notions used to state the properties of the descriptor *)

(** A call of a builder method, as data. *)
Inductive builder : Type :=
| BSelect (fields : list string)
| BDistinct
| BJoin (collection : string) (condition : list Condition)
| BJoinWith (mode collection : string) (condition : list Condition)
| BWhere (condition : list Condition)
| BOrWhere (condition : list Condition)
| BGroup (fields : list string)
| BHaving (condition : list Condition)
| BOrHaving (condition : list Condition)
| BOrder (order : list Order)
| BOffset (offset : Z)
| BLimit (limit : Z)
| BLock (lock : list string)
| BFind (id : any)
| BFindBy (col : string) (val : any)
| BSet (field : string) (value : any).

Definition call (σ : store) (query : Query) (b : builder) : option (Query * store) :=
  match b with
  | BSelect fields => Some (Select query fields, σ)
  | BDistinct => Some (Distinct query, σ)
  | BJoin collection condition => Some (Query_Join σ query collection condition)
  | BJoinWith mode collection condition => Some (JoinWith σ query mode collection condition)
  | BWhere condition => Some (Where query condition, σ)
  | BOrWhere condition => Some (OrWhere query condition, σ)
  | BGroup fields => Some (Group query fields, σ)
  | BHaving condition => Some (Having query condition, σ)
  | BOrHaving condition => Some (OrHaving query condition, σ)
  | BOrder order => Some (Query_Order σ query order)
  | BOffset offset => Some (Offset query offset, σ)
  | BLimit limit => Some (Limit query limit, σ)
  | BLock lock => (λ q, (q, σ)) <$> Lock query lock
  | BFind id => Some (Find query id, σ)
  | BFindBy col val => Some (FindBy query col val, σ)
  | BSet field value => Some (Query_Set σ query field value)
  end.

(** What a holder of a descriptor sees of it: its plain fields, the elements
    of its two slices, and the content of its map of pending changes. *)
Record view : Type := mkView {
  view_plain : Query;
  view_JoinClause : list Join;
  view_OrderClause : list Order;
  view_Changes : option (gmap string any)
}.

Definition observe (σ : store) (query : Query) : view :=
  mkView query
         (slice_read (store_joins σ) (Query_JoinClause query))
         (slice_read (store_orders σ) (Query_OrderClause query))
         (match Query_Changes query with
          | Some p => Some (default ∅ (store_maps σ !! p))
          | None => None
          end).

(** A slice fits its store: it is nil and empty, or its array is there and
    at least as long as its capacity, itself at least its length. *)
Definition slice_ok {A} (arrays : gmap loc (list A)) (s : slice) : Prop :=
  match slice_ptr s with
  | Some p => ∃ arr, arrays !! p = Some arr
                     ∧ slice_len s ≤ slice_cap s ∧ slice_cap s ≤ length arr
  | None => slice_len s = 0 ∧ slice_cap s = 0
  end.

(** A descriptor fits its store. *)
Definition query_ok (σ : store) (query : Query) : Prop :=
  slice_ok (store_joins σ) (Query_JoinClause query)
  ∧ slice_ok (store_orders σ) (Query_OrderClause query)
  ∧ match Query_Changes query with
    | Some p => is_Some (store_maps σ !! p)
    | None => True
    end.

End QueryBuilder.

Arguments store : clear implicits.
Arguments view : clear implicits.
Arguments builder : clear implicits.

(** A descriptor over the collection "posts" with nothing else set, and the
    store that holds nothing. *)
Definition posts_query : Query :=
  mkQuery None "posts" [] "" "" false slice_nil CondNone [] CondNone slice_nil 0 0 "" None.

Definition empty_store : store unit := mkStore ∅ ∅ ∅.

(** * Part I (continued). The preload helpers ([query.go]) *)

(** [reflect.Kind], as far as the helpers tell kinds apart. *)
Inductive Kind : Type :=
| reflect_Invalid
| reflect_Bool
| reflect_Int
| reflect_String
| reflect_Struct
| reflect_Ptr
| reflect_Slice
| reflect_Array.

Global Instance Kind_eq_dec : EqDecision Kind.
Proof. solve_decision. Defined.

(** ** [getPreloadInfo] *)

(** [reflect.Type] and [reflect.StructField].  The fields of a struct type
    are those [FieldByName] finds, each with the index path it reports; a tag
    is the list of its key and value pairs. *)
Record StructFieldOf (T : Type) : Type := mkStructField {
  StructField_Name : string;
  StructField_Type : T;
  StructField_Tag : list (string * string);
  StructField_Index : list Z
}.

Arguments mkStructField {T} _ _ _ _.
Arguments StructField_Name {T} _.
Arguments StructField_Type {T} _.
Arguments StructField_Tag {T} _.
Arguments StructField_Index {T} _.

Inductive rtype : Type :=
| TBasic (kind : Kind) (name : string)
| TStruct (name : string) (fields : list (StructFieldOf rtype))
| TPtr (elem : rtype)
| TSlice (elem : rtype)
| TArray (len : nat) (elem : rtype).

Abbreviation StructField := (StructFieldOf rtype).

(** [Type.Kind()] *)
Definition rtype_Kind (t : rtype) : Kind :=
  match t with
  | TBasic kind _ => kind
  | TStruct _ _ => reflect_Struct
  | TPtr _ => reflect_Ptr
  | TSlice _ => reflect_Slice
  | TArray _ _ => reflect_Array
  end.

(** [Type.Name()]: the name of a defined type, empty for the others. *)
Definition rtype_Name (t : rtype) : string :=
  match t with
  | TBasic _ name => name
  | TStruct name _ => name
  | TPtr _ | TSlice _ | TArray _ _ => ""
  end.

(** [Type.Elem()]: panics unless the type is a pointer, slice or array. *)
Definition rtype_Elem (t : rtype) : option rtype :=
  match t with
  | TPtr elem | TSlice elem | TArray _ elem => Some elem
  | TBasic _ _ | TStruct _ _ => None
  end.

(** [Type.FieldByName(name)]: panics unless the type is a struct; on a
    struct, the field of that name if there is one (the [bool] result). *)
Definition rtype_FieldByName (t : rtype) (name : string) : option (option StructField) :=
  match t with
  | TStruct _ fields =>
      Some (find (λ sf, bool_decide (StructField_Name sf = name)) fields)
  | TBasic _ _ | TPtr _ | TSlice _ | TArray _ _ => None
  end.

(** [StructTag.Get(key)]: the value of the key, empty when it is absent. *)
Definition Tag_Get (tag : list (string * string)) (key : string) : string :=
  match find (λ kv, bool_decide (kv.1 = key)) tag with
  | Some kv => kv.2
  | None => ""
  end.

Section PreloadInfo.

(** [snakecase.SnakeCase] of the library the file imports: a parameter. *)
Context (SnakeCase : string → string).

(** The guess of [getPreloadInfo] (lines "Try to guess ref and fk if not
    defined"): the pair of names after it. *)
Definition guess_ref_fk (rt : rtype) (sft : StructField) (ref fk : string)
  : option (string * string) :=
  if decide (ref = "" ∨ fk = "") then
    match rtype_FieldByName rt (StructField_Name sft +:+ "ID") with
    | Some (Some _) => Some (StructField_Name sft +:+ "ID", "ID")
    | Some None => Some ("ID", rtype_Name rt +:+ "ID")
    | None => None
    end
  else Some (ref, fk).

(** The type whose fields hold the foreign key: the element type of a
    pointer, slice or array relation ([ft = ft.Elem()]), the type of the
    relation otherwise. *)
Definition related_type (ft : rtype) : option rtype :=
  if bool_decide (rtype_Kind ft = reflect_Ptr)
     || bool_decide (rtype_Kind ft = reflect_Slice)
     || bool_decide (rtype_Kind ft = reflect_Array)
  then rtype_Elem ft else Some ft.

(** The column of the foreign key [sf] named [fk]: its [db] tag, the
    snake-cased name when the tag is empty. *)
Definition foreign_key_column (sf : StructField) (fk : string) : string :=
  let tag := Tag_Get (StructField_Tag sf) "db" in
  if decide (tag ≠ "") then tag else SnakeCase fk.

(** [func getPreloadInfo(rt reflect.Type, field string) ([]int, []int, string)] *)
Definition getPreloadInfo (rt : rtype) (field : string)
  : option (list Z * list Z * string) :=
  match rtype_FieldByName rt field with
  | Some (Some sft) =>
      let ft := StructField_Type sft in
      let ref := Tag_Get (StructField_Tag sft) "references" in
      let fk := Tag_Get (StructField_Tag sft) "foreign_key" in
      match related_type ft with
      | Some ft =>
          match guess_ref_fk rt sft ref fk with
          | Some (ref, fk) =>
              match rtype_FieldByName rt ref with
              | Some (Some idv) =>
                  let refIndex := StructField_Index idv in
                  match rtype_FieldByName ft fk with
                  | Some (Some sf) =>
                      let fkIndex := StructField_Index sf in
                      let column := foreign_key_column sf fk in
                      Some (refIndex, fkIndex, column)
                  | _ => None
                  end
              | _ => None
              end
          | None => None
          end
      | None => None
      end
  | _ => None
  end.

End PreloadInfo.

(** Two record types for examples: a user with the transactions of which he
    is the buyer, the foreign key of a transaction carrying the column
    "user_id". *)
Definition Transaction_type : rtype :=
  TStruct "Transaction"
    [mkStructField "ID" (TBasic reflect_Int "int") [] [0%Z];
     mkStructField "UserID" (TBasic reflect_Int "int") [("db", "user_id")] [1%Z]].

Definition User_type : rtype :=
  TStruct "User"
    [mkStructField "ID" (TBasic reflect_Int "int") [] [0%Z];
     mkStructField "Transactions" (TSlice Transaction_type) [] [1%Z]].

(** An article and its author, for examples: the article holds a pointer to
    the author and the author's identifier. *)
Definition Author_type : rtype :=
  TStruct "Author"
    [mkStructField "ID" (TBasic reflect_Int "int") [] [0%Z];
     mkStructField "Name" (TBasic reflect_String "string") [] [1%Z]].

Definition Article_type : rtype :=
  TStruct "Article"
    [mkStructField "ID" (TBasic reflect_Int "int") [] [0%Z];
     mkStructField "AuthorID" (TBasic reflect_Int "int") [] [1%Z];
     mkStructField "Author" (TPtr Author_type) [] [2%Z]].

(** ** [collectPreloadTarget] *)

Section PreloadTargets.

(** [ID]: the values reference fields hold, as the address map compares them
    when they are its keys (the keys are [interface{}] values).
    [hashable id]: whether the dynamic type of [id] can be a map key; a
    slice, a map or a function cannot, and the access to the map panics.
    [self_equal id]: whether [id == id]; a NaN is not equal to itself, so
    that a key holding one is never found again.  [REC]: the related records
    a relation slot holds, with their zero value [inhabitant]. *)
Context {ID : Type} `{!EqDecision ID, !Countable ID}.
Context (hashable self_equal : ID → bool).
Context {REC : Type} `{!Inhabited REC}.

(** What reflection shows of a reference field: a nil pointer, a pointer to
    a value, or a value that is not a pointer.  [CanInterface] tells whether
    the field was reached through exported fields only: [Interface] panics
    otherwise. *)
Inductive refvalue : Type :=
| RefNil
| RefPtr (CanInterface : bool) (target : ID)
| RefValue (CanInterface : bool) (v : ID).

(** [refv.Kind() == reflect.Ptr] *)
Definition refvalue_Kind_is_Ptr (refv : refvalue) : bool :=
  match refv with
  | RefNil | RefPtr _ _ => true
  | RefValue _ _ => false
  end.

(** [refv.IsNil()], asked of a pointer. *)
Definition refvalue_IsNil (refv : refvalue) : bool :=
  match refv with
  | RefNil => true
  | RefPtr _ _ | RefValue _ _ => false
  end.

(** The content of a relation slot: a slice or an array of related records,
    a pointer to one, or one. *)
Inductive slot : Type :=
| SlotSlice (elems : list REC)
| SlotArray (elems : list REC)
| SlotPtr (target : option REC)
| SlotStruct (v : REC).

(** [fv.Kind()] *)
Definition slot_Kind (fv : slot) : Kind :=
  match fv with
  | SlotSlice _ => reflect_Slice
  | SlotArray _ => reflect_Array
  | SlotPtr _ => reflect_Ptr
  | SlotStruct _ => reflect_Struct
  end.

(** [reflect.Zero(fv.Type())]: the nil slice, the array of as many zero
    records, the nil pointer, the zero record. *)
Definition slot_Zero (fv : slot) : slot :=
  match fv with
  | SlotSlice _ => SlotSlice []
  | SlotArray elems => SlotArray (replicate (length elems) inhabitant)
  | SlotPtr _ => SlotPtr None
  | SlotStruct _ => SlotStruct inhabitant
  end.

(** [type preloadTarget struct { schema, field reflect.Value }].  Of the owner
    [schema] the helper only asks [FieldByIndex]: it is what that call
    answers for each index path, [None] when the call panics.  [field] is the
    address of the relation slot, whose content is in the store of slots (a
    [field] that is no slot of the store is the zero [Value], of kind
    [Invalid]), with what [field.CanSet()] answers: whether the slot is
    addressable and was reached through exported fields only. *)
Record preloadTarget : Type := mkPreloadTarget {
  preloadTarget_schema : list Z → option refvalue;
  preloadTarget_field : loc;
  preloadTarget_CanSet : bool
}.

(** [func getPreloadID(fv reflect.Value) interface{}].  [Interface] panics on
    a value obtained through an unexported field; [Elem] of a nil pointer is
    the zero [Value], of which [Interface] panics. *)
Definition getPreloadID (fv : refvalue) : option ID :=
  match fv with
  | RefNil => None
  | RefPtr true target => Some target
  | RefValue true v => Some v
  | RefPtr false _ | RefValue false _ => None
  end.

(** [fv.Set(x)] on the field of a target: panics unless the field can be
    set. *)
Definition preloadTarget_Set (σ : gmap loc slot) (t : preloadTarget) (x : slot)
  : option (gmap loc slot) :=
  if preloadTarget_CanSet t then Some (<[preloadTarget_field t := x]> σ)
  else None.

(** [map[interface{}][]reflect.Value]: the entries under keys that are equal
    to themselves, which a lookup finds, and the entries under keys that are
    not, in the order in which they were written: no lookup finds them, and
    every write under such a key adds an entry. *)
Record addrmap : Type := mkAddrmap {
  addrmap_found : gmap ID (list loc);
  addrmap_lost : list (ID * list loc)
}.

(** [make(map[interface{}][]reflect.Value)] *)
Definition addrmap_make : addrmap := mkAddrmap ∅ [].

(** [m[id]]: the nil slice when the key is not found; a panic when the key
    cannot be hashed. *)
Definition addrmap_get (m : addrmap) (id : ID) : option (list loc) :=
  if hashable id then
    Some (if self_equal id then default [] (addrmap_found m !! id) else [])
  else None.

(** [m[id] = v]: a panic when the key cannot be hashed. *)
Definition addrmap_set (m : addrmap) (id : ID) (v : list loc) : option addrmap :=
  if hashable id then
    Some (if self_equal id
          then mkAddrmap (<[id := v]> (addrmap_found m)) (addrmap_lost m)
          else mkAddrmap (addrmap_found m) (addrmap_lost m ++ [(id, v)]))
  else None.

(** One turn of the loop of [collectPreloadTarget]. *)
Definition collect_step (refIndex : list Z)
    (st : addrmap * list ID * gmap loc slot) (t : preloadTarget)
  : option (addrmap * list ID * gmap loc slot) :=
  let '(addrs, ids, σ) := st in
  match preloadTarget_schema t refIndex with
  | None => None
  | Some refv =>
      if refvalue_Kind_is_Ptr refv && refvalue_IsNil refv then Some st
      else
        id ← getPreloadID refv;
        σ' ← match σ !! preloadTarget_field t with
             | Some fv =>
                 if bool_decide (slot_Kind fv = reflect_Slice)
                    || bool_decide (slot_Kind fv = reflect_Array)
                 then preloadTarget_Set σ t (slot_Zero fv)
                 else Some σ
             | None => Some σ
             end;
        old ← addrmap_get addrs id;
        addrs' ← addrmap_set addrs id (old ++ [preloadTarget_field t]);
        new ← addrmap_get addrs' id;
        Some (addrs',
              if decide (length new = 1) then ids ++ [id] else ids,
              σ')
  end.

Fixpoint collect_loop (refIndex : list Z) (preload : list preloadTarget)
    (st : addrmap * list ID * gmap loc slot)
  : option (addrmap * list ID * gmap loc slot) :=
  match preload with
  | [] => Some st
  | t :: rest =>
      match collect_step refIndex st t with
      | Some st' => collect_loop refIndex rest st'
      | None => None
      end
  end.

(** [func collectPreloadTarget(preload []preloadTarget, refIndex []int)
    (map[interface{}][]reflect.Value, []interface{})], with the store of
    slots before and after. *)
Definition collectPreloadTarget (σ : gmap loc slot)
    (preload : list preloadTarget) (refIndex : list Z)
  : option (addrmap * list ID * gmap loc slot) :=
  collect_loop refIndex preload (addrmap_make, [], σ).

(** *** Notions used to state the properties of the collection *)

(** What a target contributes: its reference value and its slot, nothing
    when its reference is a nil pointer. *)
Definition contribution (refIndex : list Z) (t : preloadTarget) : option (ID * loc) :=
  match preloadTarget_schema t refIndex with
  | Some (RefPtr _ id) | Some (RefValue _ id) => Some (id, preloadTarget_field t)
  | Some RefNil | None => None
  end.

(** The contributions under a reference value that is equal to itself, and
    the others. *)
Definition keyed (pairs : list (ID * loc)) : list (ID * loc) :=
  filter (λ p, self_equal p.1 = true) pairs.

Definition stray (pairs : list (ID * loc)) : list (ID * loc) :=
  filter (λ p, self_equal p.1 = false) pairs.

(** A slot after the collection recorded it: the empty slice for a slice,
    the array of as many zero records for an array, itself otherwise. *)
Definition reset (fv : slot) : slot :=
  match fv with
  | SlotSlice _ => SlotSlice []
  | SlotArray elems => SlotArray (replicate (length elems) inhabitant)
  | SlotPtr _ | SlotStruct _ => fv
  end.

(** The loop can take the target [t] on the store [σ]: [FieldByIndex]
    answers, and when the reference is not a nil pointer, [Interface] may be
    asked of it, it can be hashed, and the slot, if it is a slice or an
    array, can be set. *)
Definition collectable (σ : gmap loc slot) (refIndex : list Z)
    (t : preloadTarget) : bool :=
  match preloadTarget_schema t refIndex with
  | None => false
  | Some RefNil => true
  | Some (RefPtr can id) | Some (RefValue can id) =>
      can && hashable id
      && match σ !! preloadTarget_field t with
         | Some fv =>
             match slot_Kind fv with
             | reflect_Slice | reflect_Array => preloadTarget_CanSet t
             | _ => true
             end
         | None => true
         end
  end.

(** A store with the slots of another, each of the same kind. *)
Definition same_kinds (σ σ' : gmap loc slot) : Prop :=
  ∀ l, slot_Kind <$> σ' !! l = slot_Kind <$> σ !! l.

(** What the loop has built once it has taken the contributions [pairs],
    from the store [σ0]: the keys are the reference values equal to
    themselves, in the order of their first occurrence; each of them is
    mapped to the slots contributed with it, in order; each contribution
    under another reference value has an entry of its own; and the slots
    contributed are reset. *)
Definition collected (σ0 : gmap loc slot) (pairs : list (ID * loc))
    (st : addrmap * list ID * gmap loc slot) : Prop :=
  st.1.2 = first_occurrences (keyed pairs).*1
  ∧ (∀ id, addrmap_found st.1.1 !! id
           = if decide (id ∈ (keyed pairs).*1)
             then Some (filter (λ p, p.1 = id) (keyed pairs)).*2 else None)
  ∧ addrmap_lost st.1.1 = (λ p, (p.1, [p.2])) <$> stray pairs
  ∧ (∀ l, st.2 !! l
          = if decide (l ∈ pairs.*2) then reset <$> σ0 !! l else σ0 !! l).

End PreloadTargets.

Arguments refvalue : clear implicits.
Arguments slot : clear implicits.
Arguments preloadTarget : clear implicits.
Arguments addrmap _ {_ _}.

(** Three owners for examples: the first and the third refer to 7 (the third
    through a pointer), the second has a nil reference; their slots are at
    0, 1 and 2 and can be set.  Their keys are integers, which can be hashed
    and are equal to themselves. *)
Definition three_owners : list (preloadTarget nat) :=
  [mkPreloadTarget (λ _, Some (RefValue true 7)) 0 true;
   mkPreloadTarget (λ _, Some RefNil) 1 true;
   mkPreloadTarget (λ _, Some (RefPtr true 7)) 2 true].

Definition three_slots : gmap loc (slot unit) :=
  <[0 := SlotSlice [()]]> (<[1 := SlotSlice [()]]> (<[2 := SlotPtr None]> ∅)).

Definition every_key : nat → bool := λ _, true.

(** Two owners whose reference is a floating-point number, [None] standing
    for a NaN: the first refers to a NaN, the second to a number. *)
Definition float_owners : list (preloadTarget (option nat)) :=
  [mkPreloadTarget (λ _, Some (RefValue true None)) 0 true;
   mkPreloadTarget (λ _, Some (RefValue true (Some 7))) 2 true].

Definition float_self_equal (id : option nat) : bool :=
  match id with
  | Some _ => true
  | None => false
  end.

(** * Part I (continued). The error translator ([query.go]) *)

Section ErrorTranslator.

(** The packages [errors] and [changeset] are imported by the file; what it
    uses of them is kept abstract: the domain error type, its constructor
    [NewUnexpected], the change sets, their registry of constraints and its
    method [GetError] are parameters. *)
Context {Error Changeset Constraints : Type}.

(** A non-nil value of the interface [error]: a domain error (the type
    assertion [err.(errors.Error)] succeeds) or some other error, of which
    only the message [err.Error()] is used. *)
Inductive error : Type :=
| error_domain (e : Error)
| error_other (message : string).

Context (NewUnexpected : string → Error).
Context (Changeset_Constraints : Changeset → Constraints).
Context (Constraints_GetError : Constraints → Error → option error).

(** [func transformError(err error, chs ...*changeset.Changeset) error]; the
    nil error is [None]. *)
Definition transformError (err : option error) (chs : list Changeset) : option error :=
  match err with
  | None => None
  | Some (error_domain e) =>
      match chs with
      | ch0 :: _ => Constraints_GetError (Changeset_Constraints ch0) e
      | [] => Some (error_domain e)
      end
  | Some (error_other message) => Some (error_domain (NewUnexpected message))
  end.

End ErrorTranslator.

Arguments error : clear implicits.

(** * Part I (continued). The primary key ([primary_key.go]) *)

(** A value passed as [interface{}], with what the type assertion
    [record.(primaryKey)] finds: the method [PrimaryKey] of its dynamic type,
    when it has one. *)
Record object (T : Type) : Type := mkObject {
  object_value : T;
  object_PrimaryKey : option (T → string * any)
}.

Arguments mkObject {T} _ _.
Arguments object_value {T} _.
Arguments object_PrimaryKey {T} _.

(** [func getPrimaryKey(record interface{}, withValue bool) (string, interface{})] *)
Definition getPrimaryKey {T} (record : object T) (withValue : bool) : string * any :=
  match object_PrimaryKey record with
  | Some PrimaryKey => PrimaryKey (object_value record)
  | None =>
      let value := 0%Z in
      let value := if withValue then value else value in
      ("id", VInt value)
  end.

(** * Part I (continued). Further notions for the change log *)

Section ChangeLogRuns.

Context {constraints : Type} `{!Inhabited constraints}.

(** A sequence of operations applied to a log, one after the other. *)
Fixpoint apply_ops (c : Changes constraints) (os : list op) : option (Changes constraints) :=
  match os with
  | [] => Some c
  | o :: rest =>
      match apply_op c o with
      | Some c' => apply_ops c' rest
      | None => None
      end
  end.

End ChangeLogRuns.

(** * Part I (continued). Further notions for the query descriptor *)

Section QueryChains.

Context {Order : Type}.

(** A chain of builder calls, each applied to the descriptor the one before
    returned: [q.m1(...).m2(...)...]. *)
Fixpoint calls (σ : store Order) (query : Query) (bs : list (builder Order))
  : option (Query * store Order) :=
  match bs with
  | [] => Some (query, σ)
  | b :: rest =>
      match call σ query b with
      | Some (query', σ') => calls σ' query' rest
      | None => None
      end
  end.

(** The slice [d] of a derived descriptor does not reach below the length of
    the slice [q] of the descriptor it comes from: both fit the store, and
    when they share their array [d] is at least as long as [q]. *)
Definition slice_extends {A} (arrays : gmap loc (list A)) (q d : slice) : Prop :=
  slice_ok arrays q ∧ slice_ok arrays d
  ∧ (slice_ptr d = slice_ptr q → slice_len q ≤ slice_len d).

(** The descriptor [d] derives from [q]: its two slices extend those of
    [q]. *)
Definition derives (σ : store Order) (q d : Query) : Prop :=
  slice_extends (store_joins σ) (Query_JoinClause q) (Query_JoinClause d)
  ∧ slice_extends (store_orders σ) (Query_OrderClause q) (Query_OrderClause d).

End QueryChains.

(** A descriptor whose order slice shows one order, 10, and has room for a
    second one, with the store that holds its array; orders are numbers
    here. *)
Definition roomy_query : Query :=
  mkQuery None "posts" [] "" "" false slice_nil CondNone [] CondNone
          (mkSlice (Some 0) 1 2) 0 0 "" None.

Definition roomy_store : store nat := mkStore ∅ (<[0 := [10; 0]]> ∅) ∅.

(** * Part I (continued). The helpers of insert and update ([query.go]) *)

(** A [range] over a map yields each of its entries once, in an order the
    language leaves open: [entries] is such a sequence for the map [m]. *)
Definition ranges_over {V} (m : gmap string V) (entries : list (string * V)) : Prop :=
  entries ≡ₚ map_to_list m.

(** [v == nil] for a value held in an [interface{}]. *)
Definition is_nil (v : any) : bool :=
  match v with
  | VNil => true
  | _ => false
  end.

(** The map [out] that is passed to a helper, a value of type
    [map[string]interface{}]: the nil map, or a map, into which the helper
    writes. *)
Inductive strmap : Type :=
| strmap_nil
| strmap_of (entries : gmap string any).

(** [out[k] = v]: an assignment to an entry of a nil map panics. *)
Definition strmap_set (out : strmap) (k : string) (v : any) : option strmap :=
  match out with
  | strmap_nil => None
  | strmap_of entries => Some (strmap_of (<[k := v]> entries))
  end.

(** [func cloneQuery(out map[string]interface{}, changes map[string]interface{})],
    the map [changes] given by the entries its [range] yields (none for a
    nil map); the result is the map [out] after the call, [None] when the
    call panics. *)
Definition cloneQuery (out : strmap) (changes : list (string * any))
  : option strmap :=
  foldl (λ out kv, out ≫= λ m, strmap_set m kv.1 kv.2) (Some out) changes.

Section InsertHelpers.

(** [T] stands for [reflect.Type], compared with [==]; a nil [reflect.Type]
    is [None].  [TypeOf] is [reflect.TypeOf] on a value that is not nil,
    [Scannable] is [internal.Scannable] of the package, [time_Time] is
    [reflect.TypeOf(time.Time{})]. *)
Context {T : Type} `{!EqDecision T}.
Context (TypeOf : any → T) (Scannable : option T → bool) (time_Time : T).

(** [func cloneChangeset(out map[string]interface{}, changes
    map[string]interface{})], the map [changes] given by the entries its
    [range] yields. *)
Definition cloneChangeset (out : strmap) (changes : list (string * any))
  : option strmap :=
  foldl (λ out kv,
           out ≫= λ m,
             if is_nil kv.2 || negb (Scannable (Some (TypeOf kv.2))) then Some m
             else strmap_set m kv.1 kv.2)
        (Some out) changes.

(** [func putTimestamp(out map[string]interface{}, field string, types
    map[string]reflect.Type)]; [now] is the value of
    [time.Now().Round(time.Second)] at the call. *)
Definition putTimestamp (now : any) (out : strmap) (field : string)
    (types : gmap string T) : option strmap :=
  match types !! field with
  | Some typ =>
      if decide (typ = time_Time) then strmap_set out field now else Some out
  | None => Some out
  end.

(** What [getFields] reads of a [*changeset.Changeset]: the maps its methods
    [Changes()] and [Types()] return. *)
Record Changeset : Type := mkChangeset {
  Changeset_Changes : gmap string any;
  Changeset_Types : gmap string T
}.

(** The inner loop of [getFields] for the field [f]: whether it appends [f].
    The first change set that has a change of [f] decides, by the type it
    declares for [f] (nil when it declares none). *)
Fixpoint getFields_inner (f : string) (chs : list Changeset) : bool :=
  match chs with
  | [] => false
  | ch :: rest =>
      match Changeset_Changes ch !! f with
      | Some _ => Scannable (Changeset_Types ch !! f)
      | None => getFields_inner f rest
      end
  end.

(** [func getFields(chs []*changeset.Changeset) []string]; [order] is the
    sequence of keys the [range] over [chs[0].Types()] yields.  Indexing an
    empty [chs] panics. *)
Definition getFields (order : list string) (chs : list Changeset) : option (list string) :=
  match chs with
  | [] => None
  | _ :: _ =>
      Some (foldl (λ fields f,
                     if bool_decide (f = "created_at") || bool_decide (f = "updated_at")
                     then fields ++ [f]
                     else if getFields_inner f chs then fields ++ [f] else fields)
                  [] order)
  end.

(** The first change set of [chs] that has a change of [f] declares a
    scannable type for it. *)
Definition first_change_scannable (f : string) (chs : list Changeset) : Prop :=
  ∃ i ch, chs !! i = Some ch
          ∧ is_Some (Changeset_Changes ch !! f)
          ∧ (∀ j ch', j < i → chs !! j = Some ch' → Changeset_Changes ch' !! f = None)
          ∧ Scannable (Changeset_Types ch !! f) = true.

End InsertHelpers.

Arguments Changeset : clear implicits.

(** An instance of the parameters for the examples: types by name, with the
    scalar types and [time.Time] scannable. *)
Definition named_TypeOf (v : any) : string :=
  match v with
  | VBool _ => "bool"
  | VInt _ => "int"
  | VStr _ => "string"
  | _ => "[]interface {}"
  end.

Definition named_Scannable (t : option string) : bool :=
  match t with
  | Some n => bool_decide (n ∈ ["bool"; "int"; "string"; "time.Time"])
  | None => false
  end.

(** Two more record types for examples: a customer whose addresses refer to
    his code, the relation declaring both the reference and the foreign key. *)
Definition Address_type : rtype :=
  TStruct "Address"
    [mkStructField "ID" (TBasic reflect_Int "int") [] [0%Z];
     mkStructField "CustomerID" (TBasic reflect_Int "int") [] [1%Z];
     mkStructField "OwnerCode" (TBasic reflect_String "string") [] [2%Z]].

Definition Customer_type : rtype :=
  TStruct "Customer"
    [mkStructField "ID" (TBasic reflect_Int "int") [] [0%Z];
     mkStructField "Code" (TBasic reflect_String "string") [] [1%Z];
     mkStructField "Addresses" (TSlice Address_type)
       [("references", "Code"); ("foreign_key", "OwnerCode")] [2%Z]].

(** [func must(err error)]: panics exactly when the error is not nil. *)
Definition must {E} (err : option E) : option unit :=
  match err with
  | Some _ => None
  | None => Some ()
  end.

(** * Part I (continued). The traversal of the preload targets ([query.go]) *)

(** What [traversePreloadTarget] sees of a [reflect.Value] by reflection: a
    struct with the fields [FieldByName] finds, a pointer (nil or to a
    value), a slice, an array, or a value of another kind (a number, a
    string, a map, an interface, ...). *)
Inductive gvalue : Type :=
| GOther
| GStruct (fields : list (string * gvalue))
| GPtr (target : option gvalue)
| GSlice (elems : list gvalue)
| GArray (elems : list gvalue).

(** [Value.Kind()] of a valid value, [GOther] standing for the kinds the
    function does not tell apart. *)
Definition gvalue_Kind (v : gvalue) : option Kind :=
  match v with
  | GOther => None
  | GStruct _ => Some reflect_Struct
  | GPtr _ => Some reflect_Ptr
  | GSlice _ => Some reflect_Slice
  | GArray _ => Some reflect_Array
  end.

(** A [reflect.Value] obtained from the record passed in refers to a part of
    it: it is given by the calls that lead there, [Index(i)],
    [FieldByName(name)] and [Elem()]. *)
Inductive step : Type :=
| SIndex (i : nat)
| SField (name : string)
| SElem.

Global Instance step_eq_dec : EqDecision step.
Proof. solve_decision. Defined.

Abbreviation place := (list step) (only parsing).

(** The value at a place of [v], if the calls succeed. *)
Definition gvalue_field (fields : list (string * gvalue)) (name : string)
  : option gvalue :=
  snd <$> find (λ nf, bool_decide (nf.1 = name)) fields.

Fixpoint gvalue_at (v : gvalue) (p : place) : option gvalue :=
  match p with
  | [] => Some v
  | s :: p' =>
      match s, v with
      | SIndex i, (GSlice elems | GArray elems) =>
          match elems !! i with
          | Some e => gvalue_at e p'
          | None => None
          end
      | SField name, GStruct fields =>
          match gvalue_field fields name with
          | Some fv => gvalue_at fv p'
          | None => None
          end
      | SElem, GPtr (Some target) => gvalue_at target p'
      | _, _ => None
      end
  end.

(** The [preloadTarget] values that [traversePreloadTarget] builds: the
    places of the owner ([schema]) and of the relation ([field]). *)
Record target : Type := mkTarget {
  target_schema : place;
  target_field : place
}.

(** The loop [for i := 0; i < rv.Len(); i++] over the elements from index
    [i] on, [visit i e] being what the body appends for [rv.Index(i)]. *)
Definition traverse_elems (visit : nat → gvalue → option (list target))
  : nat → list gvalue → option (list target) :=
  fix loop (i : nat) (elems : list gvalue) : option (list target) :=
    match elems with
    | [] => Some []
    | e :: elems' =>
        match visit i e with
        | Some r =>
            match loop (S i) elems' with
            | Some rs => Some (r ++ rs)
            | None => None
            end
        | None => None
        end
    end.

(** [fv := rv.FieldByName(name)] on a struct, followed by [forward fv];
    [None] when there is no such field ([!fv.IsValid()], a panic). *)
Definition with_field {A} (name : string) (forward : gvalue → option A)
  : list (string * gvalue) → option A :=
  fix look (fields : list (string * gvalue)) : option A :=
    match fields with
    | [] => None
    | nf :: fields' =>
        if bool_decide (nf.1 = name) then forward nf.2 else look fields'
    end.

(** [func traversePreloadTarget(rv reflect.Value, path []string)
    []preloadTarget], with the place [pos] of [rv].  [FieldByName] panics on
    a value that is not a struct, [path[0]] on an empty path. *)
Fixpoint traversePreloadTarget (pos : place) (rv : gvalue) (path : list string)
  : option (list target) :=
  match rv with
  | GSlice elems | GArray elems =>
      traverse_elems
        (λ i e, traversePreloadTarget (pos ++ [SIndex i]) e path) 0 elems
  | GStruct fields =>
      match path with
      | [] => None
      | name :: rest =>
          with_field name
            (λ fv,
               match fv with
               | GStruct _ | GSlice _ =>
                   match rest with
                   | [] => Some [mkTarget pos (pos ++ [SField name])]
                   | _ :: _ =>
                       traversePreloadTarget (pos ++ [SField name]) fv rest
                   end
               | GPtr target =>
                   match rest with
                   | [] => Some [mkTarget pos (pos ++ [SField name])]
                   | _ :: _ =>
                       match target with
                       | None => Some []
                       | Some v =>
                           traversePreloadTarget
                             (pos ++ [SField name; SElem]) v rest
                       end
                   end
               | GArray _ | GOther => None
               end)
            fields
      end
  | GPtr _ | GOther => None
  end.

(** *** Notions used to state the properties of the traversal *)

(** The kinds a relation field may have. *)
Definition relation_kind (fv : gvalue) : Prop :=
  gvalue_Kind fv = Some reflect_Struct
  ∨ gvalue_Kind fv = Some reflect_Slice
  ∨ gvalue_Kind fv = Some reflect_Ptr.

(** The targets [ts] are structs found in [rv], which is at [pos], each with
    its field named by the last segment of [path]. *)
Definition well_placed (rv : gvalue) (pos : place) (path : list string)
    (ts : list target) : Prop :=
  ∀ t, t ∈ ts →
    ∃ rel name fields fv,
      target_schema t = pos ++ rel
      ∧ target_field t = target_schema t ++ [SField name]
      ∧ last path = Some name
      ∧ gvalue_at rv rel = Some (GStruct fields)
      ∧ gvalue_field fields name = Some fv
      ∧ relation_kind fv.

(** A slice of two users for examples, the first with two transactions, the
    second with none; and the same users held by pointers. *)
Definition a_transaction : gvalue :=
  GStruct [("ID", GOther); ("UserID", GOther); ("Buyer", GPtr None)].

Definition two_users : gvalue :=
  GSlice [GStruct [("ID", GOther);
                   ("Transactions", GSlice [a_transaction; a_transaction])];
          GStruct [("ID", GOther); ("Transactions", GSlice [])]].

(** * Part II. Properties *)

(** ** The change log *)

Section ChangeLogTheory.

Context {constraints : Type} `{!Inhabited constraints}.
Implicit Types (c : Changes constraints) (ch : Change) (f : string).

(** *** Indexing by an [int] *)

Lemma index_Some {A} (s : list A) i x :
  index s i = Some x ↔ (0 ≤ i)%Z ∧ s !! Z.to_nat i = Some x.
Proof. unfold index. case_decide; [tauto|]. split; [done|tauto]. Qed.

Lemma index_in_range {A} (s : list A) i x :
  index s i = Some x → (0 ≤ i < len s)%Z.
Proof. intros [Hi Hx%lookup_lt_Some]%index_Some. unfold len. lia. Qed.

Lemma index_is_Some {A} (s : list A) i :
  (0 ≤ i < len s)%Z → is_Some (index s i).
Proof.
  intros [Hi Hlt]. unfold index, len in *. rewrite decide_True by done.
  apply lookup_lt_is_Some_2. lia.
Qed.

Lemma index_of_nat {A} (s : list A) (n : nat) : index s (Z.of_nat n) = s !! n.
Proof. unfold index. rewrite decide_True by lia. by rewrite Nat2Z.id. Qed.

Lemma index_insert {A} (s : list A) i x y :
  index s i = Some y → index (<[Z.to_nat i := x]> s) i = Some x.
Proof.
  intros [Hi Hy%lookup_lt_Some]%index_Some. apply index_Some.
  split; [done|]. by apply list_lookup_insert_eq.
Qed.

Lemma index_len_snoc {A} (s : list A) x : index (s ++ [x]) (len s) = Some x.
Proof. unfold len. by rewrite index_of_nat, lookup_app_r, Nat.sub_diag. Qed.

(** *** [Set] keeps the index and the sequence in sync *)

Lemma Changes_Set_in_sync c ch c' :
  fields_in_sync c → changes_indexed c → Changes_Set c ch = Some c' →
  fields_in_sync c' ∧ changes_indexed c'.
Proof.
  intros Hs Hi. unfold Changes_Set.
  destruct (Changes_Fields c !! Change_Field ch) as [i|] eqn:Hf.
  - destruct (Hs _ _ Hf) as (old & Hold & Hfold). rewrite Hold. intros [= <-].
    apply index_Some in Hold as [Hi0 Hold].
    pose proof (lookup_lt_Some _ _ _ Hold) as Hlt.
    split.
    + intros g j Hg; simpl in *.
      destruct (Hs _ _ Hg) as (x & Hx & Hfx).
      apply index_Some in Hx as [Hj0 Hx].
      destruct (decide (Z.to_nat i = Z.to_nat j)) as [Heq|Hne].
      * exists ch. split.
        -- apply index_Some. split; [done|].
           rewrite <- Heq. by apply list_lookup_insert_eq.
        -- rewrite <- Heq in Hx. congruence.
      * exists x. split; [|done]. apply index_Some. split; [done|].
        by rewrite list_lookup_insert_ne.
    + intros n x; simpl.
      destruct (decide (Z.to_nat i = n)) as [<-|Hne].
      * rewrite list_lookup_insert_eq by done. intros [= <-].
        rewrite Hf. f_equal. lia.
      * rewrite list_lookup_insert_ne by done. apply Hi.
  - intros [= <-]. split.
    + intros g j; simpl.
      destruct (decide (g = Change_Field ch)) as [->|Hne].
      * rewrite lookup_insert_eq. intros [= <-]. exists ch.
        split; [apply index_len_snoc|done].
      * rewrite lookup_insert_ne by done. intros Hg.
        destruct (Hs _ _ Hg) as (x & Hx & <-). exists x.
        split; [|done]. apply index_Some in Hx as [Hj0 Hx].
        apply index_Some. split; [done|].
        rewrite lookup_app_l; [done|by eapply lookup_lt_Some].
    + intros n x; simpl. intros Hx.
      apply lookup_app_Some in Hx as [Hx|[Hge Hx]].
      * specialize (Hi _ _ Hx).
        rewrite lookup_insert_ne; [done|congruence].
      * apply list_lookup_singleton_Some in Hx as [Hj <-].
        rewrite lookup_insert_eq. unfold len. f_equal. lia.
Qed.

Lemma Changes_Set_no_panic c ch :
  fields_in_sync c → is_Some (Changes_Set c ch).
Proof.
  intros Hs. unfold Changes_Set.
  destruct (Changes_Fields c !! Change_Field ch) as [i|] eqn:Hf; [|by eexists].
  destruct (Hs _ _ Hf) as (old & -> & _). by eexists.
Qed.

(** *** Lists of names without repetition *)

Lemma filter_none {A} (P : A → Prop) `{!∀ x, Decision (P x)} (l : list A) :
  (∀ x, x ∈ l → ¬ P x) → filter P l = [].
Proof.
  induction l as [|a l IH]; intros Hl; [done|].
  rewrite filter_cons_False by (apply Hl; left).
  apply IH. intros x Hx. apply Hl. by right.
Qed.

Lemma filter_all {A} (P : A → Prop) `{!∀ x, Decision (P x)} (l : list A) :
  (∀ x, x ∈ l → P x) → filter P l = l.
Proof.
  induction l as [|a l IH]; intros Hl; [done|].
  rewrite filter_cons_True by (apply Hl; left).
  f_equal. apply IH. intros x Hx. apply Hl. by right.
Qed.

Lemma elem_of_first_occurrences {A} `{!EqDecision A} (l : list A) x :
  x ∈ first_occurrences l ↔ x ∈ l.
Proof.
  induction l as [|a l IH]; simpl; [done|].
  rewrite !elem_of_cons, list_elem_of_filter, IH.
  destruct (decide (x = a)); tauto.
Qed.

Lemma first_occurrences_NoDup {A} `{!EqDecision A} (l : list A) :
  NoDup l → first_occurrences l = l.
Proof.
  induction 1 as [|a l Ha Hl IH]; simpl; [done|].
  rewrite IH. f_equal. apply filter_all. intros x Hx ->. done.
Qed.

Lemma NoDup_first_occurrences {A} `{!EqDecision A} (l : list A) : NoDup (first_occurrences l).
Proof.
  induction l as [|a l IH]; simpl; [constructor|].
  constructor.
  - rewrite list_elem_of_filter. by intros [? _].
  - by apply NoDup_filter.
Qed.

Lemma first_occurrences_app {A} `{!EqDecision A} (a b : list A) :
  first_occurrences (a ++ b)
  = first_occurrences a ++ filter (λ y, y ∉ a) (first_occurrences b).
Proof.
  induction a as [|x a IH]; simpl.
  - symmetry. apply filter_all. intros y _. apply not_elem_of_nil.
  - f_equal. rewrite IH, filter_app. f_equal.
    rewrite list_filter_filter. apply list_filter_iff.
    intros y. rewrite not_elem_of_cons. naive_solver.
Qed.

Lemma first_occurrences_absorb {A} `{!EqDecision A} (a b : list A) :
  first_occurrences (first_occurrences a ++ b) = first_occurrences (a ++ b).
Proof.
  rewrite !first_occurrences_app.
  rewrite (first_occurrences_NoDup (first_occurrences a))
    by apply NoDup_first_occurrences.
  f_equal. apply list_filter_iff. intros y.
  by rewrite elem_of_first_occurrences.
Qed.

Lemma first_occurrences_snoc {A} `{!EqDecision A} (l : list A) x :
  first_occurrences (l ++ [x])
  = if decide (x ∈ l) then first_occurrences l else first_occurrences l ++ [x].
Proof.
  rewrite first_occurrences_app. simpl. case_decide as Hx.
  - rewrite filter_cons_False by tauto. apply app_nil_r.
  - by rewrite filter_cons_True by done.
Qed.

(** *** The fields of a log in sync *)

Lemma fields_NoDup c :
  changes_indexed c → NoDup (Change_Field <$> Changes_Changes c).
Proof.
  intros Hi. apply NoDup_alt. intros i j x.
  rewrite !list_lookup_fmap.
  destruct (Changes_Changes c !! i) as [a|] eqn:Ha; [|done].
  destruct (Changes_Changes c !! j) as [b|] eqn:Hb; [|done].
  simpl. intros [= <-] [= Hab].
  apply Hi in Ha, Hb. rewrite Hab, Ha in Hb. injection Hb as Hb. lia.
Qed.

Lemma field_known c f :
  fields_in_sync c → changes_indexed c →
  f ∈ Change_Field <$> Changes_Changes c ↔ is_Some (Changes_Fields c !! f).
Proof.
  intros Hs Hi. rewrite list_elem_of_fmap. split.
  - intros (x & -> & (i & Hx)%list_elem_of_lookup). eauto.
  - intros [i Hf]. destruct (Hs _ _ Hf) as (x & [_ Hx]%index_Some & <-).
    exists x. split; [done|]. by eapply list_elem_of_lookup_2.
Qed.

Lemma Changes_Set_fields c ch c' :
  fields_in_sync c → changes_indexed c → Changes_Set c ch = Some c' →
  Change_Field <$> Changes_Changes c'
  = first_occurrences ((Change_Field <$> Changes_Changes c) ++ [Change_Field ch]).
Proof.
  intros Hs Hi Hset.
  rewrite first_occurrences_snoc, first_occurrences_NoDup by by apply fields_NoDup.
  pose proof (field_known c (Change_Field ch) Hs Hi) as Hk.
  unfold Changes_Set in Hset.
  destruct (Changes_Fields c !! Change_Field ch) as [i|] eqn:Hf.
  - destruct (Hs _ _ Hf) as (old & Hold & Hfo). rewrite Hold in Hset.
    injection Hset as <-. simpl.
    rewrite decide_True by (apply Hk; eauto).
    apply index_Some in Hold as [_ Hold].
    rewrite list_fmap_insert. apply list_insert_id.
    by rewrite list_lookup_fmap, Hold, <- Hfo.
  - injection Hset as <-. simpl.
    rewrite decide_False; [by rewrite fmap_app|].
    rewrite Hk. by intros [? ?].
Qed.

(** *** The latest change of a field *)

Lemma filter_field_unique (l : list Change) i x :
  NoDup (Change_Field <$> l) → l !! i = Some x →
  filter (λ y, Change_Field y = Change_Field x) l = [x].
Proof.
  revert i. induction l as [|a l IH]; intros i Hnd Hx; [done|].
  apply NoDup_cons in Hnd as [Ha Hnd].
  destruct i as [|i]; simpl in Hx.
  - injection Hx as ->. rewrite filter_cons_True by done. f_equal.
    apply filter_none. intros y Hy Heq. apply Ha.
    rewrite <- Heq. apply list_elem_of_fmap. eauto.
  - rewrite filter_cons_False; [by eapply IH|].
    intros Heq. apply Ha. rewrite Heq. apply list_elem_of_fmap.
    exists x. split; [done|]. by eapply list_elem_of_lookup_2.
Qed.

Lemma filter_insert_other {A} (P : A → Prop) `{!∀ x, Decision (P x)}
      (l : list A) i old new :
  l !! i = Some old → ¬ P old → ¬ P new → filter P (<[i:=new]> l) = filter P l.
Proof.
  revert i. induction l as [|a l IH]; intros i Hold Ho Hn; [done|].
  destruct i as [|i]; simpl in *.
  - injection Hold as ->. by rewrite !filter_cons_False.
  - rewrite !filter_cons. case_decide; [f_equal|]; by eapply IH.
Qed.

Lemma last_app_congr {A} (a b t : list A) :
  last a = last b → last (a ++ t) = last (b ++ t).
Proof. intros Hab. rewrite !last_app. by rewrite Hab. Qed.

Lemma Changes_Set_latest c ch c' f :
  fields_in_sync c → changes_indexed c → Changes_Set c ch = Some c' →
  latest f (Changes_Changes c') = latest f (Changes_Changes c ++ [ch]).
Proof.
  intros Hs Hi Hset.
  destruct (Changes_Set_in_sync _ _ _ Hs Hi Hset) as [Hs' Hi'].
  pose proof (fields_NoDup _ Hi') as Hnd'.
  unfold latest. unfold Changes_Set in Hset.
  destruct (Changes_Fields c !! Change_Field ch) as [i|] eqn:Hf.
  - destruct (Hs _ _ Hf) as (old & Hold & Hfo). rewrite Hold in Hset.
    injection Hset as <-. simpl in *.
    apply index_Some in Hold as [_ Hold].
    pose proof (lookup_lt_Some _ _ _ Hold) as Hlt.
    rewrite filter_app. destruct (decide (Change_Field ch = f)) as [<-|Hne].
    + rewrite (filter_field_unique _ (Z.to_nat i) ch Hnd')
        by by apply list_lookup_insert_eq.
      rewrite filter_cons_True, filter_nil by done. by rewrite last_snoc.
    + rewrite (filter_insert_other _ _ (Z.to_nat i) old ch) by congruence.
      rewrite (filter_cons_False _ ch) by done. by rewrite app_nil_r.
  - by injection Hset as <-.
Qed.

Lemma Changes_Get_latest c f :
  fields_in_sync c → changes_indexed c →
  Changes_Get c f = Some (found (latest f (Changes_Changes c))).
Proof.
  intros Hs Hi. unfold Changes_Get, latest.
  destruct (Changes_Fields c !! f) as [i|] eqn:Hf.
  - destruct (Hs _ _ Hf) as (x & Hx & <-). rewrite Hx.
    apply index_Some in Hx as [_ Hx].
    by rewrite (filter_field_unique _ (Z.to_nat i) x (fields_NoDup _ Hi) Hx).
  - rewrite filter_none; [done|].
    intros x (i & Hx)%list_elem_of_lookup Hfx. apply Hi in Hx. congruence.
Qed.

(** *** A sequence of [Set] operations *)

Lemma set_sequence c (chs : list Change) :
  fields_in_sync c → changes_indexed c →
  ∃ c', build_all (Change_Build <$> chs) c = Some c'
        ∧ fields_in_sync c' ∧ changes_indexed c'
        ∧ Change_Field <$> Changes_Changes c'
          = first_occurrences (Change_Field <$> (Changes_Changes c ++ chs))
        ∧ ∀ f, latest f (Changes_Changes c') = latest f (Changes_Changes c ++ chs).
Proof.
  revert c. induction chs as [|ch chs IH]; intros c Hs Hi.
  - exists c. rewrite app_nil_r. repeat split; try done.
    symmetry. by apply first_occurrences_NoDup, fields_NoDup.
  - destruct (Changes_Set_no_panic c ch Hs) as [c1 Hset].
    destruct (Changes_Set_in_sync _ _ _ Hs Hi Hset) as [Hs1 Hi1].
    destruct (IH c1 Hs1 Hi1) as (c' & Hrun & Hs' & Hi' & Hfields & Hlatest).
    exists c'. simpl. rewrite Hset. repeat split; try done.
    + rewrite Hfields, !fmap_app, (Changes_Set_fields _ _ _ Hs Hi Hset).
      rewrite first_occurrences_absorb. by rewrite <- app_assoc.
    + intros f. rewrite Hlatest. unfold latest.
      rewrite (cons_middle ch), app_assoc, !(filter_app _ _ chs).
      apply last_app_congr. apply (Changes_Set_latest _ _ _ f Hs Hi Hset).
Qed.


(** *** Operations on associations *)

Lemma Changes_Set_assoc c ch c' :
  Changes_Set c ch = Some c' →
  Changes_Assoc c' = Changes_Assoc c
  ∧ Changes_AssocChanges c' = Changes_AssocChanges c.
Proof.
  unfold Changes_Set. intros Hset.
  destruct (Changes_Fields c !! Change_Field ch) as [i|];
    [destruct (index (Changes_Changes c) i)|]; by simplify_eq.
Qed.

Lemma appendAssoc_in_sync c f ac :
  assoc_in_sync c → assoc_in_sync (Changes_appendAssoc c f ac).
Proof.
  intros Ha g i. simpl. unfold len. rewrite length_app. simpl.
  destruct (decide (f = g)) as [->|Hne].
  - rewrite lookup_insert_eq. intros [= <-]. lia.
  - rewrite lookup_insert_ne by done. intros Hg%Ha. unfold len in Hg. lia.
Qed.

Lemma Changes_SetAssoc_spec c f chs :
  assoc_in_sync c →
  ∃ c', Changes_SetAssoc c f chs = Some c'
        ∧ assoc_in_sync c'
        ∧ Changes_Fields c' = Changes_Fields c
        ∧ Changes_Changes c' = Changes_Changes c.
Proof.
  intros Ha. unfold Changes_SetAssoc.
  destruct (Changes_Assoc c !! f) as [i|] eqn:Hf.
  - destruct (index_is_Some _ _ (Ha _ _ Hf)) as [ac ->].
    eexists. split; [reflexivity|]. split; [|done].
    intros g j. simpl. unfold len. rewrite length_insert. apply Ha.
  - eexists. split; [reflexivity|]. split; [|done].
    by apply appendAssoc_in_sync.
Qed.

Lemma Changes_SetStaleAssoc_spec c f ids :
  assoc_in_sync c →
  ∃ c', Changes_SetStaleAssoc c f ids = Some c'
        ∧ assoc_in_sync c'
        ∧ Changes_Fields c' = Changes_Fields c
        ∧ Changes_Changes c' = Changes_Changes c.
Proof.
  intros Ha. unfold Changes_SetStaleAssoc.
  destruct (Changes_Assoc c !! f) as [i|] eqn:Hf.
  - destruct (index_is_Some _ _ (Ha _ _ Hf)) as [ac ->].
    eexists. split; [reflexivity|]. split; [|done].
    intros g j. simpl. unfold len. rewrite length_insert. apply Ha.
  - eexists. split; [reflexivity|]. split; [|done].
    by apply appendAssoc_in_sync.
Qed.

(** The three invariants hold of every reachable log. *)
Lemma reachable_invariants c :
  reachable c → fields_in_sync c ∧ changes_indexed c ∧ assoc_in_sync c.
Proof.
  induction 1 as [c Hfresh|c o c' _ (Hs & Hi & Ha) Hop].
  - injection Hfresh as <-. split; [|split].
    + intros f i. simpl. by rewrite lookup_empty.
    + intros i ch. simpl. by rewrite lookup_nil.
    + intros f i. simpl. by rewrite lookup_empty.
  - destruct o as [ch|f chs|f ids]; simpl in Hop.
    + destruct (Changes_Set_in_sync _ _ _ Hs Hi Hop) as [Hs' Hi'].
      destruct (Changes_Set_assoc _ _ _ Hop) as [Heq1 Heq2].
      split; [done|]. split; [done|].
      intros f i. rewrite Heq1, Heq2. apply Ha.
    + destruct (Changes_SetAssoc_spec c f chs Ha) as (c2 & Hc2 & Ha' & Hf & Hc).
      rewrite Hop in Hc2. injection Hc2 as <-.
      unfold fields_in_sync, changes_indexed. rewrite Hf, Hc. done.
    + destruct (Changes_SetStaleAssoc_spec c f ids Ha) as (c2 & Hc2 & Ha' & Hf & Hc).
      rewrite Hop in Hc2. injection Hc2 as <-.
      unfold fields_in_sync, changes_indexed. rewrite Hf, Hc. done.
Qed.

(** No operation panics on a reachable log: every interleaving runs. *)
Lemma reachable_no_panic c o : reachable c → is_Some (apply_op c o).
Proof.
  intros (Hs & Hi & Ha)%reachable_invariants.
  destruct o as [ch|f chs|f ids]; simpl.
  - by apply Changes_Set_no_panic.
  - destruct (Changes_SetAssoc_spec c f chs Ha) as (c' & -> & _). by eexists.
  - destruct (Changes_SetStaleAssoc_spec c f ids Ha) as (c' & -> & _). by eexists.
Qed.

(** C1.  On a log made by [BuildChanges] and the operations of the log (the
    zero value [Changes{}] is not one: its maps are nil and [Set] panics on
    it): a [Set] of a field that is already present succeeds, leaves the
    index alone and overwrites the change at the position the field already
    has, so that the fields of the sequence are the same at the same
    positions; after any sequence of [Set] operations the fields of the
    sequence are those of the log followed by those of the operations, each
    at its first occurrence, and [Get] answers for each field the latest
    change of that field; and the log built from [Set("name","Ann")],
    [Inc("age")], [Set("name","Bob")] is the two entries name=Bob, age
    incremented by 1. *)
Theorem Changes_Set_keeps_insertion_order c :
  reachable c →
  (∀ ch i,
     Changes_Fields c !! Change_Field ch = Some i →
     ∃ c', Changes_Set c ch = Some c'
           ∧ Changes_Fields c' = Changes_Fields c
           ∧ Changes_Changes c' = <[Z.to_nat i := ch]> (Changes_Changes c)
           ∧ index (Changes_Changes c') i = Some ch
           ∧ len (Changes_Changes c') = len (Changes_Changes c)
           ∧ Change_Field <$> Changes_Changes c' = Change_Field <$> Changes_Changes c)
  ∧ (∀ chs : list Change,
     ∃ c', build_all (Change_Build <$> chs) c = Some c'
           ∧ Change_Field <$> Changes_Changes c'
             = first_occurrences (Change_Field <$> (Changes_Changes c ++ chs))
           ∧ ∀ f, Changes_Get c' f
                  = Some (found (latest f (Changes_Changes c ++ chs))))
  ∧ Changes_Changes <$>
      BuildChanges (constraints := constraints)
        [Change_Build (Set' "name" (VStr "Ann")); Change_Build (Inc "age");
         Change_Build (Set' "name" (VStr "Bob"))]
    = Some [mkChange ChangeSetOp "name" (VStr "Bob");
            mkChange ChangeIncOp "age" (VInt 1)].
Proof.
  intros (Hs & Hi & _)%reachable_invariants. split; [|split].
  - intros ch i Hf.
    destruct (Hs _ _ Hf) as (old & Hold & Hfo).
    unfold Changes_Set. rewrite Hf, Hold.
    eexists. split; [reflexivity|]. simpl.
    split; [done|]. split; [done|]. split; [by eapply index_insert|].
    split; [unfold len; by rewrite length_insert|].
    apply index_Some in Hold as [_ Hold].
    rewrite list_fmap_insert. apply list_insert_id.
    by rewrite list_lookup_fmap, Hold, <- Hfo.
  - intros chs.
    destruct (set_sequence c chs Hs Hi) as (c' & Hrun & Hs' & Hi' & Hfields & Hlatest).
    exists c'. repeat split; try done.
    intros f. by rewrite Changes_Get_latest, Hlatest.
  - reflexivity.
Qed.

(** C2.  In every log reachable from a freshly built one by [Set],
    [SetAssoc] and [SetStaleAssoc] in any order, every key of [Fields] is a
    position of [Changes] whose change has that key as its field, and every
    key of [Assoc] is a position of [AssocChanges]. *)
Theorem reachable_index_in_sync c :
  reachable c →
  (∀ f i, Changes_Fields c !! f = Some i →
          (0 ≤ i < len (Changes_Changes c))%Z
          ∧ ∃ ch, index (Changes_Changes c) i = Some ch ∧ Change_Field ch = f)
  ∧ (∀ f i, Changes_Assoc c !! f = Some i →
            (0 ≤ i < len (Changes_AssocChanges c))%Z
            ∧ is_Some (index (Changes_AssocChanges c) i)).
Proof.
  intros (Hs & Hi & Ha)%reachable_invariants. split.
  - intros f i Hf. destruct (Hs _ _ Hf) as (ch & Hch & Hfield).
    split; [by eapply index_in_range|eauto].
  - intros f i Hf. specialize (Ha _ _ Hf).
    split; [done|by apply index_is_Some].
Qed.

(** C9.  On a log made by [BuildChanges] and the operations of the log (the
    zero value [Changes{}] is not one: its maps are nil and [SetStaleAssoc]
    panics on it), [SetStaleAssoc] followed by [GetAssoc] of the same field
    finds the association and its [StaleIDs] is the sequence that was
    passed: nil ([None]) is read back nil, an empty sequence ([Some []]) is
    read back empty and not nil. *)
Theorem SetStaleAssoc_GetAssoc c f ids :
  reachable c →
  ∃ c' ac,
    Changes_SetStaleAssoc c f ids = Some c'
    ∧ Changes_GetAssoc c' f = Some (ac, true)
    ∧ AssocChanges_StaleIDs ac = ids
    ∧ (ids = None → AssocChanges_StaleIDs ac = None)
    ∧ (ids = Some [] → AssocChanges_StaleIDs ac = Some []).
Proof.
  intros (_ & _ & Ha)%reachable_invariants.
  unfold Changes_SetStaleAssoc, Changes_GetAssoc.
  destruct (Changes_Assoc c !! f) as [i|] eqn:Hf.
  - destruct (index_is_Some _ _ (Ha _ _ Hf)) as [ac Hac]. rewrite Hac.
    eexists _, _. split; [reflexivity|]. simpl.
    rewrite Hf, (index_insert _ _ _ _ Hac).
    split; [reflexivity|]. simpl. by repeat split; intros ->.
  - eexists _, _. split; [reflexivity|]. simpl.
    rewrite lookup_insert_eq, index_len_snoc.
    split; [reflexivity|]. simpl. by repeat split; intros ->.
Qed.

End ChangeLogTheory.

(** The theorem of C1 at the empty log and the operations a=1, b=2, a=3. *)
Lemma Changes_Set_keeps_insertion_order_witness :
  reachable empty_log
  ∧ ∃ c', build_all (Change_Build <$>
                       [Set' "a" (VInt 1); Set' "b" (VInt 2); Set' "a" (VInt 3)])
                    empty_log = Some c'
          ∧ Change_Field <$> Changes_Changes c' = ["a"; "b"]
          ∧ Changes_Get c' "a" = Some (Set' "a" (VInt 3), true).
Proof.
  assert (Hr : reachable empty_log) by (by apply reachable_fresh).
  split; [exact Hr|].
  destruct (Changes_Set_keeps_insertion_order empty_log Hr) as (_ & Hseq & _).
  destruct (Hseq [Set' "a" (VInt 1); Set' "b" (VInt 2); Set' "a" (VInt 3)])
    as (c' & Hrun & Hfields & Hget).
  exists c'. split; [exact Hrun|]. split.
  - rewrite Hfields. reflexivity.
  - rewrite Hget. reflexivity.
Defined.

(** The theorem of C2 at the log reached by one [Set]. *)
Lemma reachable_index_in_sync_witness :
  ∃ c : Changes unit,
    apply_op empty_log (OpSet (Set' "name" (VStr "Ann"))) = Some c
    ∧ reachable c
    ∧ (∀ f i, Changes_Fields c !! f = Some i →
              (0 ≤ i < len (Changes_Changes c))%Z
              ∧ ∃ ch, index (Changes_Changes c) i = Some ch ∧ Change_Field ch = f)
    ∧ (∀ f i, Changes_Assoc c !! f = Some i →
              (0 ≤ i < len (Changes_AssocChanges c))%Z
              ∧ is_Some (index (Changes_AssocChanges c) i)).
Proof.
  eexists. split; [reflexivity|].
  match goal with |- reachable ?c ∧ _ => assert (Hr : reachable c) end.
  { apply (reachable_step empty_log (OpSet (Set' "name" (VStr "Ann"))));
      [apply reachable_fresh|]; reflexivity. }
  split; [exact Hr|]. exact (reachable_index_in_sync _ Hr).
Defined.

(** The theorem of C9 at the empty log, the field "tags" and the nil
    sequence. *)
Lemma SetStaleAssoc_GetAssoc_witness :
  reachable empty_log
  ∧ ∃ c' ac, Changes_SetStaleAssoc empty_log "tags" None = Some c'
             ∧ Changes_GetAssoc c' "tags" = Some (ac, true)
             ∧ AssocChanges_StaleIDs ac = None.
Proof.
  assert (Hr : reachable empty_log) by (by apply reachable_fresh).
  split; [exact Hr|].
  destruct (SetStaleAssoc_GetAssoc empty_log "tags" None Hr)
    as (c' & ac & Hset & Hget & Hids & _).
  exists c', ac. split; [exact Hset|]. split; [exact Hget|exact Hids].
Defined.

(** ** The query descriptor *)

(** *** [strings.TrimSuffix] *)

Lemma substring_whole_prefix (y t : string) :
  String.substring 0 (String.length y) (y +:+ t) = y.
Proof. induction y as [|a y IH]; simpl; [by destruct t|by rewrite IH]. Qed.

Lemma substring_whole (t : string) :
  String.substring 0 (String.length t) t = t.
Proof. induction t as [|b t IH]; simpl; [done|by rewrite IH]. Qed.

Lemma substring_skip_prefix (y t : string) :
  String.substring (String.length y) (String.length t) (y +:+ t) = t.
Proof. induction y as [|a y IH]; simpl; [apply substring_whole|done]. Qed.

Lemma string_length_app (y t : string) :
  String.length (y +:+ t) = String.length y + String.length t.
Proof. induction y as [|a y IH]; simpl; [done|by rewrite IH]. Qed.

Lemma TrimSuffix_suffix (y suffix : string) :
  TrimSuffix (y +:+ suffix) suffix = y.
Proof.
  unfold TrimSuffix, HasSuffix. rewrite string_length_app.
  replace (String.length y + String.length suffix - String.length suffix)
    with (String.length y) by lia.
  rewrite substring_skip_prefix, String.eqb_refl, substring_whole_prefix.
  by rewrite (proj2 (Nat.leb_le _ _)) by lia.
Qed.

Lemma TrimSuffix_other (y suffix : string) :
  HasSuffix y suffix = false → TrimSuffix y suffix = y.
Proof. unfold TrimSuffix. by intros ->. Qed.

Lemma HasSuffix_app (y suffix : string) : HasSuffix (y +:+ suffix) suffix = true.
Proof.
  unfold HasSuffix. rewrite string_length_app.
  replace (String.length y + String.length suffix - String.length suffix)
    with (String.length y) by lia.
  rewrite substring_skip_prefix, String.eqb_refl.
  by rewrite (proj2 (Nat.leb_le _ _)) by lia.
Qed.

Lemma substring_split (s : string) :
  ∀ n, n ≤ String.length s →
       String.substring 0 n s +:+ String.substring n (String.length s - n) s = s.
Proof.
  induction s as [|a s IH]; intros [|n] Hn; simpl in *; try done; try lia.
  - by rewrite substring_whole.
  - change (String a (String.substring 0 n s
                      +:+ String.substring n (String.length s - n) s)
            = String a s).
    by rewrite IH by lia.
Qed.

(** A string that has the suffix is some string followed by it. *)
Lemma HasSuffix_split (s suffix : string) :
  HasSuffix s suffix = true → ∃ base, s = base +:+ suffix.
Proof.
  unfold HasSuffix. intros [Hlen Heq]%andb_true_iff.
  apply Nat.leb_le in Hlen. apply String.eqb_eq in Heq.
  exists (String.substring 0 (String.length s - String.length suffix) s).
  pose proof (substring_split s (String.length s - String.length suffix)
                ltac:(lia)) as Hsplit.
  replace (String.length s - (String.length s - String.length suffix))
    with (String.length suffix) in Hsplit by lia.
  by rewrite Heq in Hsplit.
Qed.

(** A string that is no string followed by the suffix is left as it is. *)
Lemma TrimSuffix_without (s suffix : string) :
  (∀ base, s ≠ base +:+ suffix) → TrimSuffix s suffix = s.
Proof.
  intros Hno. apply TrimSuffix_other.
  destruct (HasSuffix s suffix) eqn:Hs; [|done].
  destruct (HasSuffix_split _ _ Hs) as [base ->]. by destruct (Hno base).
Qed.

(** *** [append] *)

Section append.

Context {A : Type}.
Implicit Types (arrays : gmap loc (list A)) (s : slice) (xs : list A).

Lemma slice_read_length arrays s :
  slice_ok arrays s → length (slice_read arrays s) = slice_len s.
Proof.
  unfold slice_ok, slice_read. destruct (slice_ptr s) as [p|].
  - intros (arr & -> & Hlen & Hcap). simpl. rewrite length_take. lia.
  - by intros [-> _].
Qed.

(** The slice [append] returns shows the old elements followed by the new
    ones, and fits the new store. *)
Lemma append_read arrays s xs :
  slice_ok arrays s →
  slice_read (append arrays s xs).2 (append arrays s xs).1
  = slice_read arrays s ++ xs
  ∧ slice_ok (append arrays s xs).2 (append arrays s xs).1.
Proof.
  intros Hok. pose proof (slice_read_length _ _ Hok) as Hlen.
  unfold append. case_decide as Hroom.
  - unfold slice_ok, slice_read in *.
    destruct (slice_ptr s) as [p|] eqn:Hp; simpl.
    + destruct Hok as (arr & Harr & Hlc & Hca).
      rewrite lookup_alter_eq, Harr. simpl. split.
      * rewrite app_assoc, take_app_length'; [done|].
        rewrite length_app, length_take. lia.
      * eexists. split; [reflexivity|]. split; [done|].
        rewrite !length_app, length_take, length_drop. lia.
    + rewrite Hp. destruct Hok as [Hl Hc].
      assert (xs = []) as -> by (apply length_zero_iff_nil; lia).
      done.
  - simpl. unfold slice_read at 1. simpl.
    rewrite lookup_insert_eq. simpl. split.
    + apply take_ge. rewrite length_app. lia.
    + unfold slice_ok. simpl. rewrite lookup_insert_eq.
      eexists. split; [reflexivity|]. rewrite length_app. lia.
Qed.

(** The slice that was passed to [append] shows what it showed before. *)
Lemma append_frame arrays s xs :
  slice_ok arrays s →
  slice_read (append arrays s xs).2 s = slice_read arrays s
  ∧ slice_ok (append arrays s xs).2 s.
Proof.
  intros Hok. unfold append. case_decide as Hroom.
  - unfold slice_ok, slice_read in *.
    destruct (slice_ptr s) as [p|] eqn:Hp; simpl; rewrite ?Hp; [|done].
    destruct Hok as (arr & Harr & Hlc & Hca).
    rewrite lookup_alter_eq, Harr. simpl. split.
    + rewrite take_app_length'; [done|]. rewrite length_take. lia.
    + eexists. split; [reflexivity|]. split; [done|].
      rewrite !length_app, length_take, length_drop. lia.
  - simpl. unfold slice_ok, slice_read in *.
    destruct (slice_ptr s) as [p|] eqn:Hp; [|done].
    destruct Hok as (arr & Harr & Hlc & Hca).
    assert (fresh (dom arrays) ≠ p) as Hne.
    { intros Heq. apply (is_fresh (dom arrays)). rewrite Heq.
      by eapply elem_of_dom_2. }
    rewrite lookup_insert_ne by done. rewrite Harr. eauto.
Qed.

End append.

Section QueryTheory.

Context {Order : Type}.
Implicit Types (σ : store Order) (query q : Query) (row : any → any → bool).

(** The conditions accumulated by [Where] and [OrWhere], read on a row. *)
Lemma Where_holds row q condition :
  holds row (Query_Condition (Where q condition))
  = holds row (Query_Condition q) && forallb (holds row) condition.
Proof. done. Qed.

Lemma OrWhere_holds row q condition :
  holds row (Query_Condition (OrWhere q condition))
  = holds row (Query_Condition q) || forallb (holds row) condition.
Proof. simpl. by rewrite orb_false_r. Qed.

Lemma Having_holds row q condition :
  holds row (Query_HavingCondition (Having q condition))
  = holds row (Query_HavingCondition q) && forallb (holds row) condition.
Proof. done. Qed.

Lemma OrHaving_holds row q condition :
  holds row (Query_HavingCondition (OrHaving q condition))
  = holds row (Query_HavingCondition q) || forallb (holds row) condition.
Proof. simpl. by rewrite orb_false_r. Qed.

(** C3, as amended.  [OrWhere] and [OrHaving] disjoin the conjunction of the
    new conditions with the whole accumulated tree, the receiver's own
    conditions included: on a descriptor with accumulated condition [X],
    [Where(A).OrWhere(B)] reads as [Or(And(X, A), B)] and
    [Where(A).Where(B).OrWhere(C)] as [Or(And(X, A, B), C)]; when [X] is
    empty these are [Or(A, B)] and [Or(And(A, B), C)]. *)
Theorem OrWhere_disjoins_whole_tree row q (A B C : Condition) :
  (∀ condition,
     Query_Condition (OrWhere q condition)
     = c_Or [Query_Condition q; c_And condition])
  ∧ (∀ condition,
     Query_HavingCondition (OrHaving q condition)
     = c_Or [Query_HavingCondition q; c_And condition])
  ∧ holds row (Query_Condition (OrWhere (Where q [A]) [B]))
    = holds row (c_Or [c_And [Query_Condition q; A]; B])
  ∧ holds row (Query_Condition (OrWhere (Where (Where q [A]) [B]) [C]))
    = holds row (c_Or [c_And [Query_Condition q; A; B]; C])
  ∧ (Query_Condition q = CondNone →
     holds row (Query_Condition (OrWhere (Where q [A]) [B]))
     = holds row (c_Or [A; B])
     ∧ holds row (Query_Condition (OrWhere (Where (Where q [A]) [B]) [C]))
       = holds row (c_Or [c_And [A; B]; C])).
Proof.
  split; [done|]. split; [done|]. split; [|split].
  - rewrite OrWhere_holds, Where_holds. simpl.
    by rewrite !andb_true_r, !orb_false_r.
  - rewrite OrWhere_holds, !Where_holds. simpl.
    rewrite !andb_true_r, !orb_false_r. by rewrite andb_assoc.
  - intros Hnone. rewrite !OrWhere_holds, !Where_holds, Hnone. simpl.
    by rewrite !andb_true_r, !orb_false_r.
Qed.

(** C4.  On a descriptor whose join slice fits the store, [JoinWith] appends
    one join with the given mode and collection to the joins of the
    receiver.  Without conditions its condition is the single equality of
    the column [<collection of the receiver>.<singular>_id] with the column
    [<related collection>.id], where the singular of a related collection
    that is some name followed by "s" is that name, and the singular of a
    related collection that does not end in "s" is the collection itself;
    with conditions it is their conjunction, the conditions taken as they
    are.  [Join] is [JoinWith] with the mode "JOIN". *)
Theorem JoinWith_convention σ query mode collection condition :
  slice_ok (store_joins σ) (Query_JoinClause query) →
  let r := JoinWith σ query mode collection condition in
  let equality singular :=
    c_And [c_Eq (c_I (Query_Collection query +:+ "." +:+ singular +:+ "_id"))
                (c_I (collection +:+ ".id"))] in
  (∃ j, slice_read (store_joins r.2) (Query_JoinClause r.1)
        = slice_read (store_joins σ) (Query_JoinClause query) ++ [j]
        ∧ Join_Mode j = mode
        ∧ Join_Collection j = collection
        ∧ (condition = [] →
           (∀ name, collection = name +:+ "s" → Join_Condition j = equality name)
           ∧ ((∀ name, collection ≠ name +:+ "s") →
              Join_Condition j = equality collection)
           ∧ ∃ singular,
               Join_Condition j = equality singular
               ∧ ∀ row, holds row (Join_Condition j)
                        = row (VIdent (Query_Collection query +:+ "."
                                       +:+ singular +:+ "_id"))
                              (VIdent (collection +:+ ".id")))
        ∧ (condition ≠ [] →
           Join_Condition j = c_And condition
           ∧ ∀ row, holds row (Join_Condition j) = forallb (holds row) condition))
  ∧ Query_Join σ query collection condition = JoinWith σ query "JOIN" collection condition.
Proof.
  intros Hok r equality. split; [|done].
  subst r. unfold JoinWith. case_decide as Hc.
  - apply length_zero_iff_nil in Hc as ->.
    match goal with |- context [append ?a ?s ?xs] =>
      destruct (append_read a s xs Hok) as [Hread _];
      destruct (append a s xs) as [s' arrays'] end.
    simpl in *. eexists. split; [exact Hread|]. simpl.
    split; [done|]. split; [done|]. split; [|done].
    intros _. split; [|split].
    + intros name ->. by rewrite TrimSuffix_suffix.
    + intros Hno. by rewrite TrimSuffix_without.
    + exists (TrimSuffix collection "s"). split; [done|].
      intros row. simpl. by rewrite andb_true_r.
  - match goal with |- context [append ?a ?s ?xs] =>
      destruct (append_read a s xs Hok) as [Hread _];
      destruct (append a s xs) as [s' arrays'] end.
    simpl in *. eexists. split; [exact Hread|]. simpl.
    split; [done|]. split; [done|]. split; [by intros ->|done].
Qed.

(** Every builder method other than [Set] on a descriptor that already has a
    map of pending changes leaves what the holder of the receiver sees as it
    was: the method works on its own copy, [append] writes after the length
    of the receiver's slice or into a new array, and a nil map is replaced in
    the copy only. *)
Lemma builders_leave_receiver σ q b q' σ' :
  query_ok σ q →
  call σ q b = Some (q', σ') →
  (∀ field value, b = BSet field value → Query_Changes q = None) →
  observe σ' q = observe σ q.
Proof.
  intros (Hj & Ho & Hm) Hcall Hset.
  destruct b; simpl in Hcall;
    try (by injection Hcall as <- <-).
  - (* Join *)
    unfold Query_Join, JoinWith in Hcall. unfold observe.
    case_decide;
      match type of Hcall with context [append ?a ?s ?xs] =>
        destruct (append_frame a s xs Hj) as [Hread _];
        destruct (append a s xs) as [s' arrays'] end;
      injection Hcall as <- <-; simpl in *; by rewrite Hread.
  - (* JoinWith *)
    unfold JoinWith in Hcall. unfold observe.
    case_decide;
      match type of Hcall with context [append ?a ?s ?xs] =>
        destruct (append_frame a s xs Hj) as [Hread _];
        destruct (append a s xs) as [s' arrays'] end;
      injection Hcall as <- <-; simpl in *; by rewrite Hread.
  - (* Order *)
    unfold Query_Order in Hcall. unfold observe.
    match type of Hcall with context [append ?a ?s ?xs] =>
      destruct (append_frame a s xs Ho) as [Hread _];
      destruct (append a s xs) as [s' arrays'] end.
    injection Hcall as <- <-; simpl in *; by rewrite Hread.
  - (* Lock *)
    destruct (Lock q lock); [|done]. by injection Hcall as <- <-.
  - (* Set *)
    unfold Query_Set in Hcall. rewrite (Hset _ _ eq_refl) in Hcall.
    injection Hcall as <- <-. unfold observe.
    by rewrite (Hset _ _ eq_refl).
Qed.

(** [Set] on a descriptor that has a map writes into that map: the receiver
    and the result point to the same map, which now holds the new entry. *)
Lemma Query_Set_shared_map σ q p m field value :
  Query_Changes q = Some p → store_maps σ !! p = Some m →
  (Query_Set σ q field value).1 = q
  ∧ view_Changes (observe (Query_Set σ q field value).2 q)
    = Some (<[field := value]> m).
Proof.
  intros Hp Hm. unfold Query_Set, observe. rewrite Hp. simpl.
  split; [done|]. by rewrite lookup_alter_eq, Hm.
Qed.

End QueryTheory.

(** The theorem of C4 at [Join("comments")] on a descriptor over "posts". *)
Lemma JoinWith_convention_witness :
  slice_ok (store_joins empty_store) (Query_JoinClause posts_query)
  ∧ (∃ j, slice_read (store_joins (Query_Join empty_store posts_query "comments" []).2)
                     (Query_JoinClause (Query_Join empty_store posts_query "comments" []).1)
          = [j]
          ∧ Join_Mode j = "JOIN"
          ∧ Join_Condition j
            = c_And [c_Eq (c_I "posts.comment_id") (c_I "comments.id")])
  ∧ (∃ j, slice_read (store_joins (Query_Join empty_store posts_query "user" []).2)
                     (Query_JoinClause (Query_Join empty_store posts_query "user" []).1)
          = [j]
          ∧ Join_Condition j
            = c_And [c_Eq (c_I "posts.user_id") (c_I "user.id")]).
Proof.
  assert (Hok : slice_ok (store_joins empty_store) (Query_JoinClause posts_query))
    by done.
  split; [exact Hok|]. split.
  - destruct (JoinWith_convention empty_store posts_query "JOIN" "comments" [] Hok)
      as ((j & Hread & Hmode & _ & Hnone & _) & _).
    exists j. split; [exact Hread|]. split; [exact Hmode|].
    destruct (Hnone eq_refl) as (Hplural & _).
    exact (Hplural "comment" eq_refl).
  - destruct (JoinWith_convention empty_store posts_query "JOIN" "user" [] Hok)
      as ((j & Hread & _ & _ & Hnone & _) & _).
    exists j. split; [exact Hread|].
    destruct (Hnone eq_refl) as (_ & Hsingular & _).
    apply Hsingular. intros name Hname.
    pose proof (HasSuffix_app name "s") as Hs. by rewrite <- Hname in Hs.
Defined.

(** C3, as stated, fails: on a descriptor that already filters on a
    condition that does not hold, [Where(A).OrWhere(B)] does not read as
    [Or(A, B)]. *)
Lemma OrWhere_not_Or_of_arguments :
  ¬ (∀ (row : any → any → bool) (q : Query) (A B : Condition),
       holds row (Query_Condition (OrWhere (Where q [A]) [B]))
       = holds row (c_Or [A; B])).
Proof.
  intros Hall.
  specialize (Hall (λ _ r, match r with VInt 1 => true | _ => false end)
                   (with_Condition Query_zero (c_Eq (c_I "deleted") (VInt 0)))
                   (c_Eq (c_I "id") (VInt 1))
                   (c_Eq (c_I "id") (VInt 2))).
  simpl in Hall. discriminate Hall.
Qed.

(** C5 at a failing input.  [q] is the descriptor [Query{}.Set("name",
    "Ann")], so its pending changes are name="Ann".  After [q.Set("age", 3)]
    the map [q] itself points to holds age=3 as well: the receiver was
    changed, and it shares its map with the descriptor that [Set]
    returned. *)
Theorem Query_Set_changes_receiver :
  let r0 := Query_Set empty_store Query_zero "name" (VStr "Ann") in
  let q := r0.1 in
  let σ := r0.2 in
  let r := Query_Set σ q "age" (VInt 3) in
  query_ok σ q
  ∧ view_Changes (observe σ q) = Some {[ "name" := VStr "Ann" ]}
  ∧ view_Changes (observe r.2 q)
    = Some (<[ "age" := VInt 3 ]> {[ "name" := VStr "Ann" ]})
  ∧ Query_Changes r.1 = Query_Changes q
  ∧ observe r.2 q ≠ observe σ q.
Proof.
  intros r0 q σ r.
  assert (Hbefore : view_Changes (observe σ q) = Some {[ "name" := VStr "Ann" ]}).
  { subst r0 q σ. unfold Query_Set, observe. simpl.
    by rewrite lookup_insert_eq. }
  assert (Hq : query_ok σ q).
  { split; [done|]. split; [done|]. subst r0 q σ. simpl.
    rewrite lookup_insert_eq. by eexists. }
  assert (Hafter : view_Changes (observe r.2 q)
                   = Some (<[ "age" := VInt 3 ]> {[ "name" := VStr "Ann" ]})).
  { subst r0 q σ r. unfold Query_Set, observe. simpl.
    by rewrite lookup_alter_eq, lookup_insert_eq. }
  split; [exact Hq|]. split; [exact Hbefore|]. split; [exact Hafter|].
  split; [done|].
  intros Heq. rewrite Heq, Hbefore in Hafter.
  apply (inj Some) in Hafter.
  apply (f_equal (λ m : gmap string any, m !! "age")) in Hafter.
  rewrite lookup_insert_eq, lookup_singleton_ne in Hafter; done.
Qed.

(** ** The preload helpers *)

Section PreloadTargetsTheory.

Context {ID : Type} `{!EqDecision ID, !Countable ID}.
Context (hashable self_equal : ID → bool).
Context {REC : Type} `{!Inhabited REC}.
Implicit Types (σ : gmap loc (slot REC)) (t : preloadTarget ID)
               (pairs : list (ID * loc)).

Lemma reset_reset (fv : slot REC) : reset (reset fv) = reset fv.
Proof. destruct fv; simpl; [done| |done|done]. by rewrite length_replicate. Qed.

Lemma reset_Kind (fv : slot REC) : slot_Kind (reset fv) = slot_Kind fv.
Proof. by destruct fv. Qed.

(** The store after the conditional reset of the loop body. *)
Lemma reset_in_store σ t :
  match σ !! preloadTarget_field t with
  | Some fv =>
      match slot_Kind fv with
      | reflect_Slice | reflect_Array => preloadTarget_CanSet t
      | _ => true
      end
  | None => true
  end = true →
  match σ !! preloadTarget_field t with
  | Some fv =>
      if bool_decide (slot_Kind fv = reflect_Slice)
         || bool_decide (slot_Kind fv = reflect_Array)
      then preloadTarget_Set σ t (slot_Zero fv) else Some σ
  | None => Some σ
  end
  = Some (alter reset (preloadTarget_field t) σ).
Proof.
  intros Hset. unfold preloadTarget_Set.
  destruct (σ !! preloadTarget_field t) as [fv|] eqn:Hl.
  - assert (alter reset (preloadTarget_field t) σ
            = <[preloadTarget_field t := reset fv]> σ) as ->.
    { apply map_eq. intros l.
      destruct (decide (l = preloadTarget_field t)) as [->|Hne].
      - by rewrite lookup_alter_eq, lookup_insert_eq, Hl.
      - by rewrite lookup_alter_ne, lookup_insert_ne. }
    destruct fv; simpl in *; try rewrite Hset; try done; by rewrite insert_id.
  - f_equal. apply map_eq. intros l.
    destruct (decide (l = preloadTarget_field t)) as [->|Hne].
    + by rewrite lookup_alter_eq, Hl.
    + by rewrite lookup_alter_ne.
Qed.

Lemma keyed_snoc pairs (p : ID * loc) :
  keyed self_equal (pairs ++ [p])
  = if self_equal p.1 then keyed self_equal pairs ++ [p] else keyed self_equal pairs.
Proof.
  unfold keyed. rewrite filter_app.
  destruct (self_equal p.1) eqn:Hp.
  - by rewrite filter_cons_True, filter_nil by done.
  - rewrite filter_cons_False, filter_nil by (by rewrite Hp). apply app_nil_r.
Qed.

Lemma stray_snoc pairs (p : ID * loc) :
  stray self_equal (pairs ++ [p])
  = if self_equal p.1 then stray self_equal pairs else stray self_equal pairs ++ [p].
Proof.
  unfold stray. rewrite filter_app.
  destruct (self_equal p.1) eqn:Hp.
  - rewrite filter_cons_False, filter_nil by (by rewrite Hp). apply app_nil_r.
  - by rewrite filter_cons_True, filter_nil by done.
Qed.

Lemma contributed_slots pairs id :
  id ∉ pairs.*1 → filter (λ p : ID * loc, p.1 = id) pairs = [].
Proof.
  intros Hid. apply filter_none. intros p Hp Heq. apply Hid.
  rewrite <- Heq. apply list_elem_of_fmap. eauto.
Qed.

Lemma contributed_slots_nonempty pairs id :
  id ∈ pairs.*1 → (filter (λ p : ID * loc, p.1 = id) pairs).*2 ≠ [].
Proof.
  intros (p & -> & Hp)%list_elem_of_fmap Hnil.
  apply fmap_nil_inv in Hnil.
  by eapply (filter_nil_not_elem_of _ _ p Hnil).
Qed.

(** A target whose reference is a nil pointer is skipped. *)
Lemma collect_step_nil refIndex st t :
  preloadTarget_schema t refIndex = Some RefNil →
  collect_step (REC := REC) hashable self_equal refIndex st t = Some st.
Proof. intros Hnil. destruct st as [[addrs ids] σ]. simpl. by rewrite Hnil. Qed.

(** What [collectable] says of a target that contributes. *)
Lemma collectable_contribution σ refIndex t id l :
  collectable hashable σ refIndex t = true →
  contribution refIndex t = Some (id, l) →
  ∃ refv,
    preloadTarget_schema t refIndex = Some refv
    ∧ refvalue_Kind_is_Ptr refv && refvalue_IsNil refv = false
    ∧ getPreloadID refv = Some id
    ∧ preloadTarget_field t = l
    ∧ hashable id = true
    ∧ match σ !! l with
      | Some fv =>
          match slot_Kind fv with
          | reflect_Slice | reflect_Array => preloadTarget_CanSet t
          | _ => true
          end
      | None => true
      end = true.
Proof.
  unfold collectable, contribution.
  destruct (preloadTarget_schema t refIndex) as [[|can id'|can id']|];
    try done; intros Hc [= <- <-];
    apply andb_true_iff in Hc as [[-> Hh]%andb_true_iff Hslot];
    by eexists.
Qed.

(** A target that contributes is recorded. *)
Lemma collect_step_contribution σ0 refIndex pairs st t id l :
  collected self_equal σ0 pairs st →
  contribution refIndex t = Some (id, l) →
  collectable hashable σ0 refIndex t = true →
  ∃ st', collect_step hashable self_equal refIndex st t = Some st'
         ∧ collected self_equal σ0 (pairs ++ [(id, l)]) st'.
Proof.
  destruct st as [[addrs ids] σ].
  intros (Hids & Haddrs & Hlost & Hstore) Hc Hable.
  simpl in Hids, Haddrs, Hlost, Hstore.
  destruct (collectable_contribution _ _ _ _ _ Hable Hc)
    as (refv & Hrefv & Hnn & Hid & Hl & Hhash & Hset0).
  assert (match σ !! l with
          | Some fv =>
              match slot_Kind fv with
              | reflect_Slice | reflect_Array => preloadTarget_CanSet t
              | _ => true
              end
          | None => true
          end = true) as Hset.
  { rewrite Hstore. destruct (σ0 !! l) as [s0|]; [|by case_decide].
    case_decide; simpl; [|done]. by rewrite reset_Kind. }
  unfold collect_step. rewrite Hrefv, Hnn, Hid. simpl.
  rewrite (reset_in_store σ t) by (by rewrite Hl). simpl.
  rewrite Hl. unfold addrmap_get, addrmap_set. rewrite Hhash. simpl.
  rewrite ?Hhash. simpl.
  assert (∀ l', alter reset l σ !! l'
                = if decide (l' ∈ (pairs ++ [(id, l)]).*2)
                  then reset <$> σ0 !! l' else σ0 !! l') as Hstore'.
  { intros l'. rewrite fmap_app. simpl.
    destruct (decide (l = l')) as [<-|Hne].
    + rewrite lookup_alter_eq, Hstore.
      destruct (decide (l ∈ pairs.*2 ++ [l])) as [_|Hn];
        [|destruct Hn; apply elem_of_app; right; by left].
      case_decide; [|done]. destruct (σ0 !! l); simpl; [|done].
      by rewrite reset_reset.
    + rewrite lookup_alter_ne, Hstore by done.
      apply decide_ext. rewrite elem_of_app, list_elem_of_singleton.
      intuition congruence. }
  destruct (self_equal id) eqn:Hself; simpl.
  - eexists. split; [reflexivity|].
    assert (default [] (addrmap_found addrs !! id)
            = (filter (λ p, p.1 = id) (keyed self_equal pairs)).*2) as Hold.
    { rewrite Haddrs. case_decide as Hin; [done|].
      by rewrite contributed_slots. }
    unfold collected. rewrite keyed_snoc, stray_snoc. simpl. rewrite Hself.
    split; [|split; [|split]]; simpl.
    + rewrite lookup_insert_eq. simpl. rewrite Hold, length_app. simpl.
      rewrite fmap_app. simpl. rewrite first_occurrences_snoc, <- Hids.
      destruct (decide (id ∈ (keyed self_equal pairs).*1)) as [Hin|Hin].
      * apply contributed_slots_nonempty in Hin.
        rewrite decide_False; [done|].
        destruct ((filter (λ p, p.1 = id) (keyed self_equal pairs)).*2);
          [done|simpl; lia].
      * rewrite contributed_slots by done. by rewrite decide_True.
    + intros id'. rewrite fmap_app, filter_app. simpl.
      destruct (decide (id = id')) as [<-|Hne].
      * rewrite lookup_insert_eq, Hold.
        rewrite decide_True by (apply elem_of_app; right; by left).
        rewrite filter_cons_True, filter_nil by done. by rewrite fmap_app.
      * rewrite lookup_insert_ne, Haddrs by done.
        rewrite filter_cons_False, filter_nil, app_nil_r by (simpl; congruence).
        apply decide_ext. rewrite elem_of_app, list_elem_of_singleton.
        intuition congruence.
    + done.
    + done.
  - eexists. split; [reflexivity|].
    unfold collected. rewrite keyed_snoc, stray_snoc. simpl. rewrite Hself.
    split; [|split; [|split]]; simpl; [done|done| |done].
    by rewrite Hlost, fmap_app.
Qed.

(** The initial state of the loop has collected nothing. *)
Lemma collected_nil σ : collected (ID := ID) self_equal σ [] (addrmap_make, [], σ).
Proof.
  split; [done|]. split; simpl; [|done].
  intros id. by rewrite lookup_empty.
Qed.

Lemma collectable_same_kinds σ σ' refIndex t :
  same_kinds σ σ' →
  collectable hashable σ' refIndex t = collectable hashable σ refIndex t.
Proof.
  intros Hk. unfold collectable. specialize (Hk (preloadTarget_field t)).
  destruct (preloadTarget_schema t refIndex) as [[| |]|]; try done;
    destruct (σ' !! _) as [fv'|], (σ !! _) as [fv|]; simplify_eq/=; try done;
    by rewrite Hk.
Qed.

Lemma collected_same_kinds σ0 pairs st :
  collected self_equal σ0 pairs st → same_kinds σ0 st.2.
Proof.
  intros (_ & _ & _ & Hstore) l. rewrite Hstore.
  case_decide; [|done]. destruct (σ0 !! l); simpl; [|done].
  by rewrite reset_Kind.
Qed.

(** The loop returns when every target is collectable, and has then
    collected the contributions. *)
Lemma collect_loop_collected σ0 refIndex (preload : list (preloadTarget ID)) :
  ∀ pairs st,
    collected self_equal σ0 pairs st →
    (∀ t, t ∈ preload → collectable hashable σ0 refIndex t = true) →
    ∃ st', collect_loop hashable self_equal refIndex preload st = Some st'
           ∧ collected self_equal σ0
               (pairs ++ omap (contribution refIndex) preload) st'.
Proof.
  induction preload as [|t preload IH]; intros pairs st Hst Hable.
  - exists st. by rewrite app_nil_r.
  - simpl. destruct (contribution refIndex t) as [[id l]|] eqn:Hc.
    + destruct (collect_step_contribution σ0 refIndex pairs st t id l Hst Hc)
        as (st1 & -> & Hst1).
      { apply Hable. by left. }
      destruct (IH _ _ Hst1) as (st' & Hloop & Hst').
      { intros t' Ht'. apply Hable. by right. }
      exists st'. split; [done|]. by rewrite (cons_middle (id, l)), app_assoc.
    + assert (preloadTarget_schema t refIndex = Some RefNil) as Hnil.
      { specialize (Hable t ltac:(by left)).
        unfold collectable in Hable. unfold contribution in Hc.
        by destruct (preloadTarget_schema t refIndex) as [[| |]|]. }
      rewrite (collect_step_nil _ _ _ Hnil).
      apply IH; [done|].
      intros t' Ht'. apply Hable. by right.
Qed.

(** One turn of the loop panics exactly on a target that is not
    collectable. *)
Lemma collect_step_panics refIndex
    (st : addrmap ID * list ID * gmap loc (slot REC)) t :
  collect_step hashable self_equal refIndex st t = None
  ↔ collectable hashable st.2 refIndex t = false.
Proof.
  destruct st as [[addrs ids] σ]. unfold collect_step, collectable. simpl.
  destruct (preloadTarget_schema t refIndex) as [[|can id|can id]|];
    simpl; try done;
    destruct can; simpl; try done;
    unfold addrmap_get, addrmap_set, preloadTarget_Set;
    (destruct (σ !! preloadTarget_field t) as [[]|]);
    destruct (preloadTarget_CanSet t), (hashable id) eqn:Hh;
    simpl; rewrite ?Hh; simpl; rewrite ?Hh; simpl; done.
Qed.

(** The loop panics exactly when one of its targets is not collectable. *)
Lemma collect_loop_panics σ0 refIndex (preload : list (preloadTarget ID)) :
  ∀ pairs st,
    collected self_equal σ0 pairs st →
    collect_loop hashable self_equal refIndex preload st = None
    ↔ ∃ t, t ∈ preload ∧ collectable hashable σ0 refIndex t = false.
Proof.
  induction preload as [|t preload IH]; intros pairs st Hst; simpl.
  - split; [done|]. intros (t & Ht & _). by apply elem_of_nil in Ht.
  - destruct (collectable hashable σ0 refIndex t) eqn:Hable.
    + assert (∃ pairs' st', collect_step hashable self_equal refIndex st t = Some st'
                            ∧ collected self_equal σ0 pairs' st')
        as (pairs' & st' & -> & Hst').
      { destruct (contribution refIndex t) as [[id l]|] eqn:Hc.
        - destruct (collect_step_contribution σ0 refIndex pairs st t id l Hst Hc Hable)
            as (st' & Hstep & Hst').
          by exists (pairs ++ [(id, l)]), st'.
        - exists pairs, st. split; [|done]. apply collect_step_nil.
          unfold collectable in Hable. unfold contribution in Hc.
          by destruct (preloadTarget_schema t refIndex) as [[| |]|]. }
      rewrite (IH _ _ Hst'). split.
      * intros (t' & Ht' & Hnone). exists t'. split; [by right|done].
      * intros (t' & [->|Ht']%elem_of_cons & Hnone); [congruence|].
        by exists t'.
    + assert (collect_step hashable self_equal refIndex st t = None) as ->.
      { apply collect_step_panics.
        by rewrite (collectable_same_kinds σ0 st.2)
          by (by eapply collected_same_kinds). }
      split; [|done]. intros _. exists t. split; [by left|done].
Qed.


End PreloadTargetsTheory.

Lemma three_owners_collectable t :
  t ∈ three_owners → collectable every_key three_slots [0%Z] t = true.
Proof.
  intros Ht. unfold three_owners in Ht.
  repeat (apply elem_of_cons in Ht as [->|Ht]; [done|]).
  by apply elem_of_nil in Ht.
Qed.




Section PreloadInfoTheory.

Context (SnakeCase : string → string).

Lemma rtype_FieldByName_name rt name sf :
  rtype_FieldByName rt name = Some (Some sf) → StructField_Name sf = name.
Proof.
  destruct rt as [| tname fields | | |]; simpl; try done.
  intros [= Hfind]. apply find_some in Hfind as [_ Hname].
  by apply bool_decide_eq_true in Hname.
Qed.

(** [getPreloadInfo] once the relation field is found: the foreign key is
    looked up in the element type of a pointer, slice or array relation, and
    in the type of the relation otherwise. *)
Lemma getPreloadInfo_unfold rt field sft :
  rtype_FieldByName rt field = Some (Some sft) →
  let ft := match StructField_Type sft with
            | TPtr elem | TSlice elem | TArray _ elem => elem
            | t => t
            end in
  getPreloadInfo SnakeCase rt field
  = match guess_ref_fk rt sft (Tag_Get (StructField_Tag sft) "references")
                       (Tag_Get (StructField_Tag sft) "foreign_key") with
    | Some (ref, fk) =>
        match rtype_FieldByName rt ref, rtype_FieldByName ft fk with
        | Some (Some idv), Some (Some sf) =>
            Some (StructField_Index idv, StructField_Index sf,
                  foreign_key_column SnakeCase sf fk)
        | _, _ => None
        end
    | None => None
    end.
Proof.
  intros Hsft ft. unfold getPreloadInfo. rewrite Hsft. subst ft.
  unfold related_type.
  destruct (StructField_Type sft) as [kind name|name fields|elem|elem|n elem];
    simpl.
  - destruct kind; simpl; repeat case_match; congruence.
  - repeat case_match; congruence.
  - repeat case_match; congruence.
  - repeat case_match; congruence.
  - repeat case_match; congruence.
Qed.

(** C7.  For a relation field [sft] of the owner type [rt] whose tags do not
    declare both the reference and the foreign key, the related type being
    the element type of a relation that is a pointer, a slice or an array
    and the type of the relation otherwise: when [rt] has a field named
    after the relation followed by "ID", [getPreloadInfo] answers the index
    of that field of the owner and the index of the field "ID" of the
    related type; otherwise it answers the index of the field "ID" of the
    owner and the index of the field of the related type named after the
    owner type followed by "ID".  In both cases the column is the [db] tag of
    the foreign-key field when it has one, its snake-cased name otherwise;
    when the field that the convention names is missing the call panics. *)
Theorem getPreloadInfo_by_convention rt field sft :
  rtype_FieldByName rt field = Some (Some sft) →
  Tag_Get (StructField_Tag sft) "references" = ""
  ∨ Tag_Get (StructField_Tag sft) "foreign_key" = "" →
  let ft := match StructField_Type sft with
            | TPtr elem | TSlice elem | TArray _ elem => elem
            | t => t
            end in
  let column (sf : StructField) fk :=
    if decide (Tag_Get (StructField_Tag sf) "db" = "")
    then SnakeCase fk else Tag_Get (StructField_Tag sf) "db" in
  StructField_Name sft = field
  ∧ (∀ belongs,
       rtype_FieldByName rt (field +:+ "ID") = Some (Some belongs) →
       getPreloadInfo SnakeCase rt field
       = match rtype_FieldByName ft "ID" with
         | Some (Some sf) =>
             Some (StructField_Index belongs, StructField_Index sf, column sf "ID")
         | _ => None
         end)
  ∧ (rtype_FieldByName rt (field +:+ "ID") = Some None →
     getPreloadInfo SnakeCase rt field
     = match rtype_FieldByName rt "ID",
             rtype_FieldByName ft (rtype_Name rt +:+ "ID") with
       | Some (Some idv), Some (Some sf) =>
           Some (StructField_Index idv, StructField_Index sf,
                 column sf (rtype_Name rt +:+ "ID"))
       | _, _ => None
       end).
Proof.
  intros Hsft Htags ft column.
  pose proof (rtype_FieldByName_name _ _ _ Hsft) as Hname.
  assert (∀ sf fk, foreign_key_column SnakeCase sf fk = column sf fk) as Hcolumn.
  { intros sf fk. unfold foreign_key_column, column.
    repeat case_decide; congruence. }
  split; [done|]. split.
  - intros belongs Hbelongs. rewrite (getPreloadInfo_unfold _ _ _ Hsft).
    unfold guess_ref_fk. rewrite decide_True by done.
    rewrite Hname, Hbelongs. rewrite Hbelongs. fold ft.
    destruct (rtype_FieldByName ft "ID") as [[sf|]|]; [|done|done].
    by rewrite Hcolumn.
  - intros Hnone. rewrite (getPreloadInfo_unfold _ _ _ Hsft).
    unfold guess_ref_fk. rewrite decide_True by done.
    rewrite Hname, Hnone. fold ft.
    destruct (rtype_FieldByName rt "ID") as [[idv|]|]; [|done|done].
    destruct (rtype_FieldByName ft _) as [[sf|]|]; [|done|done].
    by rewrite Hcolumn.
Qed.

End PreloadInfoTheory.

(** The theorem of C7 at the relation "Transactions" of the type User. *)
Lemma getPreloadInfo_by_convention_witness :
  rtype_FieldByName User_type "Transactions"
  = Some (Some (mkStructField "Transactions" (TSlice Transaction_type) [] [1%Z]))
  ∧ getPreloadInfo (λ name, name) User_type "Transactions"
    = Some ([0%Z], [1%Z], "user_id")
  ∧ getPreloadInfo (λ name, name) Article_type "Author"
    = Some ([1%Z], [0%Z], "ID").
Proof.
  split; [reflexivity|]. split.
  - destruct (getPreloadInfo_by_convention (λ name, name) User_type "Transactions"
                (mkStructField "Transactions" (TSlice Transaction_type) [] [1%Z])
                eq_refl (or_introl eq_refl))
      as (_ & _ & Hmany).
    rewrite (Hmany eq_refl). reflexivity.
  - destruct (getPreloadInfo_by_convention (λ name, name) Article_type "Author"
                (mkStructField "Author" (TPtr Author_type) [] [2%Z])
                eq_refl (or_introl eq_refl))
      as (_ & Hbelongs & _).
    rewrite (Hbelongs (mkStructField "AuthorID" (TBasic reflect_Int "int") [] [1%Z])
               eq_refl).
    reflexivity.
Defined.

(** ** The error translator *)

Section ErrorTranslatorTheory.

Context {Error Changeset Constraints : Type}.
Context (NewUnexpected : string → Error).
Context (Changeset_Constraints : Changeset → Constraints).
Context (Constraints_GetError : Constraints → Error → option (error Error)).

(** C8.  [transformError] answers nil for nil; a domain error as it is when
    no change set is given; with change sets, what the constraint registry of
    the first one answers for the domain error; and for any other error the
    domain error [NewUnexpected] makes of its message. *)
Theorem transformError_cases :
  (∀ chs, transformError NewUnexpected Changeset_Constraints
            Constraints_GetError None chs = None)
  ∧ (∀ e, transformError NewUnexpected Changeset_Constraints
            Constraints_GetError (Some (error_domain e)) []
          = Some (error_domain e))
  ∧ (∀ e ch0 chs, transformError NewUnexpected Changeset_Constraints
                    Constraints_GetError (Some (error_domain e)) (ch0 :: chs)
                  = Constraints_GetError (Changeset_Constraints ch0) e)
  ∧ (∀ message chs, transformError NewUnexpected Changeset_Constraints
                      Constraints_GetError (Some (error_other message)) chs
                    = Some (error_domain (NewUnexpected message))).
Proof. by repeat split. Qed.

End ErrorTranslatorTheory.

(** ** The primary key *)

(** C10.  When the record has the method [PrimaryKey], [getPrimaryKey]
    answers what the method answers for the record; otherwise it answers the
    name "id" with the value 0, whatever [withValue] is. *)
Theorem getPrimaryKey_cases {T} (record : object T) (withValue : bool) :
  (∀ PrimaryKey,
     object_PrimaryKey record = Some PrimaryKey →
     getPrimaryKey record withValue = PrimaryKey (object_value record))
  ∧ (object_PrimaryKey record = None →
     getPrimaryKey record withValue = ("id", VInt 0)).
Proof.
  unfold getPrimaryKey. split.
  - by intros PrimaryKey ->.
  - intros ->. by destruct withValue.
Qed.

(** * Part III. Further properties *)

(** ** The change log: reading back what was written *)

Section ChangeLogMore.

Context {constraints : Type} `{!Inhabited constraints}.
Implicit Types (c : Changes constraints) (ch : Change) (f g : string).

Lemma latest_snoc (l : list Change) ch f :
  latest f (l ++ [ch]) = if decide (Change_Field ch = f) then Some ch else latest f l.
Proof.
  unfold latest. rewrite filter_app. case_decide.
  - rewrite filter_cons_True, filter_nil by done. apply last_snoc.
  - by rewrite filter_cons_False, filter_nil, app_nil_r by done.
Qed.

(** What [Get] answers after a [Set], for any field. *)
Lemma Changes_Get_Set c ch c' f :
  fields_in_sync c → changes_indexed c → Changes_Set c ch = Some c' →
  Changes_Get c' f
  = if decide (Change_Field ch = f) then Some (ch, true) else Changes_Get c f.
Proof.
  intros Hs Hi Hset.
  destruct (Changes_Set_in_sync _ _ _ Hs Hi Hset) as [Hs' Hi'].
  rewrite (Changes_Get_latest _ _ Hs' Hi'), (Changes_Get_latest _ _ Hs Hi).
  rewrite (Changes_Set_latest _ _ _ _ Hs Hi Hset), latest_snoc.
  by case_decide.
Qed.

(** X1.  On a log made by [BuildChanges] and the operations of the log,
    [Set] followed by [Get] of the same field finds exactly the change that
    was set, and [Get] of every other field answers what it answered
    before. *)
Theorem Changes_Get_after_Set c ch :
  reachable c →
  ∃ c', Changes_Set c ch = Some c'
        ∧ Changes_Get c' (Change_Field ch) = Some (ch, true)
        ∧ ∀ f, f ≠ Change_Field ch → Changes_Get c' f = Changes_Get c f.
Proof.
  intros (Hs & Hi & _)%reachable_invariants.
  destruct (Changes_Set_no_panic c ch Hs) as [c' Hset].
  exists c'. split; [done|]. split.
  - rewrite (Changes_Get_Set _ _ _ _ Hs Hi Hset). by rewrite decide_True.
  - intros f Hne. rewrite (Changes_Get_Set _ _ _ _ Hs Hi Hset).
    by rewrite decide_False.
Qed.

(** X2.  On a log made by [BuildChanges] and the operations of the log,
    [SetValue] followed by [GetValue] of the same field answers the value with [true], and the change recorded for the
    field is a plain set, whatever was recorded before (an increment
    included); [GetValue] does not look at the kind of a change: after
    [IncBy(f, n)] was set it answers [n] with [true]; for a field that is not
    in the log it answers nil with [false]. *)
Theorem Changes_GetValue_SetValue c f (v : any) :
  reachable c →
  (∃ c', Changes_SetValue c f v = Some c'
         ∧ Changes_GetValue c' f = Some (v, true)
         ∧ Changes_Get c' f = Some (Set' f v, true)
         ∧ ∀ g, g ≠ f → Changes_GetValue c' g = Changes_GetValue c g)
  ∧ (∀ n, ∃ c', Changes_Set c (IncBy f n) = Some c'
                ∧ Changes_GetValue c' f = Some (VInt n, true))
  ∧ (Changes_Fields c !! f = None → Changes_GetValue c f = Some (VNil, false)).
Proof.
  intros (Hs & Hi & _)%reachable_invariants. split; [|split].
  - destruct (Changes_Set_no_panic c (Set' f v) Hs) as [c' Hset].
    exists c'. unfold Changes_SetValue, Changes_GetValue.
    split; [done|].
    rewrite (Changes_Get_Set _ _ _ f Hs Hi Hset), decide_True by done.
    split; [done|]. split; [done|].
    intros g Hne. rewrite (Changes_Get_Set _ _ _ g Hs Hi Hset).
    by rewrite decide_False.
  - intros n. destruct (Changes_Set_no_panic c (IncBy f n) Hs) as [c' Hset].
    exists c'. split; [done|]. unfold Changes_GetValue.
    by rewrite (Changes_Get_Set _ _ _ f Hs Hi Hset), decide_True.
  - intros Hnone. unfold Changes_GetValue, Changes_Get. by rewrite Hnone.
Qed.

(** X3.  On a log in sync, [Empty] answers [true] exactly when no field is
    in the index, and [false] after any [Set]; [SetAssoc] and
    [SetStaleAssoc] leave the field changes alone: [Empty] and every [Get]
    answer after them what they answered before, so a log with associations
    only is empty; and [Set] leaves every [GetAssoc] as it was. *)
Theorem Changes_Empty_counts_fields_only c :
  fields_in_sync c → changes_indexed c →
  (Changes_Empty c = true ↔ Changes_Fields c = ∅)
  ∧ (∀ ch c', Changes_Set c ch = Some c' →
              Changes_Empty c' = false
              ∧ ∀ g, Changes_GetAssoc c' g = Changes_GetAssoc c g)
  ∧ (∀ f chs c', Changes_SetAssoc c f chs = Some c' →
                 Changes_Empty c' = Changes_Empty c
                 ∧ ∀ g, Changes_Get c' g = Changes_Get c g)
  ∧ (∀ f ids c', Changes_SetStaleAssoc c f ids = Some c' →
                 Changes_Empty c' = Changes_Empty c
                 ∧ ∀ g, Changes_Get c' g = Changes_Get c g).
Proof.
  intros Hs Hi. split; [|split; [|split]].
  - unfold Changes_Empty, len. rewrite Z.eqb_eq, map_empty. split.
    + intros Hlen f. destruct (Changes_Fields c !! f) as [i|] eqn:Hf; [|done].
      destruct (Hs _ _ Hf) as (ch & Hch%index_in_range & _).
      unfold len in Hch. lia.
    + intros Hnone. destruct (Changes_Changes c) as [|ch l] eqn:Hl; [done|].
      specialize (Hi 0 ch). rewrite Hl in Hi. specialize (Hi eq_refl).
      by rewrite Hnone in Hi.
  - intros ch c' Hset. split.
    + unfold Changes_Empty, len. apply Z.eqb_neq.
      unfold Changes_Set in Hset.
      destruct (Changes_Fields c !! Change_Field ch) as [i|] eqn:Hf.
      * destruct (index (Changes_Changes c) i) as [old|] eqn:Hold; [|done].
        apply index_in_range in Hold. unfold len in Hold.
        injection Hset as <-. simpl. rewrite length_insert. lia.
      * injection Hset as <-. simpl. rewrite length_app. simpl. lia.
    + intros g. unfold Changes_GetAssoc.
      by destruct (Changes_Set_assoc _ _ _ Hset) as [-> ->].
  - intros f chs c' Hset. unfold Changes_SetAssoc in Hset.
    unfold Changes_Empty, Changes_Get.
    destruct (Changes_Assoc c !! f) as [i|];
      [destruct (index (Changes_AssocChanges c) i)|]; by simplify_eq.
  - intros f ids c' Hset. unfold Changes_SetStaleAssoc in Hset.
    unfold Changes_Empty, Changes_Get.
    destruct (Changes_Assoc c !! f) as [i|];
      [destruct (index (Changes_AssocChanges c) i)|]; by simplify_eq.
Qed.

(** *** Associations *)

(** In a reachable log two association fields never share a position. *)
Lemma reachable_assoc_distinct c :
  reachable c →
  ∀ f g i, Changes_Assoc c !! f = Some i → Changes_Assoc c !! g = Some i → f = g.
Proof.
  induction 1 as [c Hfresh|c o c' Hr IH Hop].
  - injection Hfresh as <-. intros f g i. simpl. by rewrite lookup_empty.
  - pose proof (reachable_invariants _ Hr) as (_ & _ & Ha).
    assert (∀ h ac, ∀ f g i,
              Changes_Assoc (Changes_appendAssoc c h ac) !! f = Some i →
              Changes_Assoc (Changes_appendAssoc c h ac) !! g = Some i →
              Changes_Assoc c !! h = None → f = g) as Happ.
    { intros h ac f g i. simpl. intros Hf Hg Hh.
      destruct (decide (h = f)) as [Hhf|Hnf], (decide (h = g)) as [Hhg|Hng].
      - congruence.
      - subst h. rewrite lookup_insert_eq in Hf.
        rewrite lookup_insert_ne in Hg by done.
        injection Hf as <-. apply Ha in Hg. lia.
      - subst h. rewrite lookup_insert_eq in Hg.
        rewrite lookup_insert_ne in Hf by done.
        injection Hg as <-. apply Ha in Hf. lia.
      - rewrite lookup_insert_ne in Hf, Hg by done. by eapply IH. }
    destruct o as [ch|h chs|h ids]; simpl in Hop.
    + destruct (Changes_Set_assoc _ _ _ Hop) as [-> _]. apply IH.
    + unfold Changes_SetAssoc in Hop.
      destruct (Changes_Assoc c !! h) as [i|] eqn:Hh.
      * destruct (index (Changes_AssocChanges c) i); [|done].
        injection Hop as <-. apply IH.
      * injection Hop as <-. intros f g i Hf Hg. by eapply Happ.
    + unfold Changes_SetStaleAssoc in Hop.
      destruct (Changes_Assoc c !! h) as [i|] eqn:Hh.
      * destruct (index (Changes_AssocChanges c) i); [|done].
        injection Hop as <-. apply IH.
      * injection Hop as <-. intros f g i Hf Hg. by eapply Happ.
Qed.

Lemma index_insert_ne {A} (s : list A) i j x :
  (0 ≤ i)%Z → (0 ≤ j)%Z → i ≠ j → index (<[Z.to_nat i := x]> s) j = index s j.
Proof.
  intros Hi Hj Hne. unfold index. case_decide; [|done].
  apply list_lookup_insert_ne. lia.
Qed.

Lemma index_app_l {A} (s t : list A) j :
  (0 ≤ j < len s)%Z → index (s ++ t) j = index s j.
Proof.
  intros [Hj Hlt]. unfold index, len in *. case_decide; [|done].
  apply lookup_app_l. lia.
Qed.

Lemma insert_snoc {A} (s : list A) x y : <[length s := x]> (s ++ [y]) = s ++ [x].
Proof. by rewrite insert_app_r_alt, Nat.sub_diag by done. Qed.

(** X4.  On a reachable log, [SetAssoc] followed by [GetAssoc] of the same
    field finds the association, with the child logs that were passed; its
    [StaleIDs] are those the field had before, and nil when the field is new
    (the state that, by the comment of [AssocChanges], clears a has-many
    association); [GetAssoc] of every other field answers what it answered
    before. *)
Theorem GetAssoc_after_SetAssoc c f chs :
  reachable c →
  ∃ c' ac,
    Changes_SetAssoc c f chs = Some c'
    ∧ Changes_GetAssoc c' f = Some (ac, true)
    ∧ AssocChanges_Changes ac = chs
    ∧ (∀ old, Changes_GetAssoc c f = Some (old, true) →
              AssocChanges_StaleIDs ac = AssocChanges_StaleIDs old)
    ∧ (Changes_Assoc c !! f = None → AssocChanges_StaleIDs ac = None)
    ∧ ∀ g, g ≠ f → Changes_GetAssoc c' g = Changes_GetAssoc c g.
Proof.
  intros Hr. pose proof (reachable_invariants _ Hr) as (_ & _ & Ha).
  pose proof (reachable_assoc_distinct _ Hr) as Hd.
  unfold Changes_SetAssoc, Changes_GetAssoc.
  destruct (Changes_Assoc c !! f) as [i|] eqn:Hf.
  - destruct (index_is_Some _ _ (Ha _ _ Hf)) as [ac Hac]. rewrite Hac.
    eexists _, _. split; [reflexivity|]. simpl.
    rewrite Hf, (index_insert _ _ _ _ Hac).
    split; [reflexivity|]. split; [done|]. split; [by intros old [= <-]|].
    split; [done|]. intros g Hne.
    destruct (Changes_Assoc c !! g) as [j|] eqn:Hg; [|done].
    rewrite index_insert_ne; [done| | |].
    + apply (Ha _ _ Hf).
    + apply (Ha _ _ Hg).
    + intros ->. apply Hne. by eapply Hd.
  - eexists _, _. split; [reflexivity|]. simpl.
    rewrite lookup_insert_eq, index_len_snoc.
    split; [reflexivity|]. split; [done|]. split; [by intros old [=]|].
    split; [done|]. intros g Hne. rewrite lookup_insert_ne by done.
    destruct (Changes_Assoc c !! g) as [j|] eqn:Hg; [|done].
    by rewrite index_app_l by apply (Ha _ _ Hg).
Qed.

(** X5.  On a log made by [BuildChanges] and the operations of the log,
    [SetAssoc] and [SetStaleAssoc] of the same field commute: in either order they succeed
    and give the same log, whose association holds the child logs and the
    stale identifiers that were passed. *)
Theorem SetAssoc_SetStaleAssoc_commute c f chs ids :
  reachable c →
  ∃ c' ac,
    Changes_SetAssoc c f chs ≫= (λ c1, Changes_SetStaleAssoc c1 f ids) = Some c'
    ∧ Changes_SetStaleAssoc c f ids ≫= (λ c1, Changes_SetAssoc c1 f chs) = Some c'
    ∧ Changes_GetAssoc c' f = Some (ac, true)
    ∧ AssocChanges_Changes ac = chs
    ∧ AssocChanges_StaleIDs ac = ids.
Proof.
  intros (_ & _ & Ha)%reachable_invariants.
  unfold Changes_SetAssoc, Changes_SetStaleAssoc, Changes_GetAssoc.
  destruct (Changes_Assoc c !! f) as [i|] eqn:Hf.
  - destruct (index_is_Some _ _ (Ha _ _ Hf)) as [ac Hac]. rewrite Hac. simpl.
    rewrite Hf, !(index_insert _ _ _ _ Hac). simpl.
    rewrite !list_insert_insert_eq.
    eexists _, _. split; [reflexivity|]. split; [reflexivity|]. simpl.
    rewrite Hf, (index_insert _ _ _ _ Hac). done.
  - simpl. rewrite !lookup_insert_eq, !index_len_snoc. simpl.
    unfold len. rewrite !Nat2Z.id, !insert_snoc.
    eexists _, _. split; [reflexivity|]. split; [reflexivity|]. simpl.
    rewrite lookup_insert_eq. fold (len (Changes_AssocChanges c)).
    by rewrite index_len_snoc.
Qed.

(** *** Runs of operations *)

Lemma build_all_reachable (chs : list Change) c c' :
  reachable c → build_all (Change_Build <$> chs) c = Some c' → reachable c'.
Proof.
  revert c. induction chs as [|ch chs IH]; intros c Hr; simpl.
  - by intros [= <-].
  - destruct (Changes_Set c ch) as [c1|] eqn:Hset; [|done].
    apply IH. by apply (reachable_step c (OpSet ch)).
Qed.

(** X6.  From a reachable log every sequence of [Set], [SetAssoc] and
    [SetStaleAssoc] operations runs to its end without a panic, and the log
    it ends in is reachable again. *)
Theorem operations_run_to_completion c (os : list op) :
  reachable c → ∃ c', apply_ops c os = Some c' ∧ reachable c'.
Proof.
  revert c. induction os as [|o os IH]; intros c Hr; simpl.
  - by exists c.
  - destruct (reachable_no_panic c o Hr) as [c1 Hop]. rewrite Hop.
    apply IH. by apply (reachable_step c o).
Qed.

(** X7.  [BuildChanges] of any sequence of changes returns, without a panic,
    a reachable log that has no association; the log is empty exactly when
    no change was given, and it never has more entries than changes were
    given. *)
Theorem BuildChanges_of_changes (chs : list Change) :
  ∃ c : Changes constraints,
    BuildChanges (Change_Build <$> chs) = Some c
    ∧ reachable c
    ∧ Changes_Assoc c = ∅ ∧ Changes_AssocChanges c = []
    ∧ (Changes_Empty c = true ↔ chs = [])
    ∧ (len (Changes_Changes c) ≤ len chs)%Z.
Proof.
  assert (Hfresh : reachable (mkChanges (constraints := constraints) ∅ [] ∅ [] inhabitant))
    by by apply reachable_fresh.
  pose proof (reachable_invariants _ Hfresh) as (Hs & Hi & _).
  destruct (set_sequence _ chs Hs Hi) as (c & Hrun & Hs' & Hi' & Hfields & _).
  exists c. split; [exact Hrun|].
  split; [by eapply build_all_reachable|].
  assert (∀ (l : list Change) c0 c1,
            build_all (Change_Build <$> l) c0 = Some c1 →
            Changes_Assoc c1 = Changes_Assoc c0
            ∧ Changes_AssocChanges c1 = Changes_AssocChanges c0) as Hassoc.
  { induction l as [|ch l IH]; intros c0 c1; simpl; [by intros [= <-]|].
    destruct (Changes_Set c0 ch) as [c2|] eqn:Hset; [|done].
    intros Hrest. destruct (IH _ _ Hrest) as [-> ->].
    by apply Changes_Set_assoc in Hset. }
  destruct (Hassoc _ _ _ Hrun) as [-> ->]. split; [done|]. split; [done|].
  simpl in Hfields.
  assert (length (Changes_Changes c) = length (first_occurrences (Change_Field <$> chs)))
    as Hlen by (by rewrite <- Hfields, length_fmap).
  split.
  - unfold Changes_Empty, len. rewrite Z.eqb_eq, Hlen.
    destruct chs; simpl; [done|]. split; [lia|done].
  - unfold len. rewrite Hlen.
    assert (∀ l : list string, length (first_occurrences l) ≤ length l) as Hle.
    { induction l as [|x l IH]; simpl; [done|].
      pose proof (length_filter (λ y, y ≠ x) (first_occurrences l)). lia. }
    specialize (Hle (Change_Field <$> chs)). rewrite length_fmap in Hle. lia.
Qed.

End ChangeLogMore.

(** X1 at the empty log and the change name="Ann". *)
Lemma Changes_Get_after_Set_witness :
  reachable empty_log
  ∧ ∃ c', Changes_Set empty_log (Set' "name" (VStr "Ann")) = Some c'
          ∧ Changes_Get c' "name" = Some (Set' "name" (VStr "Ann"), true)
          ∧ Changes_Get c' "age" = Some (Change_zero, false).
Proof.
  assert (Hr : reachable empty_log) by (by apply reachable_fresh).
  split; [exact Hr|].
  destruct (Changes_Get_after_Set empty_log (Set' "name" (VStr "Ann")) Hr)
    as (c' & Hset & Hget & Hother).
  exists c'. split; [exact Hset|]. split; [exact Hget|].
  rewrite (Hother "age"); [reflexivity|discriminate].
Defined.

(** X2 at the empty log, the field "age" and the value 3. *)
Lemma Changes_GetValue_SetValue_witness :
  reachable empty_log
  ∧ (∃ c', Changes_SetValue empty_log "age" (VInt 3) = Some c'
           ∧ Changes_GetValue c' "age" = Some (VInt 3, true))
  ∧ Changes_GetValue empty_log "age" = Some (VNil, false).
Proof.
  assert (Hr : reachable empty_log) by (by apply reachable_fresh).
  split; [exact Hr|].
  destruct (Changes_GetValue_SetValue empty_log "age" (VInt 3) Hr)
    as ((c' & Hset & Hget & _) & _ & Hmissing).
  split; [by exists c'|]. apply Hmissing. reflexivity.
Defined.

(** X3 at the empty log. *)
Lemma Changes_Empty_counts_fields_only_witness :
  fields_in_sync empty_log ∧ changes_indexed empty_log
  ∧ Changes_Empty empty_log = true
  ∧ ∀ c', Changes_SetStaleAssoc empty_log "tags" None = Some c' →
          Changes_Empty c' = true.
Proof.
  assert (Hs : fields_in_sync empty_log)
    by (intros f i; simpl; by rewrite lookup_empty).
  assert (Hi : changes_indexed empty_log)
    by (intros i ch; simpl; by rewrite lookup_nil).
  split; [exact Hs|]. split; [exact Hi|].
  destruct (Changes_Empty_counts_fields_only empty_log Hs Hi)
    as (Hempty & _ & _ & Hstale).
  split; [by apply Hempty|].
  intros c' Hset. by destruct (Hstale _ _ _ Hset) as [-> _].
Defined.

(** X4 at the empty log, the field "tags" and no child log. *)
Lemma GetAssoc_after_SetAssoc_witness :
  reachable empty_log
  ∧ ∃ c' ac, Changes_SetAssoc empty_log "tags" [] = Some c'
             ∧ Changes_GetAssoc c' "tags" = Some (ac, true)
             ∧ AssocChanges_StaleIDs ac = None.
Proof.
  assert (Hr : reachable empty_log) by (by apply reachable_fresh).
  split; [exact Hr|].
  destruct (GetAssoc_after_SetAssoc empty_log "tags" [] Hr)
    as (c' & ac & Hset & Hget & _ & _ & Hnew & _).
  exists c', ac. split; [exact Hset|]. split; [exact Hget|].
  apply Hnew. reflexivity.
Defined.

(** X5 at the empty log, the field "tags", one child log and no stale
    identifier. *)
Lemma SetAssoc_SetStaleAssoc_commute_witness :
  reachable empty_log
  ∧ ∃ c', Changes_SetAssoc empty_log "tags" [empty_log]
            ≫= (λ c1, Changes_SetStaleAssoc c1 "tags" (Some [])) = Some c'
          ∧ Changes_SetStaleAssoc empty_log "tags" (Some [])
            ≫= (λ c1, Changes_SetAssoc c1 "tags" [empty_log]) = Some c'.
Proof.
  assert (Hr : reachable empty_log) by (by apply reachable_fresh).
  split; [exact Hr|].
  destruct (SetAssoc_SetStaleAssoc_commute empty_log "tags" [empty_log] (Some []) Hr)
    as (c' & ac & H1 & H2 & _).
  exists c'. split; [exact H1|exact H2].
Defined.

(** X6 at the empty log and three operations. *)
Lemma operations_run_to_completion_witness :
  reachable empty_log
  ∧ ∃ c', apply_ops empty_log
            [OpSet (Inc "age"); OpSetAssoc "tags" []; OpSet (Dec "age")] = Some c'
          ∧ reachable c'.
Proof.
  assert (Hr : reachable empty_log) by (by apply reachable_fresh).
  split; [exact Hr|].
  exact (operations_run_to_completion empty_log
           [OpSet (Inc "age"); OpSetAssoc "tags" []; OpSet (Dec "age")] Hr).
Defined.

(** ** The query descriptor: chains of builder calls *)

Section appendMore.

Context {A : Type}.
Implicit Types (arrays : gmap loc (list A)) (s t : slice) (xs : list A).

Lemma slice_extends_refl arrays s : slice_ok arrays s → slice_extends arrays s s.
Proof. intros Hok. by repeat split. Qed.

(** [append] to a slice that extends [t] leaves what [t] shows as it was,
    and the slice it returns extends [t] again. *)
Lemma append_extends arrays t s xs :
  slice_extends arrays t s →
  slice_read (append arrays s xs).2 t = slice_read arrays t
  ∧ slice_extends (append arrays s xs).2 t (append arrays s xs).1.
Proof.
  intros (Ht & Hs & Hlen).
  destruct (append_read arrays s xs Hs) as [_ Hs'].
  unfold slice_extends.
  cut (slice_read (append arrays s xs).2 t = slice_read arrays t
       ∧ slice_ok (append arrays s xs).2 t
       ∧ (slice_ptr (append arrays s xs).1 = slice_ptr t →
          slice_len t ≤ slice_len (append arrays s xs).1)); [tauto|].
  clear Hs'. unfold append. case_decide as Hroom.
  - destruct (slice_ptr s) as [p|] eqn:Hp; simpl; [|by rewrite Hp].
    unfold slice_ok in Hs. rewrite Hp in Hs.
    destruct Hs as (arr & Harr & Hlc & Hca).
    assert (length (take (slice_len s) arr ++ xs
                    ++ drop (slice_len s + length xs) arr) = length arr) as Hsame.
    { rewrite !length_app, length_take, length_drop. lia. }
    unfold slice_ok, slice_read in *.
    destruct (slice_ptr t) as [pt|] eqn:Hpt; [|done].
    destruct Ht as (arrt & Harrt & Htlc & Htca).
    destruct (decide (p = pt)) as [<-|Hne].
    + specialize (Hlen eq_refl). rewrite lookup_alter_eq, Harr. simpl.
      assert (arrt = arr) as -> by congruence.
      split; [|split].
      * rewrite take_app_le by (rewrite length_take; lia).
        rewrite take_take. f_equal. lia.
      * eexists. split; [reflexivity|]. rewrite Hsame. done.
      * intros _. lia.
    + rewrite lookup_alter_ne by done. rewrite Harrt.
      split; [done|]. split; [by eauto|]. intros [= Heq]. done.
  - simpl. set (p := fresh (dom arrays)).
    unfold slice_ok, slice_read in *.
    destruct (slice_ptr t) as [pt|] eqn:Hpt; [|done].
    destruct Ht as (arrt & Harrt & Htlc & Htca).
    assert (p ≠ pt) as Hne.
    { intros Heq. apply (is_fresh (dom arrays)). fold p. rewrite Heq.
      by eapply elem_of_dom_2. }
    rewrite lookup_insert_ne by done. rewrite Harrt.
    split; [done|]. split; [by eauto|]. intros [= Heq]. done.
Qed.

End appendMore.

Section QueryChainsTheory.

Context {Order : Type}.
Implicit Types (σ : store Order) (query q d : Query) (b : builder Order)
               (bs : list (builder Order)).

Lemma call_keeps_origin σ q d b d' σ' :
  derives σ q d →
  call σ d b = Some (d', σ') →
  (Query_Changes q = None ∨ ∀ field value, b ≠ BSet field value) →
  observe σ' q = observe σ q ∧ derives σ' q d'.
Proof.
  intros Hd Hcall Hset. pose proof Hd as [Hj Ho].
  destruct b; simpl in Hcall;
    try (injection Hcall as <- <-; split; [reflexivity|exact Hd]).
  - unfold Query_Join, JoinWith in Hcall. unfold observe, derives.
    case_decide;
      match type of Hcall with context [append ?a ?s ?xs] =>
        destruct (append_extends a _ s xs Hj) as [Hread Hext];
        destruct (append a s xs) as [s' arrays'] end;
      injection Hcall as <- <-; simpl in *; by rewrite Hread.
  - unfold JoinWith in Hcall. unfold observe, derives.
    case_decide;
      match type of Hcall with context [append ?a ?s ?xs] =>
        destruct (append_extends a _ s xs Hj) as [Hread Hext];
        destruct (append a s xs) as [s' arrays'] end;
      injection Hcall as <- <-; simpl in *; by rewrite Hread.
  - unfold Query_Order in Hcall. unfold observe, derives.
    match type of Hcall with context [append ?a ?s ?xs] =>
      destruct (append_extends a _ s xs Ho) as [Hread Hext];
      destruct (append a s xs) as [s' arrays'] end.
    injection Hcall as <- <-; simpl in *; by rewrite Hread.
  - unfold Lock in Hcall. destruct (Query_repo d) as [repo|]; [|done].
    simpl in Hcall. destruct (negb (inTransaction repo)), lock;
      injection Hcall as <- <-; (split; [reflexivity|exact Hd]).
  - destruct Hset as [Hnone|Hno]; [|by destruct (Hno field value)].
    unfold Query_Set in Hcall. unfold observe. rewrite Hnone.
    destruct (Query_Changes d); injection Hcall as <- <-;
      (split; [reflexivity|exact Hd]).
Qed.

Lemma calls_keep_origin q bs :
  Query_Changes q = None ∨ (∀ field value, BSet field value ∉ bs) →
  ∀ σ d q' σ',
    derives σ q d → calls σ d bs = Some (q', σ') → observe σ' q = observe σ q.
Proof.
  induction bs as [|b bs IH]; intros Hset σ d q' σ' Hd; simpl.
  - by intros [= _ <-].
  - destruct (call σ d b) as [[d1 σ1]|] eqn:Hcall; [|done].
    destruct (call_keeps_origin σ q d b d1 σ1 Hd Hcall) as [Hobs Hd1].
    { destruct Hset as [Hnone|Hno]; [by left|right].
      intros field value ->. apply (Hno field value). by left. }
    intros Hrest. rewrite <- Hobs. apply (IH) with (d := d1) (q' := q'); [|done|done].
    destruct Hset as [Hnone|Hno]; [by left|right].
    intros field value Hin. apply (Hno field value). by right.
Qed.

(** X8.  A descriptor that fits its store is never changed by a chain of
    builder calls that starts from it, provided it has no map of pending
    changes or the chain has no [Set]: whatever the calls of the chain do to
    the descriptors they return, the fields, the joins, the orders and the
    pending changes of the descriptor the chain started from are afterwards
    what they were. *)
Theorem chain_leaves_origin σ q bs q' σ' :
  query_ok σ q →
  Query_Changes q = None ∨ (∀ field value, BSet field value ∉ bs) →
  calls σ q bs = Some (q', σ') →
  observe σ' q = observe σ q.
Proof.
  intros (Hj & Ho & _) Hset Hcalls.
  apply (calls_keep_origin q bs Hset σ q q' σ'); [|done].
  split; by apply slice_extends_refl.
Qed.


Lemma Query_Order_unfold σ q (order : list Order) :
  Query_Order σ q order
  = (with_OrderClause q (append (store_orders σ) (Query_OrderClause q) order).1,
     with_orders σ (append (store_orders σ) (Query_OrderClause q) order).2).
Proof. unfold Query_Order. by destruct (append _ _ _). Qed.

(** X9.  [Order] accumulates: on a descriptor whose order slice fits the
    store, [Order(a...).Order(b...)] shows the orders of the receiver
    followed by those of [a] and those of [b], which is what
    [Order(a..., b...)] shows; [Order()] without arguments shows the orders
    of the receiver. *)
Theorem Order_accumulates σ q (a b : list Order) :
  slice_ok (store_orders σ) (Query_OrderClause q) →
  let shown r := slice_read (store_orders r.2) (Query_OrderClause r.1) in
  let r1 := Query_Order σ q a in
  shown (Query_Order r1.2 r1.1 b)
  = slice_read (store_orders σ) (Query_OrderClause q) ++ a ++ b
  ∧ shown (Query_Order r1.2 r1.1 b) = shown (Query_Order σ q (a ++ b))
  ∧ shown (Query_Order σ q []) = slice_read (store_orders σ) (Query_OrderClause q).
Proof.
  intros Hok shown r1. subst shown r1. simpl.
  rewrite !Query_Order_unfold. simpl.
  destruct (append_read (store_orders σ) (Query_OrderClause q) a Hok) as [Ha Hok1].
  destruct (append_read _ _ b Hok1) as [Hb _].
  destruct (append_read (store_orders σ) (Query_OrderClause q) (a ++ b) Hok) as [Hab _].
  destruct (append_read (store_orders σ) (Query_OrderClause q) [] Hok) as [Hnil _].
  rewrite Hb, Ha, Hab, Hnil. by rewrite app_assoc, app_nil_r.
Qed.

(** X10.  Two descriptors derived by [Order] from the same receiver share
    its backing array when it has room: if the order slice of [q] has spare
    capacity, then after [q1 := q.Order(a)] and [q2 := q.Order(b)] the
    descriptor [q1] shows [b], not [a], as its last order, while [q] still
    shows what it showed. *)
Theorem Order_siblings_share_array σ q p arr (a b : Order) :
  slice_ptr (Query_OrderClause q) = Some p →
  store_orders σ !! p = Some arr →
  slice_len (Query_OrderClause q) < slice_cap (Query_OrderClause q) →
  slice_cap (Query_OrderClause q) ≤ length arr →
  let old := slice_read (store_orders σ) (Query_OrderClause q) in
  let r1 := Query_Order σ q [a] in
  let r2 := Query_Order r1.2 q [b] in
  slice_read (store_orders r1.2) (Query_OrderClause r1.1) = old ++ [a]
  ∧ slice_read (store_orders r2.2) (Query_OrderClause r2.1) = old ++ [b]
  ∧ slice_read (store_orders r2.2) (Query_OrderClause r1.1) = old ++ [b]
  ∧ slice_read (store_orders r2.2) (Query_OrderClause q) = old.
Proof.
  intros Hp Harr Hlen Hcap old r1 r2. subst old r1 r2.
  rewrite !Query_Order_unfold. simpl.
  set (n := slice_len (Query_OrderClause q)) in *.
  unfold append. simpl. rewrite !decide_True by (fold n; lia). rewrite Hp. simpl.
  unfold slice_read. simpl. rewrite Hp. fold n.
  rewrite !lookup_alter_eq, Harr. simpl.
  assert (length (take n arr) = n) as Htake by (rewrite length_take; lia).
  assert (∀ (x : Order) (l t : list Order),
            length l = n → take n (l ++ x :: t) = l) as Hfront.
  { intros x l t Hl. by rewrite take_app_length'. }
  assert (∀ (x : Order) (l t : list Order),
            length l = n → take (n + 1) (l ++ x :: t) = l ++ [x]) as Hnext.
  { intros x l t Hl. rewrite (cons_middle x), app_assoc.
    apply take_app_length'. rewrite length_app. simpl. lia. }
  rewrite (Hfront a) by done. rewrite !Hnext, !Hfront by done. done.
Qed.

(** X11.  On a descriptor that fits its store, the descriptor [Set] returns
    has as pending changes those of the receiver with the field set to the
    value (a nil map counting as empty), and differs from the receiver in no
    other field; two [Set] calls in a row accumulate, the later one
    winning on the same field. *)
Theorem Query_Set_result σ q field value field' value' :
  query_ok σ q →
  let before := default ∅ (view_Changes (observe σ q)) in
  let r := Query_Set σ q field value in
  let r' := Query_Set r.2 r.1 field' value' in
  view_Changes (observe r.2 r.1) = Some (<[field := value]> before)
  ∧ with_Changes r.1 (Query_Changes q) = q
  ∧ query_ok r.2 r.1
  ∧ view_Changes (observe r'.2 r'.1)
    = Some (<[field' := value']> (<[field := value]> before)).
Proof.
  intros (Hj & Ho & Hm) before r r'. subst before r r'.
  unfold Query_Set, observe, query_ok.
  destruct (Query_Changes q) as [p|] eqn:Hp; simpl.
  - destruct Hm as [m Hm].
    rewrite ?Hp, ?lookup_alter_eq, ?Hm; simpl.
    rewrite ?Hp, ?lookup_alter_eq, ?Hm; simpl.
    split; [done|]. split; [by destruct q; simplify_eq/=|].
    split; [by eauto|].
    by rewrite ?lookup_alter_eq, ?Hm.
  - rewrite ?lookup_insert_eq; simpl.
    rewrite ?lookup_alter_eq, ?lookup_insert_eq; simpl.
    split; [done|]. split; [by destruct q; simplify_eq/=|].
    split; [by eauto|]. done.
Qed.

(** What one builder call never changes, and when it changes the lock. *)
Lemma call_keeps_repo σ q b q1 σ1 :
  call σ q b = Some (q1, σ1) →
  Query_repo q1 = Query_repo q
  ∧ Query_Collection q1 = Query_Collection q
  ∧ Query_AggregateField q1 = Query_AggregateField q
  ∧ Query_AggregateMode q1 = Query_AggregateMode q
  ∧ (Query_LockClause q1 ≠ Query_LockClause q →
     ∃ repo lock, Query_repo q = Some repo ∧ inTransaction repo = true
                  ∧ b = BLock lock)
  ∧ (Query_repo q = None → ∀ lock, b ≠ BLock lock).
Proof.
  intros Hcall.
  destruct b; simpl in Hcall;
    try (injection Hcall as <- <-; by repeat split).
  - unfold Query_Join, JoinWith in Hcall.
    case_decide; destruct (append _ _ _); injection Hcall as <- <-;
      by repeat split.
  - unfold JoinWith in Hcall.
    case_decide; destruct (append _ _ _); injection Hcall as <- <-;
      by repeat split.
  - unfold Query_Order in Hcall.
    destruct (append _ _ _); injection Hcall as <- <-; by repeat split.
  - unfold Lock in Hcall. destruct (Query_repo q) as [repo|] eqn:Hrepo; [|done].
    simpl in Hcall.
    destruct (inTransaction repo) eqn:Htx; simpl in Hcall.
    + destruct lock; injection Hcall as <- <-; simpl;
        (split; [done|]); (split; [done|]); (split; [done|]); (split; [done|]);
        (split; [|done]); intros _; by eexists _, _.
    + injection Hcall as <- <-. by repeat split.
  - unfold Query_Set in Hcall.
    destruct (Query_Changes q); injection Hcall as <- <-; by repeat split.
Qed.

(** X12.  Along a chain of builder calls that returns, the repo, the
    collection and the aggregate of the descriptor never change; the lock
    clause never changes unless the repo is in a transaction and the chain
    calls [Lock]; and a chain that starts from a descriptor without repo has
    no [Lock] in it, [Lock] panicking there. *)
Theorem chain_locks_only_in_transaction σ q bs q' σ' :
  calls σ q bs = Some (q', σ') →
  Query_repo q' = Query_repo q
  ∧ Query_Collection q' = Query_Collection q
  ∧ Query_AggregateField q' = Query_AggregateField q
  ∧ Query_AggregateMode q' = Query_AggregateMode q
  ∧ (Query_LockClause q' ≠ Query_LockClause q →
     ∃ repo lock, Query_repo q = Some repo ∧ inTransaction repo = true
                  ∧ BLock lock ∈ bs)
  ∧ (Query_repo q = None → ∀ lock, BLock lock ∉ bs).
Proof.
  revert σ q. induction bs as [|b bs IH]; intros σ q; simpl.
  - intros [= <- <-]. repeat split; try done.
    intros _ lock. apply not_elem_of_nil.
  - destruct (call σ q b) as [[q1 σ1]|] eqn:Hcall; [|done].
    intros Hrest.
    destruct (call_keeps_repo _ _ _ _ _ Hcall)
      as (Hr1 & Hc1 & Hf1 & Hm1 & Hl1 & Hn1).
    destruct (IH _ _ Hrest) as (Hr & Hc & Hf & Hm & Hl & Hn).
    split; [congruence|]. split; [congruence|]. split; [congruence|].
    split; [congruence|]. split.
    + intros Hne.
      destruct (decide (Query_LockClause q1 = Query_LockClause q)) as [Heq|Hne1].
      * destruct Hl as (repo & lock & Hrepo & Htx & Hin); [congruence|].
        exists repo, lock. rewrite <- Hr1. split; [done|]. split; [done|].
        by right.
      * destruct (Hl1 Hne1) as (repo & lock & Hrepo & Htx & ->).
        exists repo, lock. split; [done|]. split; [done|]. by left.
    + intros Hnone lock [Heq|Hin]%elem_of_cons.
      * by apply (Hn1 Hnone lock).
      * apply (Hn ltac:(congruence) lock Hin).
Qed.

End QueryChainsTheory.

(** X8 at a chain of four calls from the descriptor over "posts". *)
Lemma chain_leaves_origin_witness :
  query_ok empty_store posts_query
  ∧ ∃ r, calls empty_store posts_query
           [BWhere [c_Eq (c_I "id") (VInt 1)]; BSet "title" (VStr "a");
            BOrder [()]; BJoin "comments" []] = Some r
         ∧ observe r.2 posts_query = observe empty_store posts_query.
Proof.
  assert (Hok : query_ok empty_store posts_query) by done.
  split; [exact Hok|].
  destruct (calls empty_store posts_query
              [BWhere [c_Eq (c_I "id") (VInt 1)]; BSet "title" (VStr "a");
               BOrder [()]; BJoin "comments" []]) as [[q' σ']|] eqn:Hcalls.
  - exists (q', σ'). split; [reflexivity|].
    exact (chain_leaves_origin empty_store posts_query _ q' σ' Hok
             (or_introl eq_refl) Hcalls).
  - vm_compute in Hcalls. discriminate Hcalls.
Defined.

(** X9 at [Order(1).Order(2, 3)] on the descriptor over "posts". *)
Lemma Order_accumulates_witness :
  slice_ok (store_orders (mkStore (Order := nat) ∅ ∅ ∅)) (Query_OrderClause posts_query)
  ∧ (let r1 := Query_Order (mkStore (Order := nat) ∅ ∅ ∅) posts_query [1] in
     let r2 := Query_Order r1.2 r1.1 [2; 3] in
     slice_read (store_orders r2.2) (Query_OrderClause r2.1) = [1; 2; 3]).
Proof.
  assert (Hok : slice_ok (store_orders (mkStore (Order := nat) ∅ ∅ ∅))
                         (Query_OrderClause posts_query)) by done.
  split; [exact Hok|].
  exact (proj1 (Order_accumulates (mkStore (Order := nat) ∅ ∅ ∅) posts_query
                  [1] [2; 3] Hok)).
Defined.

(** X10 at the descriptor with room for one more order: after
    [q.Order(1)] and [q.Order(2)] the first result shows 10, 2. *)
Lemma Order_siblings_share_array_witness :
  slice_len (Query_OrderClause roomy_query) < slice_cap (Query_OrderClause roomy_query)
  ∧ (let r1 := Query_Order roomy_store roomy_query [1] in
     let r2 := Query_Order r1.2 roomy_query [2] in
     slice_read (store_orders r1.2) (Query_OrderClause r1.1) = [10; 1]
     ∧ slice_read (store_orders r2.2) (Query_OrderClause r1.1) = [10; 2]).
Proof.
  split; [simpl; lia|].
  destruct (Order_siblings_share_array roomy_store roomy_query 0 [10; 0] 1 2
              eq_refl eq_refl ltac:(simpl; lia) ltac:(simpl; lia))
    as (H1 & _ & H3 & _).
  split; [exact H1|exact H3].
Defined.

(** X11 at [Query{}.Set("a", 1).Set("a", 2)]. *)
Lemma Query_Set_result_witness :
  query_ok empty_store Query_zero
  ∧ (let r := Query_Set empty_store Query_zero "a" (VInt 1) in
     let r' := Query_Set r.2 r.1 "a" (VInt 2) in
     view_Changes (observe r'.2 r'.1) = Some (<["a" := VInt 2]> ∅)).
Proof.
  assert (Hok : query_ok empty_store Query_zero) by done.
  split; [exact Hok|].
  destruct (Query_Set_result empty_store Query_zero "a" (VInt 1) "a" (VInt 2) Hok)
    as (_ & _ & _ & Htwice).
  intros r r'. subst r r'. rewrite Htwice. reflexivity.
Defined.

(** X12 at a chain of two calls from the descriptor over "posts", which has
    no repo. *)
Lemma chain_locks_only_in_transaction_witness :
  ∃ r, calls empty_store posts_query [BWhere []; BLimit 3] = Some r
       ∧ Query_Collection r.1 = "posts"
       ∧ Query_LockClause r.1 = "".
Proof.
  eexists (_, _). split; [reflexivity|].
  destruct (chain_locks_only_in_transaction empty_store posts_query
              [BWhere []; BLimit 3] _ _ eq_refl) as (_ & Hc & _).
  split; [exact Hc|reflexivity].
Defined.

(** ** The helpers of insert and update *)

Section RangeLoops.

Context {V : Type}.
Implicit Types (out m : gmap string V) (l : list (string * V)).

Lemma fold_insert_other l out k :
  k ∉ l.*1 → foldl (λ out kv, <[kv.1 := kv.2]> out) out l !! k = out !! k.
Proof.
  revert out. induction l as [|[k' v'] l IH]; intros out Hk; simpl; [done|].
  apply not_elem_of_cons in Hk as [Hne Hk]. simpl in Hne.
  rewrite IH by done. by rewrite lookup_insert_ne.
Qed.

Lemma fold_insert_entry l out k v :
  NoDup l.*1 → (k, v) ∈ l →
  foldl (λ out kv, <[kv.1 := kv.2]> out) out l !! k = Some v.
Proof.
  revert out. induction l as [|[k' v'] l IH]; intros out Hnd Hin; simpl.
  - by apply elem_of_nil in Hin.
  - apply NoDup_cons in Hnd as [Hk' Hnd].
    apply elem_of_cons in Hin as [[= <- <-]|Hin].
    + rewrite fold_insert_other by done. apply lookup_insert_eq.
    + by apply IH.
Qed.

Lemma fold_insert_filter (keep : string * V → bool) l out :
  foldl (λ out kv, if keep kv then <[kv.1 := kv.2]> out else out) out l
  = foldl (λ out kv, <[kv.1 := kv.2]> out) out (filter (λ kv, keep kv = true) l).
Proof.
  revert out. induction l as [|kv l IH]; intros out; simpl; [done|].
  rewrite filter_cons. destruct (keep kv) eqn:Hkeep.
  - rewrite decide_True by done. simpl. apply IH.
  - rewrite decide_False by done. apply IH.
Qed.

Lemma foldl_pointwise {A B} (f g : A → B → A) (l : list B) (a : A) :
  (∀ a b, f a b = g a b) → foldl f a l = foldl g a l.
Proof.
  intros Hfg. revert a. induction l as [|b l IH]; intros a; simpl; [done|].
  by rewrite Hfg, IH.
Qed.

Lemma ranges_over_NoDup m l : ranges_over m l → NoDup l.*1.
Proof. intros ->. apply NoDup_fst_map_to_list. Qed.

Lemma ranges_over_elem m l k v : ranges_over m l → (k, v) ∈ l ↔ m !! k = Some v.
Proof. intros ->. apply elem_of_map_to_list. Qed.

Lemma ranges_over_key m l k : ranges_over m l → k ∈ l.*1 ↔ is_Some (m !! k).
Proof.
  intros Hl. rewrite list_elem_of_fmap. split.
  - intros ([k' v] & -> & Hin). exists v. by apply (ranges_over_elem m l).
  - intros [v Hv]. exists (k, v). split; [done|]. by apply (ranges_over_elem m l).
Qed.

Lemma ranges_over_empty : ranges_over (∅ : gmap string V) [].
Proof. unfold ranges_over. by rewrite map_to_list_empty. Qed.

Lemma ranges_over_insert m l k v :
  ranges_over m l → m !! k = None → ranges_over (<[k := v]> m) ((k, v) :: l).
Proof.
  unfold ranges_over. intros Hl Hk.
  rewrite map_to_list_insert by done. by rewrite Hl.
Qed.

End RangeLoops.

(** The loops of [cloneQuery] and [cloneChangeset], which write the entries
    that [keep] selects: on a map, on the nil map, and after a panic. *)
Lemma clone_loop_map (keep : string * any → bool) l out :
  foldl (λ acc kv, acc ≫= λ m, if keep kv then strmap_set m kv.1 kv.2 else Some m)
        (Some (strmap_of out)) l
  = Some (strmap_of
            (foldl (λ out kv, if keep kv then <[kv.1 := kv.2]> out else out)
                   out l)).
Proof.
  revert out. induction l as [|kv l IH]; intros out; simpl; [done|].
  destruct (keep kv); simpl; apply IH.
Qed.

Lemma clone_loop_panic (keep : string * any → bool) l :
  foldl (λ acc kv, acc ≫= λ m, if keep kv then strmap_set m kv.1 kv.2 else Some m)
        None l
  = None.
Proof. induction l as [|kv l IH]; simpl; [done|apply IH]. Qed.

Lemma clone_loop_nil (keep : string * any → bool) l :
  foldl (λ acc kv, acc ≫= λ m, if keep kv then strmap_set m kv.1 kv.2 else Some m)
        (Some strmap_nil) l
  = if existsb keep l then None else Some strmap_nil.
Proof.
  induction l as [|kv l IH]; simpl; [done|].
  destruct (keep kv); simpl; [apply clone_loop_panic|apply IH].
Qed.

Lemma ranges_over_nil (changes : gmap string any) entries :
  ranges_over changes entries → entries = [] ↔ changes = ∅.
Proof.
  unfold ranges_over. intros Hr. split.
  - intros ->. apply Permutation_nil in Hr.
    by apply map_to_list_empty_iff.
  - intros ->. rewrite map_to_list_empty in Hr. symmetry in Hr.
    by apply Permutation_nil.
Qed.

(** X13.  Whatever the order in which the [range] visits [changes], on an
    [out] that is a map [cloneQuery] leaves in it the map [changes] laid
    over its former content: every key of [changes] has its value from
    [changes], overriding what [out] held, and every other key of [out] is
    kept.  On a nil [out] it panics, unless [changes] has no entry: then it
    returns, [out] being nil as before. *)
Theorem cloneQuery_lays_over (changes : gmap string any) entries :
  ranges_over changes entries →
  (∀ out, ∃ out',
     cloneQuery (strmap_of out) entries = Some (strmap_of out')
     ∧ out' = changes ∪ out
     ∧ (∀ k v, changes !! k = Some v → out' !! k = Some v)
     ∧ (∀ k, changes !! k = None → out' !! k = out !! k))
  ∧ (changes ≠ ∅ → cloneQuery strmap_nil entries = None)
  ∧ (changes = ∅ → cloneQuery strmap_nil entries = Some strmap_nil).
Proof.
  intros Hr. pose proof (ranges_over_NoDup _ _ Hr) as Hnd.
  split; [|split].
  - intros out. unfold cloneQuery.
    change (λ (out0 : option strmap) (kv : string * any),
              out0 ≫= λ m, strmap_set m kv.1 kv.2)
      with (λ (acc : option strmap) (kv : string * any),
              acc ≫= λ m, if (λ _, true) kv then strmap_set m kv.1 kv.2 else Some m).
    rewrite clone_loop_map. simpl.
    eexists. split; [reflexivity|].
    assert (∀ k v, changes !! k = Some v →
                   foldl (λ out kv, <[kv.1 := kv.2]> out) out entries !! k = Some v)
      as Hin.
    { intros k v Hk. apply fold_insert_entry; [done|].
      by apply (ranges_over_elem changes entries). }
    assert (∀ k, changes !! k = None →
                 foldl (λ out kv, <[kv.1 := kv.2]> out) out entries !! k = out !! k)
      as Hout.
    { intros k Hk. apply fold_insert_other.
      rewrite (ranges_over_key changes entries) by done. rewrite Hk.
      by intros [? ?]. }
    split; [|done]. apply map_eq. intros k. rewrite lookup_union.
    destruct (changes !! k) as [v|] eqn:Hk.
    + rewrite (Hin k v Hk). by destruct (out !! k).
    + rewrite (Hout k Hk). by destruct (out !! k).
  - intros Hne. unfold cloneQuery.
    destruct entries as [|kv entries].
    + destruct Hne. by apply (ranges_over_nil changes []).
    + simpl. apply (clone_loop_panic (λ _, true)).
  - intros Hempty. apply (ranges_over_nil changes entries) in Hempty; [|done].
    by subst entries.
Qed.

Lemma cloneQuery_lays_over_witness :
  ranges_over (<["age" := VInt 3]> (<["name" := VStr "Ann"]> ∅))
              [("age", VInt 3); ("name", VStr "Ann")]
  ∧ cloneQuery (strmap_of (<["name" := VStr "Bob"]> (<["id" := VInt 1]> ∅)))
               [("age", VInt 3); ("name", VStr "Ann")]
    = Some (strmap_of (<["age" := VInt 3]> (<["name" := VStr "Ann"]> ∅)
                       ∪ <["name" := VStr "Bob"]> (<["id" := VInt 1]> ∅)))
  ∧ cloneQuery strmap_nil [("age", VInt 3); ("name", VStr "Ann")] = None.
Proof.
  assert (ranges_over (<["age" := VInt 3]> (<["name" := VStr "Ann"]> ∅))
                      [("age", VInt 3); ("name", VStr "Ann")]) as Hr.
  { apply ranges_over_insert; [|done].
    apply ranges_over_insert; [|done]. apply ranges_over_empty. }
  split; [exact Hr|].
  destruct (cloneQuery_lays_over _ _ Hr) as (Hmap & Hnil & _). split.
  - destruct (Hmap (<["name" := VStr "Bob"]> (<["id" := VInt 1]> ∅)))
      as (out' & Hrun & -> & _).
    exact Hrun.
  - apply Hnil. intros Hempty.
    assert ((<["age" := VInt 3]> (<["name" := VStr "Ann"]> ∅) : gmap string any)
              !! "age" = None) as Hage by (by rewrite Hempty).
    by rewrite lookup_insert_eq in Hage.
Defined.

Section InsertHelpersTheory.

Context {T : Type} `{!EqDecision T}.
Context (TypeOf : any → T) (Scannable : option T → bool).
Implicit Types (out changes : gmap string any) (chs : list (Changeset T)).

(** X14.  Whatever the order in which the [range] visits [changes], on an
    [out] that is a map [cloneChangeset] copies into it exactly the entries
    of [changes] whose value is not nil and of a scannable type; for a key
    whose change is nil or not scannable, and for a key that [changes] does
    not have, [out] keeps what it held.  On a nil [out] it panics exactly
    when [changes] has an entry to copy, and returns otherwise, [out] being
    nil as before. *)
Theorem cloneChangeset_copies_scannable changes entries :
  ranges_over changes entries →
  (∀ out, ∃ out',
     cloneChangeset TypeOf Scannable (strmap_of out) entries
     = Some (strmap_of out')
     ∧ ∀ k, out' !! k
            = match changes !! k with
              | Some v =>
                  if is_nil v || negb (Scannable (Some (TypeOf v)))
                  then out !! k else Some v
              | None => out !! k
              end)
  ∧ (cloneChangeset TypeOf Scannable strmap_nil entries = None
     ↔ ∃ k v, changes !! k = Some v
              ∧ is_nil v = false ∧ Scannable (Some (TypeOf v)) = true)
  ∧ (cloneChangeset TypeOf Scannable strmap_nil entries = None
     ∨ cloneChangeset TypeOf Scannable strmap_nil entries = Some strmap_nil).
Proof.
  intros Hr. pose proof (ranges_over_NoDup _ _ Hr) as Hnd.
  set (keep := λ kv : string * any,
         negb (is_nil kv.2 || negb (Scannable (Some (TypeOf kv.2))))).
  assert (∀ start : strmap,
            cloneChangeset TypeOf Scannable start entries
            = foldl (λ acc kv, acc ≫= λ m,
                       if keep kv then strmap_set m kv.1 kv.2 else Some m)
                    (Some start) entries) as Hloop.
  { intros start. unfold cloneChangeset. apply foldl_pointwise.
    intros [m|] kv; simpl; [|done]. unfold keep. by destruct (is_nil _ || _). }
  split; [|split].
  - intros out. rewrite Hloop, clone_loop_map.
    eexists. split; [reflexivity|]. intros k.
    rewrite (fold_insert_filter keep).
    assert (NoDup (filter (λ kv : string * any, keep kv = true) entries).*1)
      as Hnd'.
    { eapply sublist_NoDup; [exact Hnd|]. apply fmap_sublist, sublist_filter. }
    destruct (changes !! k) as [v|] eqn:Hk.
    + destruct (is_nil v || negb (Scannable (Some (TypeOf v)))) eqn:Hskip.
      * apply fold_insert_other. intros ([k' v'] & -> & Hin)%list_elem_of_fmap.
        apply list_elem_of_filter in Hin as [Hkeep Hin]. simpl in *.
        apply (ranges_over_elem changes entries) in Hin; [|done].
        assert (v' = v) as -> by congruence.
        unfold keep in Hkeep. simpl in Hkeep. by rewrite Hskip in Hkeep.
      * apply fold_insert_entry; [done|]. apply list_elem_of_filter. split.
        -- unfold keep. simpl. by rewrite Hskip.
        -- by apply (ranges_over_elem changes entries).
    + apply fold_insert_other. intros ([k' v'] & -> & Hin)%list_elem_of_fmap.
      apply list_elem_of_filter in Hin as [_ Hin]. simpl in *.
      apply (ranges_over_elem changes entries) in Hin; [|done]. congruence.
  - rewrite Hloop, clone_loop_nil.
    destruct (existsb keep entries) eqn:Hex.
    + split; [|done]. intros _.
      apply existsb_exists in Hex as ([k v] & Hin & Hkeep).
      exists k, v. split.
      * apply (ranges_over_elem changes entries); [done|].
        by apply list_elem_of_In.
      * unfold keep in Hkeep. simpl in Hkeep.
        apply negb_true_iff, orb_false_iff in Hkeep as [? Hs].
        by apply negb_false_iff in Hs.
    + split; [done|]. intros (k & v & Hk & Hnil & Hscan).
      assert (existsb keep entries = true) as Hex'; [|congruence].
      apply existsb_exists. exists (k, v). split.
      * apply list_elem_of_In. by apply (ranges_over_elem changes entries).
      * unfold keep. simpl. by rewrite Hnil, Hscan.
  - rewrite Hloop, clone_loop_nil. destruct (existsb keep entries); tauto.
Qed.

Lemma foldl_snoc_filter {A} (p : A → bool) (l acc : list A) :
  foldl (λ fields f, if p f then fields ++ [f] else fields) acc l
  = acc ++ filter (λ f, p f = true) l.
Proof.
  revert acc. induction l as [|x l IH]; intros acc; simpl.
  - by rewrite app_nil_r.
  - rewrite IH, filter_cons. destruct (p x).
    + rewrite decide_True by done. by rewrite <- app_assoc.
    + by rewrite decide_False by done.
Qed.

Lemma getFields_inner_first f chs :
  getFields_inner Scannable f chs = true ↔ first_change_scannable Scannable f chs.
Proof.
  induction chs as [|ch chs IH]; simpl.
  - split; [done|]. by intros (i & ch & Hch & _).
  - destruct (Changeset_Changes ch !! f) as [v|] eqn:Hf.
    + split.
      * intros Hscan. exists 0, ch. split; [done|]. split; [by eauto|].
        split; [|done]. intros j ch' Hj. lia.
      * intros (i & ch' & Hch' & Hsome & Hfirst & Hscan).
        destruct i as [|i]; [by simplify_eq/=|].
        specialize (Hfirst 0 ch ltac:(lia) eq_refl). congruence.
    + rewrite IH. split.
      * intros (i & ch' & Hch' & Hsome & Hfirst & Hscan).
        exists (S i), ch'. split; [done|]. split; [done|]. split; [|done].
        intros [|j] ch'' Hj; simpl; [by intros [= <-]|].
        apply Hfirst. lia.
      * intros (i & ch' & Hch' & Hsome & Hfirst & Hscan).
        destruct i as [|i]; simpl in Hch'.
        { injection Hch' as <-. rewrite Hf in Hsome. by destruct Hsome. }
        exists i, ch'. split; [done|]. split; [done|]. split; [|done].
        intros j ch'' Hj Hlook. apply (Hfirst (S j) ch''); [lia|done].
Qed.

(** X15.  On a list of change sets that is not empty, whatever the order in
    which the [range] visits the types of the first change set, [getFields]
    returns fields of the first change set's types, each at most once, in
    the order of the visit: "created_at" and "updated_at" whenever the first
    change set declares them, and any other field exactly when the first
    change set that has a change of it declares a scannable type for it.  On
    an empty list it panics. *)
Theorem getFields_lists_changed_fields order ch0 chs :
  order ≡ₚ (map_to_list (Changeset_Types ch0)).*1 →
  (∃ fields,
     getFields Scannable order (ch0 :: chs) = Some fields
     ∧ NoDup fields
     ∧ fields `sublist_of` order
     ∧ ∀ f, f ∈ fields
            ↔ is_Some (Changeset_Types ch0 !! f)
              ∧ (f = "created_at" ∨ f = "updated_at"
                 ∨ first_change_scannable Scannable f (ch0 :: chs)))
  ∧ getFields Scannable order [] = None.
Proof.
  intros Horder. split; [|done].
  assert (NoDup order) as Hnd.
  { rewrite Horder. apply NoDup_fst_map_to_list. }
  assert (∀ f, f ∈ order ↔ is_Some (Changeset_Types ch0 !! f)) as Hkeys.
  { intros f. rewrite Horder.
    apply (ranges_over_key (Changeset_Types ch0)). by unfold ranges_over. }
  unfold getFields.
  rewrite (foldl_pointwise _
             (λ fields f,
                if bool_decide (f = "created_at") || bool_decide (f = "updated_at")
                   || getFields_inner Scannable f (ch0 :: chs)
                then fields ++ [f] else fields))
    by (intros fields f;
        by destruct (bool_decide (f = "created_at") || bool_decide (f = "updated_at"))).
  rewrite (foldl_snoc_filter
             (λ f, bool_decide (f = "created_at") || bool_decide (f = "updated_at")
                   || getFields_inner Scannable f (ch0 :: chs))).
  eexists. split; [reflexivity|]. simpl app.
  split; [by apply NoDup_filter|]. split; [apply sublist_filter|].
  intros f. rewrite list_elem_of_filter, Hkeys.
  pose proof (getFields_inner_first f (ch0 :: chs)) as Hfirst. simpl in Hfirst.
  rewrite !orb_true_iff, !bool_decide_eq_true.
  tauto.
Qed.

End InsertHelpersTheory.

Lemma cloneChangeset_copies_scannable_witness :
  ranges_over (<["tags" := VArgs []]> (<["name" := VStr "Ann"]> ∅))
              [("tags", VArgs []); ("name", VStr "Ann")]
  ∧ (∃ out', cloneChangeset named_TypeOf named_Scannable
               (strmap_of (<["tags" := VInt 0]> ∅))
               [("tags", VArgs []); ("name", VStr "Ann")]
             = Some (strmap_of out')
             ∧ out' !! "tags" = Some (VInt 0)
             ∧ out' !! "name" = Some (VStr "Ann"))
  ∧ cloneChangeset named_TypeOf named_Scannable strmap_nil
      [("tags", VArgs []); ("name", VStr "Ann")] = None.
Proof.
  assert (ranges_over (<["tags" := VArgs []]> (<["name" := VStr "Ann"]> ∅))
                      [("tags", VArgs []); ("name", VStr "Ann")]) as Hr.
  { apply ranges_over_insert; [|done].
    apply ranges_over_insert; [|done]. apply ranges_over_empty. }
  split; [exact Hr|].
  destruct (cloneChangeset_copies_scannable named_TypeOf named_Scannable _ _ Hr)
    as (Hmap & Hnil & _).
  split.
  - destruct (Hmap (<["tags" := VInt 0]> ∅)) as (out' & Hrun & Hout').
    exists out'. split; [exact Hrun|]. split.
    + rewrite (Hout' "tags"). reflexivity.
    + rewrite (Hout' "name"). reflexivity.
  - apply Hnil. exists "name", (VStr "Ann"). split; [reflexivity|].
    split; reflexivity.
Defined.

Lemma getFields_lists_changed_fields_witness :
  let types : gmap string string :=
    <["created_at" := "time.Time"]> (<["name" := "string"]> ∅) in
  let ch0 := mkChangeset (<["name" := VStr "Ann"]> ∅) types in
  ["created_at"; "name"] ≡ₚ (map_to_list (Changeset_Types ch0)).*1
  ∧ ∃ fields,
      getFields named_Scannable ["created_at"; "name"] [ch0] = Some fields
      ∧ ∀ f, f ∈ fields
             ↔ is_Some (Changeset_Types ch0 !! f)
               ∧ (f = "created_at" ∨ f = "updated_at"
                  ∨ first_change_scannable named_Scannable f [ch0]).
Proof.
  intros types ch0.
  assert (["created_at"; "name"] ≡ₚ (map_to_list (Changeset_Types ch0)).*1) as Hr.
  { change ([("created_at", "time.Time"); ("name", "string")].*1
            ≡ₚ (map_to_list types).*1).
    apply fmap_Permutation.
    apply (ranges_over_insert (<["name" := "string"]> ∅)); [|done].
    apply (ranges_over_insert ∅); [|done]. apply ranges_over_empty. }
  split; [exact Hr|].
  destruct (getFields_lists_changed_fields named_Scannable _ ch0 [] Hr)
    as [(fields & Hfields & _ & _ & Hin) _].
  exists fields. split; [exact Hfields|exact Hin].
Defined.

(** ** More on [collectPreloadTarget] *)

Section PreloadTargetsMore.

Context {ID : Type} `{!EqDecision ID, !Countable ID}.
Context (hashable self_equal : ID → bool).
Context {REC : Type} `{!Inhabited REC}.
Implicit Types (σ : gmap loc (slot REC)) (t : preloadTarget ID)
               (pairs : list (ID * loc)).

(** What the loop has collected from given contributions is determined but
    for the store it started from. *)
Lemma collected_agree σ1 σ2 pairs
    (st1 st2 : addrmap ID * list ID * gmap loc (slot REC)) :
  collected self_equal σ1 pairs st1 → collected self_equal σ2 pairs st2 →
  st1.1.1 = st2.1.1 ∧ st1.1.2 = st2.1.2.
Proof.
  intros (Hids1 & Haddrs1 & Hlost1 & _) (Hids2 & Haddrs2 & Hlost2 & _). split.
  - destruct st1 as [[[found1 lost1] ?] ?], st2 as [[[found2 lost2] ?] ?].
    simpl in *. f_equal; [|congruence].
    apply map_eq. intros id. by rewrite Haddrs1, Haddrs2.
  - by rewrite Hids1, Hids2.
Qed.

(** A run that returns had only collectable targets, and has collected
    their contributions. *)
Lemma collectPreloadTarget_returns σ (preload : list (preloadTarget ID)) refIndex st :
  collectPreloadTarget hashable self_equal σ preload refIndex = Some st →
  (∀ t, t ∈ preload → collectable hashable σ refIndex t = true)
  ∧ collected self_equal σ (omap (contribution refIndex) preload) st.
Proof.
  intros Hrun.
  assert (∀ t, t ∈ preload → collectable hashable σ refIndex t = true) as Hable.
  { intros t Ht. destruct (collectable hashable σ refIndex t) eqn:Hc; [done|].
    assert (collectPreloadTarget hashable self_equal σ preload refIndex = None)
      as Hnone; [|congruence].
    apply (collect_loop_panics hashable self_equal σ refIndex preload []
             _ (collected_nil self_equal σ)).
    by exists t. }
  split; [done|].
  destruct (collect_loop_collected hashable self_equal σ refIndex preload []
              _ (collected_nil self_equal σ) Hable) as (st' & Hloop & Hst').
  unfold collectPreloadTarget in Hrun. by simplify_eq.
Qed.

(** X16.  When [collectPreloadTarget] returns, collecting a second time,
    from the store the first collection left, returns the same address map
    and the same keys and leaves the store as it is: the reset of the slices
    and arrays happens once. *)
Theorem collectPreloadTarget_twice σ (preload : list (preloadTarget ID)) refIndex
    addrs ids σ' :
  collectPreloadTarget hashable self_equal σ preload refIndex
  = Some (addrs, ids, σ') →
  collectPreloadTarget hashable self_equal σ' preload refIndex
  = Some (addrs, ids, σ').
Proof.
  intros Hrun.
  destruct (collectPreloadTarget_returns _ _ _ _ Hrun) as [Hable Hst].
  pose proof (collected_same_kinds _ _ _ _ Hst) as Hkinds. simpl in Hkinds.
  destruct (collect_loop_collected hashable self_equal σ' refIndex preload []
              _ (collected_nil self_equal σ'))
    as ([[addrs2 ids2] σ''] & Hloop2 & Hst2).
  { intros t Ht. rewrite (collectable_same_kinds hashable σ σ') by done.
    by apply Hable. }
  simpl in Hst2.
  destruct (collected_agree _ _ _ _ _ Hst Hst2) as [Ha Hi]. simpl in Ha, Hi.
  unfold collectPreloadTarget. rewrite Hloop2. subst addrs2 ids2.
  do 2 f_equal. apply map_eq. intros l.
  destruct Hst as (_ & _ & _ & Hstore), Hst2 as (_ & _ & _ & Hstore2).
  simpl in Hstore, Hstore2. rewrite Hstore2, Hstore.
  case_decide; [|done].
  destruct (σ !! l) as [fv|]; simpl; [|done]. by rewrite reset_reset.
Qed.

(** X17.  [collectPreloadTarget] panics exactly when one of its targets is
    not collectable, that is when, for one of the targets, [FieldByIndex]
    panics, or the reference it answers is not a nil pointer and either was
    reached through an unexported field (so that [Interface] panics in
    [getPreloadID]), or cannot be hashed as a key of the address map, or the
    relation slot is a slice or an array that cannot be set. *)
Theorem collectPreloadTarget_panics_exactly σ (preload : list (preloadTarget ID))
    refIndex :
  (collectPreloadTarget hashable self_equal σ preload refIndex = None
   ↔ ∃ t, t ∈ preload ∧ collectable hashable σ refIndex t = false)
  ∧ ∀ t, collectable hashable σ refIndex t = false
         ↔ preloadTarget_schema t refIndex = None
           ∨ ∃ can id,
               (preloadTarget_schema t refIndex = Some (RefPtr can id)
                ∨ preloadTarget_schema t refIndex = Some (RefValue can id))
               ∧ (can = false
                  ∨ hashable id = false
                  ∨ ∃ fv, σ !! preloadTarget_field t = Some fv
                          ∧ (slot_Kind fv = reflect_Slice
                             ∨ slot_Kind fv = reflect_Array)
                          ∧ preloadTarget_CanSet t = false).
Proof.
  split.
  - apply (collect_loop_panics hashable self_equal σ refIndex preload []
             _ (collected_nil self_equal σ)).
  - intros t. unfold collectable.
    destruct (preloadTarget_schema t refIndex) as [[|can id|can id]|].
    + split; [done|]. intros [[=]|(can & id & [[=]|[=]] & _)].
    + split.
      * intros Hc. right. exists can, id. split; [by left|].
        destruct can; [|by left]. destruct (hashable id); [|by right; left].
        simpl in Hc. destruct (σ !! preloadTarget_field t) as [fv|]; [|done].
        right; right. exists fv. split; [done|].
        destruct fv; simpl in *; try done; tauto.
      * intros [[=]|(can' & id' & [[= <- <-]|[=]] & Hwhy)].
        destruct Hwhy as [->|[->|(fv & -> & Hkind & ->)]];
          rewrite ?andb_false_r; try done.
        destruct fv, Hkind; simpl in *; try done; by rewrite andb_false_r.
    + split.
      * intros Hc. right. exists can, id. split; [by right|].
        destruct can; [|by left]. destruct (hashable id); [|by right; left].
        simpl in Hc. destruct (σ !! preloadTarget_field t) as [fv|]; [|done].
        right; right. exists fv. split; [done|].
        destruct fv; simpl in *; try done; tauto.
      * intros [[=]|(can' & id' & [[=]|[= <- <-]] & Hwhy)].
        destruct Hwhy as [->|[->|(fv & -> & Hkind & ->)]];
          rewrite ?andb_false_r; try done.
        destruct fv, Hkind; simpl in *; try done; by rewrite andb_false_r.
    + split; [by left|done].
Qed.

(** The contributions, grouped by the keys in any order that has each key
    once, are the contributions. *)
Lemma grouped_by_keys (ids : list ID) :
  ∀ pairs,
    NoDup ids → (∀ p, p ∈ pairs → p.1 ∈ ids) →
    concat ((λ id, filter (λ p : ID * loc, p.1 = id) pairs) <$> ids) ≡ₚ pairs.
Proof.
  induction ids as [|id ids IH]; intros pairs Hnd Hall; simpl.
  - destruct pairs as [|p pairs]; [done|].
    specialize (Hall p ltac:(by left)). by apply elem_of_nil in Hall.
  - apply NoDup_cons in Hnd as [Hid Hnd].
    etrans; [|apply (filter_app_complement (λ p : ID * loc, p.1 = id) pairs)].
    apply Permutation_app_head.
    etrans; [|apply (IH (filter (λ p : ID * loc, ¬ p.1 = id) pairs))]; [|done|].
    + apply reflexive_eq. f_equal. apply list_fmap_ext. intros i id' Hid'.
      rewrite list_filter_filter. apply list_filter_iff. intros p.
      split; [|tauto]. intros Hp. split; [done|]. intros Heq.
      apply Hid. rewrite <- Heq, Hp. by eapply list_elem_of_lookup_2.
    + intros p [Hne Hp]%list_elem_of_filter.
      specialize (Hall p Hp). apply elem_of_cons in Hall as [?|?]; done.
Qed.

Lemma fmap_concat_lists {A B} (f : A → B) (ls : list (list A)) :
  f <$> concat ls = concat ((λ l : list A, f <$> l) <$> ls).
Proof.
  induction ls as [|l ls IH]; simpl; [done|]. by rewrite fmap_app, IH.
Qed.

Lemma concat_singletons {A B} (f : A → B) (l : list A) :
  concat ((λ x, [f x]) <$> l) = f <$> l.
Proof. induction l as [|x l IH]; simpl; [done|]. by f_equal. Qed.

Lemma keyed_stray pairs :
  keyed self_equal pairs ++ stray self_equal pairs ≡ₚ pairs.
Proof.
  unfold keyed, stray.
  etrans; [|apply (filter_app_complement (λ p : ID * loc, self_equal p.1 = true))].
  apply Permutation_app_head, reflexive_eq, list_filter_iff.
  intros p. by destruct (self_equal p.1).
Qed.

(** X18.  When [collectPreloadTarget] returns, the keys returned are the
    reference values that are not nil pointers and are equal to themselves;
    they are exactly the keys a lookup finds in the address map, none with
    an empty list of slots.  A reference value that is not equal to itself
    (a NaN) is not among the keys returned: each target with such a
    reference has an entry of its own in the address map, holding its slot
    only.  Taken together, the slots under the keys returned, in their
    order, and the slots of those other entries are the slots of the targets
    whose reference is not a nil pointer, once per such target. *)
Theorem collectPreloadTarget_partition σ (preload : list (preloadTarget ID)) refIndex
    addrs ids σ' :
  collectPreloadTarget hashable self_equal σ preload refIndex
  = Some (addrs, ids, σ') →
  let pairs := omap (contribution refIndex) preload in
  concat ((λ id, default [] (addrmap_found addrs !! id)) <$> ids)
    ++ concat (addrmap_lost addrs).*2
  ≡ₚ pairs.*2
  ∧ (∀ id, id ∈ ids ↔ id ∈ pairs.*1 ∧ self_equal id = true)
  ∧ (∀ id, id ∈ ids ↔ is_Some (addrmap_found addrs !! id))
  ∧ (∀ id, addrmap_found addrs !! id ≠ Some [])
  ∧ (∀ id slots, (id, slots) ∈ addrmap_lost addrs ↔
                 self_equal id = false ∧ ∃ l, slots = [l] ∧ (id, l) ∈ pairs).
Proof.
  intros Hrun pairs.
  destruct (collectPreloadTarget_returns _ _ _ _ Hrun)
    as [_ (Hids & Haddrs & Hlost & _)].
  simpl in Hids, Haddrs, Hlost. fold pairs in Hids, Haddrs, Hlost.
  assert (∀ id, id ∈ (keyed self_equal pairs).*1
                ↔ id ∈ pairs.*1 ∧ self_equal id = true) as Hkeys.
  { intros id. unfold keyed. rewrite !list_elem_of_fmap. split.
    - intros (p & -> & [Hp Hin]%list_elem_of_filter). eauto.
    - intros [(p & -> & Hin) Hp]. exists p. split; [done|].
      by apply list_elem_of_filter. }
  split; [|split; [|split; [|split]]].
  - etrans; [|apply (fmap_Permutation snd), (keyed_stray pairs)].
    rewrite fmap_app. apply Permutation_app.
    + etrans; [|apply (fmap_Permutation snd),
                  (grouped_by_keys ids (keyed self_equal pairs))].
      * rewrite fmap_concat_lists, <- list_fmap_compose.
        apply reflexive_eq. f_equal. apply list_fmap_ext. intros i id Hid.
        simpl. rewrite Haddrs. rewrite decide_True; [done|].
        apply elem_of_first_occurrences. rewrite <- Hids.
        by eapply list_elem_of_lookup_2.
      * rewrite Hids. apply NoDup_first_occurrences.
      * intros p Hp. rewrite Hids. apply elem_of_first_occurrences.
        apply list_elem_of_fmap. eauto.
    + rewrite Hlost, <- list_fmap_compose.
      apply reflexive_eq, (concat_singletons snd).
  - intros id. by rewrite Hids, elem_of_first_occurrences.
  - intros id. rewrite Hids, elem_of_first_occurrences, Haddrs.
    case_decide as Hin; [by split|]. split; [done|]. by intros [? ?].
  - intros id. rewrite Haddrs. case_decide as Hin; [|done].
    intros [= Hnil].
    by apply (contributed_slots_nonempty (keyed self_equal pairs) id).
  - intros id slots. rewrite Hlost, list_elem_of_fmap. unfold stray. split.
    + intros ([id' l] & [= -> ->] & [Hp Hin]%list_elem_of_filter). eauto.
    + intros (Hself & l & -> & Hin). exists (id, l). split; [done|].
      by apply list_elem_of_filter.
Qed.

End PreloadTargetsMore.

Lemma three_owners_run :
  ∃ st, collectPreloadTarget every_key every_key three_slots three_owners [0%Z]
        = Some st.
Proof.
  destruct (collect_loop_collected every_key every_key three_slots [0%Z]
              three_owners [] _ (collected_nil every_key three_slots)
              three_owners_collectable) as (st & Hrun & _).
  by exists st.
Qed.

Lemma collectPreloadTarget_twice_witness :
  ∃ addrs ids σ',
    collectPreloadTarget every_key every_key three_slots three_owners [0%Z]
    = Some (addrs, ids, σ')
    ∧ collectPreloadTarget every_key every_key σ' three_owners [0%Z]
      = Some (addrs, ids, σ').
Proof.
  destruct three_owners_run as ([[addrs ids] σ'] & Hrun).
  exists addrs, ids, σ'. split; [exact Hrun|].
  exact (collectPreloadTarget_twice every_key every_key three_slots three_owners
           [0%Z] addrs ids σ' Hrun).
Defined.

Lemma collectPreloadTarget_panics_exactly_witness :
  let fixed : preloadTarget nat :=
    mkPreloadTarget (λ _, Some (RefValue true 7)) 1 false in
  collectable every_key three_slots [0%Z] fixed = false
  ∧ collectPreloadTarget every_key every_key three_slots
      (three_owners ++ [fixed]) [0%Z] = None.
Proof.
  intros fixed. split; [reflexivity|].
  apply (collectPreloadTarget_panics_exactly every_key every_key three_slots
           (three_owners ++ [fixed]) [0%Z]).
  exists fixed. split; [|reflexivity].
  apply elem_of_app. right. by left.
Defined.

Lemma float_owners_run :
  ∃ st, collectPreloadTarget (λ _, true) float_self_equal three_slots
          float_owners [0%Z] = Some st.
Proof.
  destruct (collect_loop_collected (λ _, true) float_self_equal three_slots [0%Z]
              float_owners [] _ (collected_nil float_self_equal three_slots))
    as (st & Hrun & _); [|by exists st].
  intros t Ht. unfold float_owners in Ht.
  repeat (apply elem_of_cons in Ht as [->|Ht]; [done|]).
  by apply elem_of_nil in Ht.
Qed.

Lemma collectPreloadTarget_partition_witness :
  ∃ addrs ids σ',
    collectPreloadTarget (λ _, true) float_self_equal three_slots
      float_owners [0%Z] = Some (addrs, ids, σ')
    ∧ (None ∈ ids ↔ False)
    ∧ (Some 7 ∈ ids)
    ∧ ((None, [0]) ∈ addrmap_lost addrs).
Proof.
  destruct float_owners_run as ([[addrs ids] σ'] & Hrun).
  exists addrs, ids, σ'. split; [exact Hrun|].
  destruct (collectPreloadTarget_partition (λ _, true) float_self_equal three_slots
              float_owners [0%Z] addrs ids σ' Hrun)
    as (_ & Hids & _ & _ & Hlost).
  split; [|split].
  - rewrite Hids. split; [by intros [_ [=]]|done].
  - apply Hids. split; [|reflexivity]. simpl. right. by left.
  - apply Hlost. split; [reflexivity|]. exists 0. split; [reflexivity|].
    simpl. by left.
Defined.

(** ** More on [getPreloadInfo] *)

Section PreloadInfoMore.

Context (SnakeCase : string → string).

(** X19.  For a relation field whose tags declare both the reference and
    the foreign key, [getPreloadInfo] answers the index of the field of the
    owner that the tag "references" names and the index of the field that
    the tag "foreign_key" names in the related type (the element type of a
    relation that is a pointer, a slice or an array, the type of the
    relation otherwise), whether or not the owner has the fields the
    convention would pick; when one of the two declared fields is missing it
    panics and does not fall back on the convention. *)
Theorem getPreloadInfo_declared rt field sft :
  rtype_FieldByName rt field = Some (Some sft) →
  Tag_Get (StructField_Tag sft) "references" ≠ "" →
  Tag_Get (StructField_Tag sft) "foreign_key" ≠ "" →
  let ft := match StructField_Type sft with
            | TPtr elem | TSlice elem | TArray _ elem => elem
            | t => t
            end in
  getPreloadInfo SnakeCase rt field
  = match rtype_FieldByName rt (Tag_Get (StructField_Tag sft) "references"),
          rtype_FieldByName ft (Tag_Get (StructField_Tag sft) "foreign_key") with
    | Some (Some idv), Some (Some sf) =>
        Some (StructField_Index idv, StructField_Index sf,
              if decide (Tag_Get (StructField_Tag sf) "db" = "")
              then SnakeCase (Tag_Get (StructField_Tag sft) "foreign_key")
              else Tag_Get (StructField_Tag sf) "db")
    | _, _ => None
    end.
Proof.
  intros Hsft Href Hfk ft. rewrite (getPreloadInfo_unfold _ _ _ _ Hsft).
  unfold guess_ref_fk. rewrite decide_False by tauto. fold ft.
  destruct (rtype_FieldByName rt _) as [[idv|]|]; [|done|done].
  destruct (rtype_FieldByName ft _) as [[sf|]|]; [|done|done].
  unfold foreign_key_column. repeat case_decide; congruence.
Qed.

(** X20.  Whenever [getPreloadInfo] returns, the owner type is a struct that
    has the relation field, the related type (the element type of a relation
    that is a pointer, a slice or an array, the type of the relation
    otherwise) is a struct as well, the first index path is that of a field
    of the owner, the second that of a field of the related type, and the
    column is the [db] tag of that field when it is not empty, its
    snake-cased name otherwise.  So a relation whose element type is itself
    a pointer or a slice makes the call panic. *)
Theorem getPreloadInfo_returns_fields rt field refIndex fkIndex column :
  getPreloadInfo SnakeCase rt field = Some (refIndex, fkIndex, column) →
  ∃ sft idv sf,
    let ft := match StructField_Type sft with
              | TPtr elem | TSlice elem | TArray _ elem => elem
              | t => t
              end in
    rtype_FieldByName rt field = Some (Some sft)
    ∧ rtype_Kind rt = reflect_Struct
    ∧ rtype_Kind ft = reflect_Struct
    ∧ rtype_FieldByName rt (StructField_Name idv) = Some (Some idv)
    ∧ refIndex = StructField_Index idv
    ∧ rtype_FieldByName ft (StructField_Name sf) = Some (Some sf)
    ∧ fkIndex = StructField_Index sf
    ∧ column = (if decide (Tag_Get (StructField_Tag sf) "db" = "")
                then SnakeCase (StructField_Name sf)
                else Tag_Get (StructField_Tag sf) "db").
Proof.
  intros Hrun.
  destruct (rtype_FieldByName rt field) as [[sft|]|] eqn:Hsft;
    [|by unfold getPreloadInfo in Hrun; rewrite Hsft in Hrun
     |by unfold getPreloadInfo in Hrun; rewrite Hsft in Hrun].
  rewrite (getPreloadInfo_unfold _ _ _ _ Hsft) in Hrun.
  destruct (guess_ref_fk rt sft _ _) as [[ref fk]|]; [|done].
  destruct (rtype_FieldByName rt ref) as [[idv|]|] eqn:Hidv; [|done|done].
  match type of Hrun with
  | context [rtype_FieldByName ?t fk] =>
      destruct (rtype_FieldByName t fk) as [[sf|]|] eqn:Hsf; [|done|done]
  end.
  injection Hrun as <- <- <-.
  pose proof (rtype_FieldByName_name _ _ _ Hidv) as Hn1.
  pose proof (rtype_FieldByName_name _ _ _ Hsf) as Hn2.
  exists sft, idv, sf. simpl. rewrite Hn1, Hn2.
  split; [done|]. split; [by destruct rt|].
  split; [by destruct (StructField_Type sft) as [| | [] | [] | ? []]|].
  split; [done|]. split; [done|]. split; [done|]. split; [done|].
  unfold foreign_key_column. repeat case_decide; congruence.
Qed.

End PreloadInfoMore.

Lemma getPreloadInfo_declared_witness :
  rtype_FieldByName Customer_type "Addresses"
  = Some (Some (mkStructField "Addresses" (TSlice Address_type)
                  [("references", "Code"); ("foreign_key", "OwnerCode")] [2%Z]))
  ∧ getPreloadInfo (λ name, name) Customer_type "Addresses"
    = Some ([1%Z], [2%Z], "OwnerCode").
Proof.
  split; [reflexivity|].
  rewrite (getPreloadInfo_declared (λ name, name) Customer_type "Addresses"
             (mkStructField "Addresses" (TSlice Address_type)
                [("references", "Code"); ("foreign_key", "OwnerCode")] [2%Z])
             eq_refl ltac:(done) ltac:(done)).
  reflexivity.
Defined.

Lemma getPreloadInfo_returns_fields_witness :
  getPreloadInfo (λ name, name) Article_type "Author"
  = Some ([1%Z], [0%Z], "ID")
  ∧ ∃ sft, rtype_FieldByName Article_type "Author" = Some (Some sft)
           ∧ rtype_Kind match StructField_Type sft with
                        | TPtr elem | TSlice elem | TArray _ elem => elem
                        | t => t
                        end = reflect_Struct.
Proof.
  split; [reflexivity|].
  destruct (getPreloadInfo_returns_fields (λ name, name) Article_type "Author"
              [1%Z] [0%Z] "ID" eq_refl)
    as (sft & idv & sf & Hsft & _ & Hkind & _).
  exists sft. split; [exact Hsft|exact Hkind].
Defined.

(** ** [traversePreloadTarget] *)

(** Induction on a value, with the property for the values it holds, and
    for what the pointers among the fields of a struct point to. *)
Lemma gvalue_ind' (P : gvalue → Prop) :
  P GOther →
  (∀ fields, Forall (λ nf, P nf.2) fields → P (GStruct fields)) →
  (∀ target, (∀ w, target = Some w → P w) → P (GPtr target)) →
  (∀ elems, Forall P elems → P (GSlice elems)) →
  (∀ elems, Forall P elems → P (GArray elems)) →
  ∀ v, P v.
Proof.
  intros HOther HStruct HPtr HSlice HArray. fix IH 1.
  intros [|fields|target|elems|elems].
  - exact HOther.
  - apply HStruct. revert fields. fix IHf 1.
    intros [|nf fields]; constructor; [apply IH|apply IHf].
  - apply HPtr. destruct target as [w|]; intros w' [=]. subst w'. apply IH.
  - apply HSlice. revert elems. fix IHe 1.
    intros [|e elems]; constructor; [apply IH|apply IHe].
  - apply HArray. revert elems. fix IHe 1.
    intros [|e elems]; constructor; [apply IH|apply IHe].
Qed.

Lemma gvalue_deep_ind (P : gvalue → Prop) :
  P GOther →
  (∀ fields,
     (∀ name fv, gvalue_field fields name = Some fv →
                 P fv ∧ ∀ w, fv = GPtr (Some w) → P w) →
     P (GStruct fields)) →
  (∀ target, P (GPtr target)) →
  (∀ elems, (∀ e, e ∈ elems → P e) → P (GSlice elems)) →
  (∀ elems, (∀ e, e ∈ elems → P e) → P (GArray elems)) →
  ∀ v, P v.
Proof.
  intros HOther HStruct HPtr HSlice HArray v.
  cut (P v ∧ ∀ w, v = GPtr (Some w) → P w); [tauto|].
  induction v as [|fields IH|target IH|elems IH|elems IH] using gvalue_ind'.
  - done.
  - split; [|done]. apply HStruct. intros name fv Hfv.
    unfold gvalue_field in Hfv.
    destruct (find _ fields) as [nf|] eqn:Hfind; [|done].
    simpl in Hfv. injection Hfv as <-.
    apply find_some in Hfind as [Hin _].
    rewrite Forall_forall in IH. apply (IH nf).
    apply list_elem_of_In. exact Hin.
  - split; [done|]. intros w [= ->]. by destruct (IH w eq_refl).
  - split; [|done]. apply HSlice. intros e He.
    rewrite Forall_forall in IH. by apply IH.
  - split; [|done]. apply HArray. intros e He.
    rewrite Forall_forall in IH. by apply IH.
Qed.

(** [FieldByName] followed by the rest of the body. *)
Lemma with_field_spec {A} name (forward : gvalue → option A) fields :
  with_field name forward fields
  = match gvalue_field fields name with
    | Some fv => forward fv
    | None => None
    end.
Proof.
  unfold gvalue_field. induction fields as [|nf fields IH]; simpl; [done|].
  by destruct (bool_decide (nf.1 = name)).
Qed.

(** What the loop over the elements returns comes from one of them. *)
Lemma traverse_elems_elem visit elems :
  ∀ i ts t,
    traverse_elems visit i elems = Some ts → t ∈ ts →
    ∃ j e r, elems !! j = Some e ∧ visit (i + j) e = Some r ∧ t ∈ r.
Proof.
  induction elems as [|e elems IH]; intros i ts t; simpl.
  - intros [= <-] Ht. by apply elem_of_nil in Ht.
  - destruct (visit i e) as [r|] eqn:Hr; [|done].
    destruct (traverse_elems visit (S i) elems) as [rs|] eqn:Hrs; [|done].
    intros [= <-] [Ht|Ht]%elem_of_app.
    + exists 0, e, r. by rewrite Nat.add_0_r.
    + destruct (IH _ _ _ Hrs Ht) as (j & e' & r' & He' & Hr' & Ht').
      exists (S j), e', r'. by rewrite Nat.add_succ_r.
Qed.

(** The loop panics as soon as its body does for one element. *)
Lemma traverse_elems_panics visit elems :
  ∀ i j e, elems !! j = Some e → visit (i + j) e = None →
           traverse_elems visit i elems = None.
Proof.
  induction elems as [|e' elems IH]; intros i j e; simpl; [done|].
  destruct j as [|j]; simpl.
  - intros [= ->]. rewrite Nat.add_0_r. by intros ->.
  - intros He Hv. destruct (visit i e'); [|done].
    rewrite (IH (S i) j e); [done|done|]. by rewrite Nat.add_succ_r in Hv.
Qed.

Lemma gvalue_at_app v p q :
  gvalue_at v (p ++ q)
  = match gvalue_at v p with
    | Some w => gvalue_at w q
    | None => None
    end.
Proof.
  revert v. induction p as [|s p IH]; intros v; simpl; [done|].
  destruct s, v as [| |[?|]| |]; try done.
  - by destruct (elems !! i).
  - by destruct (elems !! i).
  - by destruct (gvalue_field fields name).
Qed.

(** Targets found below a value are found in the value. *)
Lemma well_placed_below rv pos before w name path ts :
  gvalue_at rv before = Some w → path ≠ [] →
  well_placed w (pos ++ before) path ts →
  well_placed rv pos (name :: path) ts.
Proof.
  intros Hw Hpath Hts t Ht.
  destruct (Hts t Ht)
    as (rel & nm & fields & fv & Hs & Hf & Hlast & Hat & Hfield & Hkind).
  exists (before ++ rel), nm, fields, fv.
  split; [by rewrite Hs, app_assoc|]. split; [done|].
  split; [by destruct path|]. split; [|done].
  by rewrite gvalue_at_app, Hw.
Qed.

Lemma well_placed_elems visit pos path elems rv ts :
  (∀ j, gvalue_at rv [SIndex j] = elems !! j) →
  (∀ j e r, elems !! j = Some e → visit j e = Some r →
            well_placed e (pos ++ [SIndex j]) path r) →
  traverse_elems visit 0 elems = Some ts →
  well_placed rv pos path ts.
Proof.
  intros Hrv Hvisit Hrun t Ht.
  destruct (traverse_elems_elem _ _ _ _ _ Hrun Ht)
    as (j & e & r & He & Hr & Htr). simpl in Hr.
  destruct (Hvisit j e r He Hr t Htr)
    as (rel & nm & fields & fv & Hs & Hf & Hlast & Hat & Hfield & Hkind).
  exists ([SIndex j] ++ rel), nm, fields, fv.
  split; [by rewrite Hs, app_assoc|]. split; [done|]. split; [done|].
  split; [|done]. by rewrite gvalue_at_app, Hrv, He.
Qed.

Lemma traversePreloadTarget_well_placed rv :
  ∀ pos path ts,
    traversePreloadTarget pos rv path = Some ts → well_placed rv pos path ts.
Proof.
  induction rv as [|fields IH|target|elems IH|elems IH] using gvalue_deep_ind;
    intros pos path ts; simpl; [done| |done| |].
  - destruct path as [|name rest]; [done|]. rewrite with_field_spec.
    destruct (gvalue_field fields name) as [fv|] eqn:Hfv; [|done].
    destruct (IH name fv Hfv) as [IHfv IHw].
    assert (relation_kind fv →
            well_placed (GStruct fields) pos [name]
              [mkTarget pos (pos ++ [SField name])]) as Hhere.
    { intros Hkind t ->%list_elem_of_singleton.
      exists [], name, fields, fv. simpl. by rewrite app_nil_r. }
    assert (gvalue_at (GStruct fields) [SField name] = Some fv) as Hat.
    { simpl. by rewrite Hfv. }
    destruct rest as [|next rest].
    + destruct fv as [|fs|tg|es|es]; try done; intros [= <-];
        apply Hhere; unfold relation_kind; simpl; tauto.
    + destruct fv as [|fs|tg|es|es]; try done.
      * intros Hrun. eapply well_placed_below; [exact Hat|done|by apply IHfv].
      * destruct tg as [w|].
        -- intros Hrun.
           apply (well_placed_below _ _ [SField name; SElem] w); [|done|].
           ++ simpl. by rewrite Hfv.
           ++ by apply IHw.
        -- intros [= <-] t Ht. by apply elem_of_nil in Ht.
      * intros Hrun. eapply well_placed_below; [exact Hat|done|by apply IHfv].
  - apply well_placed_elems.
    + intros j. simpl. by destruct (elems !! j).
    + intros j e r He. apply IH. by eapply list_elem_of_lookup_2.
  - apply well_placed_elems.
    + intros j. simpl. by destruct (elems !! j).
    + intros j e r He. apply IH. by eapply list_elem_of_lookup_2.
Qed.

(** X21.  Every target [traversePreloadTarget] returns is a struct of the
    record, found at or below the value given, together with its field named
    by the last segment of the path, and that field is a struct, a slice or
    a pointer: the relation is always the field itself, not what a pointer
    field points to. *)
Theorem traversePreloadTarget_targets pos rv path ts :
  traversePreloadTarget pos rv path = Some ts →
  ∀ t, t ∈ ts →
    ∃ rel name fields fv,
      target_schema t = pos ++ rel
      ∧ target_field t = target_schema t ++ [SField name]
      ∧ last path = Some name
      ∧ gvalue_at rv rel = Some (GStruct fields)
      ∧ gvalue_field fields name = Some fv
      ∧ relation_kind fv.
Proof. apply traversePreloadTarget_well_placed. Qed.

Lemma traverse_elems_each visit (mk : nat → target) elems :
  ∀ i,
    (∀ j e, elems !! j = Some e → visit (i + j) e = Some [mk (i + j)]) →
    traverse_elems visit i elems = Some (imap (λ j _, mk (i + j)) elems).
Proof.
  induction elems as [|e elems IH]; intros i Hvisit; simpl; [done|].
  rewrite <- (Nat.add_0_r i) at 1. rewrite (Hvisit 0 e eq_refl).
  rewrite (IH (S i)).
  - simpl. do 2 f_equal. apply imap_ext. intros j e' _. simpl.
    by rewrite Nat.add_succ_r.
  - intros j e' He'. replace (S i + j) with (i + S j) by lia.
    by apply (Hvisit (S j)).
Qed.

(** X22.  On a slice of structs that all have the relation field, as a
    struct, a slice or a pointer, and with a path of that one field,
    [traversePreloadTarget] returns one target per element, in the order of
    the slice: the element and its relation field.  An element whose
    relation is a nil pointer is a target like the others. *)
Theorem traversePreloadTarget_each_record pos elems name :
  (∀ e, e ∈ elems →
        ∃ fields fv, e = GStruct fields
                     ∧ gvalue_field fields name = Some fv
                     ∧ relation_kind fv) →
  traversePreloadTarget pos (GSlice elems) [name]
  = Some (imap (λ i _, mkTarget (pos ++ [SIndex i])
                                ((pos ++ [SIndex i]) ++ [SField name]))
               elems).
Proof.
  intros Hrecords. simpl.
  apply (traverse_elems_each _
           (λ i, mkTarget (pos ++ [SIndex i]) ((pos ++ [SIndex i]) ++ [SField name]))).
  intros j e He. simpl.
  destruct (Hrecords e) as (fields & fv & -> & Hfv & Hkind);
    [by eapply list_elem_of_lookup_2|].
  simpl. rewrite with_field_spec, Hfv.
  destruct fv as [|fs|tg|es|es]; try done;
    destruct Hkind as [Hk|[Hk|Hk]]; discriminate.
Qed.

(** X24.  A slice or an array one of whose elements is not a struct, a slice
    or an array (a pointer to a struct, for one) makes
    [traversePreloadTarget] panic, whatever the path and the other
    elements. *)
Theorem traversePreloadTarget_panics_on_pointer_elements pos elems path e :
  e ∈ elems →
  gvalue_Kind e = Some reflect_Ptr ∨ gvalue_Kind e = None →
  traversePreloadTarget pos (GSlice elems) path = None
  ∧ traversePreloadTarget pos (GArray elems) path = None.
Proof.
  intros (j & Hj)%list_elem_of_lookup_1 Hkind.
  assert (traversePreloadTarget (pos ++ [SIndex (0 + j)]) e path = None) as He.
  { destruct e; try done; by destruct Hkind. }
  split; simpl.
  - by apply (traverse_elems_panics _ elems 0 j e).
  - by apply (traverse_elems_panics _ elems 0 j e).
Qed.

(** X25.  With an empty path [traversePreloadTarget] never returns a target:
    it panics on a struct, and when it returns, for slices and arrays in
    which no struct is reached, the result is empty. *)
Theorem traversePreloadTarget_empty_path pos rv :
  (∀ ts, traversePreloadTarget pos rv [] = Some ts →
         ts = []
         ∧ (gvalue_Kind rv = Some reflect_Slice
            ∨ gvalue_Kind rv = Some reflect_Array))
  ∧ (gvalue_Kind rv = Some reflect_Struct →
     traversePreloadTarget pos rv [] = None).
Proof.
  split.
  - intros ts Hrun. split.
    + pose proof (traversePreloadTarget_well_placed _ _ _ _ Hrun) as Hts.
      destruct ts as [|t ts]; [done|].
      destruct (Hts t ltac:(by left)) as (rel & nm & fs & fv & _ & _ & Hlast & _).
      done.
    + destruct rv; try done; simpl; tauto.
  - by destruct rv.
Qed.

Lemma traversePreloadTarget_targets_witness :
  traversePreloadTarget [] two_users ["Transactions"; "Buyer"]
  = Some [mkTarget [SIndex 0; SField "Transactions"; SIndex 0]
                   [SIndex 0; SField "Transactions"; SIndex 0; SField "Buyer"];
          mkTarget [SIndex 0; SField "Transactions"; SIndex 1]
                   [SIndex 0; SField "Transactions"; SIndex 1; SField "Buyer"]]
  ∧ ∃ rel name fields fv,
      [SIndex 0; SField "Transactions"; SIndex 1] = [] ++ rel
      ∧ [SIndex 0; SField "Transactions"; SIndex 1; SField "Buyer"]
        = [SIndex 0; SField "Transactions"; SIndex 1] ++ [SField name]
      ∧ last ["Transactions"; "Buyer"] = Some name
      ∧ gvalue_at two_users rel = Some (GStruct fields)
      ∧ gvalue_field fields name = Some fv
      ∧ relation_kind fv.
Proof.
  split; [reflexivity|].
  apply (traversePreloadTarget_targets [] two_users ["Transactions"; "Buyer"]
           _ eq_refl
           (mkTarget [SIndex 0; SField "Transactions"; SIndex 1]
                     [SIndex 0; SField "Transactions"; SIndex 1; SField "Buyer"])).
  right. left.
Defined.

Lemma traversePreloadTarget_each_record_witness :
  (∀ e, e ∈ [a_transaction; a_transaction] →
        ∃ fields fv, e = GStruct fields
                     ∧ gvalue_field fields "Buyer" = Some fv
                     ∧ relation_kind fv)
  ∧ traversePreloadTarget [] (GSlice [a_transaction; a_transaction]) ["Buyer"]
    = Some [mkTarget [SIndex 0] [SIndex 0; SField "Buyer"];
            mkTarget [SIndex 1] [SIndex 1; SField "Buyer"]].
Proof.
  assert (∀ e, e ∈ [a_transaction; a_transaction] →
               ∃ fields fv, e = GStruct fields
                            ∧ gvalue_field fields "Buyer" = Some fv
                            ∧ relation_kind fv) as Hrecords.
  { intros e He.
    assert (e = a_transaction) as ->.
    { repeat (apply elem_of_cons in He as [->|He]; [done|]).
      by apply elem_of_nil in He. }
    eexists _, (GPtr None). split; [reflexivity|]. split; [reflexivity|].
    right. right. reflexivity. }
  split; [exact Hrecords|].
  exact (traversePreloadTarget_each_record [] _ "Buyer" Hrecords).
Defined.

Lemma traversePreloadTarget_panics_on_pointer_elements_witness :
  GPtr (Some a_transaction) ∈ [a_transaction; GPtr (Some a_transaction)]
  ∧ traversePreloadTarget []
      (GSlice [a_transaction; GPtr (Some a_transaction)]) ["Buyer"] = None.
Proof.
  assert (GPtr (Some a_transaction) ∈ [a_transaction; GPtr (Some a_transaction)])
    as Hin by (right; left).
  split; [exact Hin|].
  exact (proj1 (traversePreloadTarget_panics_on_pointer_elements [] _ ["Buyer"] _
                  Hin (or_introl eq_refl))).
Defined.

Lemma traversePreloadTarget_empty_path_witness :
  gvalue_Kind a_transaction = Some reflect_Struct
  ∧ traversePreloadTarget [] a_transaction [] = None.
Proof.
  split; [reflexivity|].
  exact (proj2 (traversePreloadTarget_empty_path [] a_transaction) eq_refl).
Defined.
